(** * Semantic snapshot and query tools (sem_snapshot, sem_query)

    A shallow embedding of the semantic tooling of chrome-devtools-mcp
    (the file that defines [semSnapshot] and [semQuery]) and the
    properties of its specification checked against it.

    Conventions of the embedding.
    - A JavaScript string is a [string]: text outside ASCII is held as
      its UTF-8 bytes.  [length], [slice], [toLowerCase], [trim] and the
      whitespace class are exact on ASCII text.
    - A JavaScript number that the code uses as an integer (scores,
      offsets, lengths) is a [Z], exact as long as it stays below 2^53;
      [NaN] is [None] in an [option Z].  The confidence of a match, a
      number of hundredths, is a [Q].
    - The informational lines a handler prints before its result are
      left out: a call is modelled by the object it prints as result.
    - The accessibility tree delivered by the page is an input
      ([option AXNode], [None] for [null]).
    - An exception is the [Err] branch of [Result]. *)

From Stdlib Require Import ZArith QArith Ascii String DecimalString DecimalNat.
From stdpp Require Import base option list strings gmap sorting.

Set Warnings "-register-all".

#[local] Arguments String.append !_ _ / : simpl nomatch.

Local Open Scope string_scope.
Local Open Scope list_scope.
Local Open Scope Z_scope.

(** ** JavaScript string primitives *)

Module JS.

Definition code (c : ascii) : Z := Z.of_N (N_of_ascii c).
Definition chr (z : Z) : ascii := ascii_of_N (Z.to_N z).

(** [String.prototype.toLowerCase], ASCII letters. *)
Definition lowerChar (c : ascii) : ascii :=
  if (65 <=? code c) && (code c <=? 90) then chr (code c + 32) else c.

Fixpoint toLowerCase (s : string) : string :=
  match s with
  | EmptyString => EmptyString
  | String c r => String (lowerChar c) (toLowerCase r)
  end.

(** The class [\s] of regular expressions and of [trim], ASCII part:
    TAB, LF, VT, FF, CR and space. *)
Definition isSpace (c : ascii) : bool :=
  ((9 <=? code c) && (code c <=? 13)) || (code c =? 32).

Fixpoint trimStart (s : string) : string :=
  match s with
  | String c r => if isSpace c then trimStart r else s
  | EmptyString => EmptyString
  end.

Definition rev (s : string) : string :=
  string_of_list_ascii (List.rev (list_ascii_of_string s)).

Definition trim (s : string) : string := rev (trimStart (rev (trimStart s))).

(** [s.replace(/\s+/g, ' ')]: every maximal run of white space becomes
    one space.  [inRun] tells that the previous character was white
    space (its run has already produced its space). *)
Fixpoint collapseFrom (inRun : bool) (s : string) : string :=
  match s with
  | EmptyString => EmptyString
  | String c r =>
      if isSpace c
      then (if inRun then collapseFrom true r else String " " (collapseFrom true r))
      else String c (collapseFrom false r)
  end.

Definition collapseSpaces (s : string) : string := collapseFrom false s.

(** [s.startsWith(p)] and [s.includes(p)]. *)
Fixpoint startsWith (p s : string) : bool :=
  match p, s with
  | EmptyString, _ => true
  | String a p', String b s' => if Ascii.eqb a b then startsWith p' s' else false
  | String _ _, EmptyString => false
  end.

Fixpoint includes (s p : string) : bool :=
  startsWith p s ||
  match s with
  | EmptyString => false
  | String _ r => includes r p
  end.

(** [s.slice(0, n)] for [0 <= n], on text whose characters take one
    byte each (the base64 text of a digest). *)
Fixpoint sliceTo (n : nat) (s : string) : string :=
  match n, s with
  | S k, String c r => String c (sliceTo k r)
  | _, _ => EmptyString
  end.

(** A string is held as the bytes of its UTF-8 form, and JavaScript
    counts and cuts in UTF-16 code units: a character of one, two or
    three bytes is one unit, a character of four bytes is two units (a
    surrogate pair).  [width c] is the number of bytes of the character
    that the byte [c] starts, [unitsOf c] its number of units. *)
Definition width (c : ascii) : nat :=
  if code c <? 192 then 1%nat
  else if code c <? 224 then 2%nat
  else if code c <? 240 then 3%nat
  else 4%nat.

Definition unitsOf (c : ascii) : nat := if code c <? 240 then 1%nat else 2%nat.

(** [s.length].  [skip] bytes of the character at hand are still to be
    passed. *)
Fixpoint unitsFrom (skip : nat) (s : string) : nat :=
  match s with
  | EmptyString => 0%nat
  | String c r =>
      match skip with
      | S k => unitsFrom k r
      | O => (unitsOf c + unitsFrom (width c - 1) r)%nat
      end
  end.

Definition len (s : string) : Z := Z.of_nat (unitsFrom 0 s).

(** The first unit of the surrogate pair of the four-byte character
    [b0 b1 b2 _], which a cut between the two units leaves behind: the
    code unit 110110wwwwzzzzyy, held in the three bytes of generalized
    UTF-8. *)
Definition highSurrogate (b0 b1 b2 : ascii) : string :=
  let u := Z.lor (Z.shiftl (Z.land (code b0) 7) 2) (Z.land (Z.shiftr (code b1) 4) 3) in
  let zy := Z.lor (Z.shiftl (Z.land (code b1) 15) 2) (Z.land (Z.shiftr (code b2) 4) 3) in
  String (chr 237) (String (chr (160 + (u - 1))) (String (chr (128 + zy)) EmptyString)).

(** [s.slice(0, n)] for [0 <= n]: the first [n] code units. *)
Fixpoint sliceFrom (skip n : nat) (s : string) : string :=
  match s with
  | EmptyString => EmptyString
  | String c r =>
      match skip with
      | S k => String c (sliceFrom k n r)
      | O =>
          if (unitsOf c <=? n)%nat
          then String c (sliceFrom (width c - 1) (n - unitsOf c) r)
          else match n, r with
               | 1%nat, String b1 (String b2 _) => highSurrogate c b1 b2
               | _, _ => EmptyString
               end
      end
  end.

Definition sliceUnits (n : nat) (s : string) : string := sliceFrom 0 n s.

(** A string is truthy when it is not empty. *)
Definition truthy (s : string) : bool :=
  match s with EmptyString => false | _ => true end.

(** [a || b] on strings. *)
Definition orElse (a b : string) : string := if truthy a then a else b.

(** [arr.join(sep)]. *)
Fixpoint join (sep : string) (l : list string) : string :=
  match l with
  | [] => EmptyString
  | [x] => x
  | x :: r => x +:+ sep +:+ join sep r
  end.

(** [s.split(sep)] for a one-character separator. *)
Fixpoint splitOn (sep : ascii) (cur : string) (s : string) : list string :=
  match s with
  | EmptyString => [rev cur]
  | String c r =>
      if Ascii.eqb c sep then rev cur :: splitOn sep EmptyString r
      else splitOn sep (String c cur) r
  end.

(** Decimal rendering of a non-negative integer, [n.toString()] and
    [String(n)]. *)
Definition natToString (n : nat) : string :=
  NilZero.string_of_uint (Nat.to_uint n).

Definition numToString (z : Z) : string :=
  if z <? 0 then "-" +:+ natToString (Z.to_nat (- z)) else natToString (Z.to_nat z).

End JS.

(** ** SHA-256 and base64url ([node:crypto])

    [crypto.createHash('sha256').update(s).digest('base64url')], written
    out from FIPS 180-4 and RFC 4648 section 5 (no padding character). *)

Module Sha256.

Definition w32 (x : Z) : Z := x mod 2 ^ 32.
Definition add32 (a b : Z) : Z := w32 (a + b).
Definition not32 (x : Z) : Z := Z.lxor x 0xFFFFFFFF.
Definition rotr (n x : Z) : Z := Z.lor (Z.shiftr x n) (w32 (Z.shiftl x (32 - n))).

Definition Ch (x y z : Z) : Z := Z.lxor (Z.land x y) (Z.land (not32 x) z).
Definition Maj (x y z : Z) : Z :=
  Z.lxor (Z.lxor (Z.land x y) (Z.land x z)) (Z.land y z).
Definition bsig0 (x : Z) : Z := Z.lxor (Z.lxor (rotr 2 x) (rotr 13 x)) (rotr 22 x).
Definition bsig1 (x : Z) : Z := Z.lxor (Z.lxor (rotr 6 x) (rotr 11 x)) (rotr 25 x).
Definition ssig0 (x : Z) : Z := Z.lxor (Z.lxor (rotr 7 x) (rotr 18 x)) (Z.shiftr x 3).
Definition ssig1 (x : Z) : Z := Z.lxor (Z.lxor (rotr 17 x) (rotr 19 x)) (Z.shiftr x 10).

(** The constants are derived as FIPS 180-4 defines them: the first 32
    bits of the fractional parts of the cube roots ([K]) and of the
    square roots ([H0]) of the first primes. *)
Definition isPrime (n : nat) : bool :=
  forallb (fun d => negb (n mod d =? 0)%nat) (seq 2 (n - 2)).

Definition primes (count : nat) : list Z :=
  take count (Z.of_nat <$> List.filter isPrime (seq 2 310)).

(** The integer cube root, found bit by bit from bit [bits - 1] down. *)
Fixpoint cubeRoot (bits : nat) (n r : Z) : Z :=
  match bits with
  | O => r
  | S b =>
      let r' := r + 2 ^ Z.of_nat b in
      cubeRoot b n (if r' * r' * r' <=? n then r' else r)
  end.

Definition K : list Z :=
  Eval vm_compute in (fun p => w32 (cubeRoot 40 (p * 2 ^ 96) 0)) <$> primes 64.

Definition H0 : list Z :=
  Eval vm_compute in (fun p => w32 (Z.sqrt (p * 2 ^ 64))) <$> primes 8.

Definition bytesOf (s : string) : list Z := JS.code <$> list_ascii_of_string s.

Definition be (width : nat) (x : Z) : list Z :=
  (fun i => Z.shiftr x (8 * Z.of_nat i) mod 256) <$> List.rev (seq 0 width).

(** The message, the bit 1, zero bits up to 56 modulo 64 bytes, and the
    length in bits on 64 bits. *)
Definition pad (msg : list Z) : list Z :=
  let n := Z.of_nat (length msg) in
  msg ++ [0x80] ++ replicate (Z.to_nat ((55 - n) mod 64)) 0 ++ be 8 (8 * n).

Fixpoint words (l : list Z) : list Z :=
  match l with
  | a :: b :: c :: d :: r =>
      Z.lor (Z.lor (Z.shiftl a 24) (Z.shiftl b 16)) (Z.lor (Z.shiftl c 8) d) :: words r
  | _ => []
  end.

Fixpoint blocks (fuel : nat) (l : list Z) : list (list Z) :=
  match fuel, l with
  | S f, _ :: _ => words (take 64 l) :: blocks f (drop 64 l)
  | _, _ => []
  end.

(** The message schedule, most recent word first. *)
Fixpoint schedule (n : nat) (w : list Z) : list Z :=
  match n with
  | O => w
  | S k =>
      let x i := nth i w 0 in
      schedule k (add32 (add32 (ssig1 (x 1%nat)) (x 6%nat))
                        (add32 (ssig0 (x 14%nat)) (x 15%nat)) :: w)
  end.

Definition round (h : list Z) (kw : Z * Z) : list Z :=
  match h with
  | [a; b; c; d; e; f; g; hh] =>
      let t1 := add32 (add32 (add32 hh (bsig1 e)) (add32 (Ch e f g) kw.1)) kw.2 in
      let t2 := add32 (bsig0 a) (Maj a b c) in
      [add32 t1 t2; a; b; c; add32 d t1; e; f; g]
  | _ => h
  end.

Definition compress (h : list Z) (block : list Z) : list Z :=
  let w := List.rev (schedule 48 (List.rev block)) in
  zip_with add32 h (foldl round h (zip K w)).

Definition digest (msg : list Z) : list Z :=
  let p := pad msg in
  mjoin (be 4 <$> foldl compress H0 (blocks (length p) p)).

Definition alphabet : string :=
  "ABCDEFGHIJKLMNOPQRSTUVWXYZabcdefghijklmnopqrstuvwxyz0123456789-_".

Definition b64 (x : Z) : ascii :=
  match String.get (Z.to_nat (x mod 64)) alphabet with
  | Some c => c
  | None => "A"%char
  end.

Fixpoint base64url (l : list Z) : string :=
  match l with
  | a :: b :: c :: r =>
      String (b64 (Z.shiftr a 2))
        (String (b64 (Z.lor (Z.shiftl a 4) (Z.shiftr b 4)))
           (String (b64 (Z.lor (Z.shiftl b 2) (Z.shiftr c 6)))
              (String (b64 c) (base64url r))))
  | [a; b] =>
      String (b64 (Z.shiftr a 2))
        (String (b64 (Z.lor (Z.shiftl a 4) (Z.shiftr b 4)))
           (String (b64 (Z.shiftl b 2)) EmptyString))
  | [a] =>
      String (b64 (Z.shiftr a 2)) (String (b64 (Z.shiftl a 4)) EmptyString)
  | [] => EmptyString
  end.

Definition sha256_base64url (s : string) : string := base64url (digest (bytesOf s)).

Definition hexDigit (x : Z) : ascii :=
  match String.get (Z.to_nat (x mod 16)) "0123456789abcdef" with
  | Some c => c
  | None => "0"%char
  end.

Definition hex (l : list Z) : string :=
  string_of_list_ascii (mjoin ((fun b => [hexDigit (Z.shiftr b 4); hexDigit b]) <$> l)).

End Sha256.


(** ** [path.posix.join] ([node:path])

    The arguments that are not empty are joined with a slash and the
    result is normalized: empty and [.] components go, [..] removes the
    component before it (at the root of an absolute path it is dropped),
    a trailing slash is kept. *)

Module Path.

(** The components kept so far, last one first. *)
Fixpoint normalizeString (allowAboveRoot : bool) (res : list string)
    (comps : list string) : list string :=
  match comps with
  | [] => List.rev res
  | c :: r =>
      if String.eqb c "" || String.eqb c "." then normalizeString allowAboveRoot res r
      else if String.eqb c ".." then
        match res with
        | top :: res' =>
            if String.eqb top ".."
            then normalizeString allowAboveRoot (".." :: res) r
            else normalizeString allowAboveRoot res' r
        | [] =>
            if allowAboveRoot then normalizeString allowAboveRoot [".."] r
            else normalizeString allowAboveRoot [] r
        end
      else normalizeString allowAboveRoot (c :: res) r
  end.

Definition normalize (path : string) : string :=
  if negb (JS.truthy path) then "." else
  let isAbsolute := JS.startsWith "/" path in
  let trailingSeparator := JS.startsWith "/" (JS.rev path) in
  let body :=
    JS.join "/" (normalizeString (negb isAbsolute) [] (JS.splitOn "/" "" path)) in
  if negb (JS.truthy body) then
    (if isAbsolute then "/" else if trailingSeparator then "./" else ".")
  else
    let body' := if trailingSeparator then body +:+ "/" else body in
    if isAbsolute then "/" +:+ body' else body'.

Definition join (args : list string) : string :=
  match List.filter JS.truthy args with
  | [] => "."
  | parts => normalize (JS.join "/" parts)
  end.

End Path.

(** ** The accessibility tree *)

(** A value found in a field of a serialized node.  An object is
    described by its own property [value], when it has one. *)
Inductive AXValue : Type :=
| VUndefined
| VNull
| VString (s : string)
| VNumber (n : Z)
| VBoolean (b : bool)
| VObject (value : option AXValue).

Record AXProperty := { prop_name : AXValue; prop_value : AXValue }.

Record SemanticNodeBounds := { x : Z; y : Z; width : Z; height : Z }.

(** [SerializedAXNode], read through [Record<string, unknown>]: the four
    text fields, the other own properties ([raw], where the candidate
    attributes are looked up), the optional array [properties]
    ([None] when absent or not an array), and the children
    ([undefined] is the empty list).  [geometry] is the bounding box the
    tree provider may attach to a node; no function of the tools reads
    it. *)
Inductive AXNode : Type := mkAXNode {
  role : AXValue;
  name : AXValue;
  description : AXValue;
  value : AXValue;
  raw : gmap string AXValue;
  properties : option (list AXProperty);
  geometry : option SemanticNodeBounds;
  children : list AXNode
}.

Fixpoint getAXString (value : AXValue) : string :=
  match value with
  | VUndefined | VNull => ""
  | VString s => s
  | VNumber n => JS.numToString n
  | VBoolean b => if b then "true" else "false"
  | VObject (Some v) => getAXString v
  | VObject None => ""
  end.

(** [String(value)]. *)
Definition jsString (value : AXValue) : string :=
  match value with
  | VUndefined => "undefined"
  | VNull => "null"
  | VString s => s
  | VNumber n => JS.numToString n
  | VBoolean b => if b then "true" else "false"
  | VObject _ => "[object Object]"
  end.

Definition candidates : list string :=
  [ "disabled"; "expanded"; "focused"; "modal"; "multiline"; "multiselectable";
    "readonly"; "required"; "selected"; "checked"; "pressed"; "level";
    "valuemin"; "valuemax"; "autocomplete"; "haspopup"; "invalid"; "orientation" ].

(** [attributes[name] = value] on a plain object: the key [__proto__]
    is an accessor of [Object.prototype] and a string assigned to it is
    dropped. *)
Definition setAttribute (name value : string) (attributes : gmap string string)
    : gmap string string :=
  if String.eqb name "__proto__" then attributes else <[name := value]> attributes.

Definition extractAttributes (node : AXNode) : gmap string string :=
  let fromCandidates :=
    foldl (fun attributes candidate =>
             match raw node !! candidate with
             | None | Some VUndefined | Some VNull => attributes
             | Some v => setAttribute candidate (jsString v) attributes
             end) ∅ candidates in
  match properties node with
  | Some props =>
      foldl (fun attributes prop =>
               match prop_name prop with
               | VString n =>
                   let name := JS.toLowerCase n in
                   if negb (JS.truthy name) then attributes else
                   let value := getAXString (prop_value prop) in
                   if String.eqb value "" then attributes
                   else setAttribute name value attributes
               | _ => attributes
               end) fromCandidates props
  | None => fromCandidates
  end.

(** ** Identifiers, snippets and bounds *)

Definition generateSID (node : AXNode) (frameId : string) (pathSegments : list string)
    : string :=
  let role := getAXString (role node) in
  let name := getAXString (name node) in
  let description := getAXString (description node) in
  let axPath := Path.join ("/" :: pathSegments) in
  let normalizedLabel := JS.collapseSpaces (JS.trim (JS.toLowerCase name)) in
  let hashInput :=
    frameId +:+ "||" +:+ axPath +:+ "||" +:+ role +:+ "||" +:+ normalizedLabel
            +:+ "||" +:+ description in
  let hash := Sha256.sha256_base64url hashInput in
  "sid_" +:+ JS.sliceTo 24 hash.

(** [null] is [None]. *)
Definition extractTextSnippet (node : AXNode) (maxLength : nat) : option string :=
  let name := getAXString (name node) in
  let description := getAXString (description node) in
  let value := getAXString (value node) in
  let text := JS.orElse (JS.orElse name description) value in
  if negb (JS.truthy text) then None
  else Some (if Z.of_nat maxLength <? JS.len text
             then JS.sliceUnits maxLength text +:+ "..." else text).

Definition getElementBounds (_node : AXNode) : SemanticNodeBounds :=
  {| x := 0; y := 0; width := 100; height := 20 |}.

(** ** Results and exceptions *)

Inductive Result (A : Type) : Type :=
| Ok (a : A)
| Err (message : string).
Arguments Ok {A} a.
Arguments Err {A} message.

Definition bind {A B : Type} (r : Result A) (k : A -> Result B) : Result B :=
  match r with
  | Ok a => k a
  | Err m => Err m
  end.

Notation "'let!' x ':=' r 'in' k" := (bind r (fun x => k))
  (at level 10, x name, r at level 200, k at level 200).

(** [try { body } catch (error) { throw new Error(prefix + error.message) }]. *)
Definition rethrow {A : Type} (prefix : string) (body : Result A) : Result A :=
  match body with
  | Ok a => Ok a
  | Err m => Err (prefix +:+ m)
  end.

(** An optional string parameter is truthy when it is given and not
    empty. *)
Definition given (o : option string) : bool :=
  match o with
  | Some s => JS.truthy s
  | None => false
  end.

(** The segment a child at index [i] adds to the path of its parent. *)
Definition segment (child : AXNode) (i : nat) : string :=
  let childRole := JS.orElse (getAXString (role child)) "node" in
  childRole +:+ "[" +:+ JS.natToString i +:+ "]".

Definition frameId : string := "main".

(** ** sem_snapshot *)

Inductive Scope : Type := viewport | document.

Record SnapshotParams := {
  scope : Scope;
  within_sid : option string;
  fields : list string;
  max_nodes : Z;
  cursor : option string
}.

(** [SemanticSnapshotNode]: every field is optional. *)
Record SemanticSnapshotNode := {
  sn_sid : option string;
  sn_role : option string;
  sn_label : option string;
  sn_textSnippet : option string;
  sn_bounds : option SemanticNodeBounds;
  sn_frameId : option string
}.

Definition includesField (fields : list string) (f : string) : bool :=
  existsb (String.eqb f) fields.

(** The object [nodeData] that [processNode] builds for a node. *)
Definition nodeData (params : SnapshotParams) (node : AXNode) (pathSegments : list string)
    : SemanticSnapshotNode :=
  let sid := generateSID node frameId pathSegments in
  let role := getAXString (role node) in
  let label := getAXString (name node) in
  let textSnippet := extractTextSnippet node 50 in
  let bounds := getElementBounds node in
  let sel (f : string) {A} (v : A) : option A :=
    if includesField (fields params) f then Some v else None in
  {| sn_sid := sel "sid" sid;
     sn_role := sel "role" role;
     sn_label := sel "label" label;
     sn_textSnippet := if includesField (fields params) "textSnippet" then textSnippet else None;
     sn_bounds := sel "bounds" bounds;
     sn_frameId := sel "frameId" frameId |}.

(** [includeNode] and [nextScope] (the same expression in the source). *)
Definition inScope (targetSid : option string) (sid : string) (isWithinScope : bool) : bool :=
  if given targetSid
  then isWithinScope || String.eqb sid (default "" targetSid)
  else true.

(** [role || label || textSnippet]. *)
Definition hasContent (node : AXNode) : bool :=
  JS.truthy (getAXString (role node)) || JS.truthy (getAXString (name node))
  || bool_decide (is_Some (extractTextSnippet node 50)).

(** The array [nodes] is threaded through the calls. *)
Fixpoint processNode (params : SnapshotParams) (node : AXNode)
    (pathSegments : list string) (isWithinScope : bool)
    (nodes : list SemanticSnapshotNode) {struct node} : list SemanticSnapshotNode :=
  let targetSid := within_sid params in
  let sid := generateSID node frameId pathSegments in
  let includeNode := inScope targetSid sid isWithinScope in
  let nextScope := inScope targetSid sid isWithinScope in
  let nodes :=
    if includeNode && hasContent node
    then nodes ++ [nodeData params node pathSegments] else nodes in
  match node with
  | mkAXNode _ _ _ _ _ _ _ children =>
      match children with
      | [] => nodes
      | _ =>
          if max_nodes params * 5 <=? Z.of_nat (length nodes) then nodes
          else
            (fix loop (cs : list AXNode) (i : nat) (nodes : list SemanticSnapshotNode) :=
               match cs with
               | [] => nodes
               | child :: rest =>
                   loop rest (S i)
                     (processNode params child (pathSegments ++ [segment child i])
                        nextScope nodes)
               end) children 0%nat nodes
      end
  end.

(** The loop over the children of a node, from index [i] on. *)
Fixpoint processChildren (params : SnapshotParams) (cs : list AXNode)
    (pathSegments : list string) (nextScope : bool) (i : nat)
    (nodes : list SemanticSnapshotNode) : list SemanticSnapshotNode :=
  match cs with
  | [] => nodes
  | child :: rest =>
      processChildren params rest pathSegments nextScope (S i)
        (processNode params child (pathSegments ++ [segment child i]) nextScope nodes)
  end.

(** [parseInt(s, 10)]: leading white space, an optional sign, then the
    longest run of decimal digits; [None] is [NaN]. *)
Definition isDigit (c : ascii) : bool := (48 <=? JS.code c) && (JS.code c <=? 57).

Fixpoint digitsPrefix (acc : option Z) (s : string) : option Z :=
  match s with
  | String c r =>
      if isDigit c then digitsPrefix (Some (10 * default 0 acc + (JS.code c - 48))) r
      else acc
  | EmptyString => acc
  end.

Definition parseInt (s : string) : option Z :=
  match JS.trimStart s with
  | String "-" r => Z.opp <$> digitsPrefix None r
  | String "+" r => digitsPrefix None r
  | t => digitsPrefix None t
  end.

(** [arr.slice(start, end)]: [NaN] counts as 0, a negative index counts
    from the end, and both are clamped to the array. *)
Definition relativeIndex (len : Z) (i : option Z) : Z :=
  let k := default 0 i in
  if k <? 0 then Z.max (len + k) 0 else Z.min k len.

Definition slice {A : Type} (l : list A) (start stop : option Z) : list A :=
  let len := Z.of_nat (length l) in
  let k := relativeIndex len start in
  let final := relativeIndex len stop in
  take (Z.to_nat (final - k)) (drop (Z.to_nat k) l).

Record SnapshotResult := {
  snapshot_id : string;
  nodes : list SemanticSnapshotNode;
  next_cursor : option string
}.

(** The window of [nodes] a call returns, and the cursor after it.
    Offsets are integers; the doubles of the handler are these integers
    as long as the offset read from the cursor is not below -2^53 (from
    0 on they agree throughout: a sum that a double cannot hold exceeds
    the length of every array). *)
Definition paginate (params : SnapshotParams) (nodes : list SemanticSnapshotNode)
    : list SemanticSnapshotNode * option string :=
  let startIndex : option Z :=
    match cursor params with
    | Some c => if JS.truthy c then parseInt c else Some 0
    | None => Some 0
    end in
  let endIndex : option Z :=
    (fun s => Z.min (s + max_nodes params) (Z.of_nat (length nodes))) <$> startIndex in
  let pageNodes := slice nodes startIndex endIndex in
  let nextCursor :=
    match endIndex with
    | Some e => if e <? Z.of_nat (length nodes) then Some (JS.numToString e) else None
    | None => None
    end in
  (pageNodes, nextCursor).

(** The handler.  [accessibilityTree] is what
    [page.accessibility.snapshot] resolved to and [token] the random
    part of the snapshot identifier.  The value is the object the
    handler prints as [Result:]; the three informational lines before
    it are left out. *)
Definition semSnapshot (accessibilityTree : option AXNode) (token : string)
    (params : SnapshotParams) : Result SnapshotResult :=
  rethrow "Failed to create semantic snapshot: "
    (let! tree := match accessibilityTree with
                  | Some t => Ok t
                  | None => Err "Failed to capture accessibility tree"
                  end in
     let snapshotId := "snap_" +:+ token in
     let nodes := processNode params tree [] false [] in
     let '(pageNodes, nextCursor) := paginate params nodes in
     Ok {| snapshot_id := snapshotId; nodes := pageNodes; next_cursor := nextCursor |}).

(** ** sem_query *)

Inductive RankBy : Type := semantic_score | proximity | visibility.

(** [attributes] holds the entries of the record in the order of
    [Object.entries].  The handler receives the record from the schema
    ([z.record]), which keeps one entry per key and drops a key spelled
    "__proto__": see [recordEntries]. *)
Record QueryParams := {
  q_role : option string;
  q_label : option string;
  q_text : option string;
  q_attributes : option (list (string * string));
  q_within_sid : option string;
  rank_by : RankBy;
  multiple : bool;
  q_max : Z;
  explain : bool
}.

(** [SemanticQueryMatch].  [confidence] is held as a rational:
    [Math.round(Math.min(score / 100, 1) * 100) / 100] is the double
    nearest to [min(score, 100) / 100], for the integer scores the
    query produces. *)
Record SemanticQueryMatch := {
  m_sid : string;
  m_role : string;
  m_label : string;
  confidence : Q;
  score : Z
}.

(** What [attributes[key]] evaluates to on the plain object built by
    [extractAttributes]: an own string, a member inherited from
    [Object.prototype] (the only ones with a lower-case name are
    [constructor] and [__proto__]), or [undefined]. *)
Inductive Property : Type :=
| Own (v : string)
| Inherited
| Absent.

Definition getAttribute (attributes : gmap string string) (key : string) : Property :=
  match attributes !! key with
  | Some v => Own v
  | None =>
      if String.eqb key "constructor" || String.eqb key "__proto__"
      then Inherited else Absent
  end.

(** [score] and [matchReasons]. *)
Definition Tally : Type := Z * list string.

Definition hit (t : Tally) (points : Z) (reason : string) : Tally :=
  (t.1 + points, t.2 ++ [reason]).

Fixpoint matchAttributes (attributes : gmap string string)
    (entries : list (string * string)) (t : Tally) : Result Tally :=
  match entries with
  | [] => Ok t
  | (attr, expectedValue) :: rest =>
      let lowerAttr := JS.toLowerCase attr in
      match getAttribute attributes lowerAttr with
      | Own actualValue =>
          if JS.truthy actualValue
             && String.eqb (JS.toLowerCase actualValue) (JS.toLowerCase expectedValue)
          then matchAttributes attributes rest (hit t 20 (attr +:+ "=" +:+ actualValue))
          else matchAttributes attributes rest t
      | Inherited => Err "actualValue.toLowerCase is not a function"
      | Absent => matchAttributes attributes rest t
      end
  end.

(** The scoring block of [searchNode], run for an included node. *)
Definition scoreNode (params : QueryParams) (node : AXNode) : Result Tally :=
  let role := getAXString (role node) in
  let label := getAXString (name node) in
  let description := getAXString (description node) in
  let value := getAXString (value node) in
  let attributes := extractAttributes node in
  let t : Tally := (0, []) in
  let t :=
    match q_role params with
    | Some r =>
        if JS.truthy r && JS.includes (JS.toLowerCase role) (JS.toLowerCase r)
        then hit t 50 ("role=" +:+ role) else t
    | None => t
    end in
  let t :=
    match q_label params with
    | Some l =>
        if JS.truthy l then
          let searchLabel := JS.toLowerCase l in
          if JS.includes (JS.toLowerCase label) searchLabel
          then hit t 40 ("label≈" +:+ label)
          else if JS.includes (JS.toLowerCase description) searchLabel
          then hit t 30 ("description≈" +:+ description)
          else t
        else t
    | None => t
    end in
  let t :=
    match q_text params with
    | Some x =>
        if JS.truthy x then
          let searchText := JS.toLowerCase x in
          let allText :=
            JS.toLowerCase (label +:+ " " +:+ description +:+ " " +:+ value) in
          if JS.includes allText searchText then hit t 35 ("text≈" +:+ x) else t
        else t
    | None => t
    end in
  match q_attributes params with
  | Some entries => matchAttributes attributes entries t
  | None => Ok t
  end.

(** The arrays [matches] and [explanations]. *)
Definition SearchState : Type := list SemanticQueryMatch * list string.

Definition makeMatch (node : AXNode) (pathSegments : list string) (score : Z)
    : SemanticQueryMatch :=
  {| m_sid := generateSID node frameId pathSegments;
     m_role := getAXString (role node);
     m_label := getAXString (name node);
     confidence := Z.min score 100 # 100;
     score := score |}.

(** [role || label || description]. *)
Definition isMeaningful (node : AXNode) : bool :=
  JS.truthy (getAXString (role node)) || JS.truthy (getAXString (name node))
  || JS.truthy (getAXString (description node)).

(** The two pushes that end the scoring block. *)
Definition record (params : QueryParams) (node : AXNode) (pathSegments : list string)
    (t : Tally) (st : SearchState) : SearchState :=
  if (0 <? t.1) && isMeaningful node then
    (st.1 ++ [makeMatch node pathSegments t.1],
     if explain params then st.2 ++ [JS.join "," t.2] else st.2)
  else st.

Fixpoint searchNode (params : QueryParams) (node : AXNode)
    (pathSegments : list string) (isWithinScope : bool)
    (st : SearchState) {struct node} : Result SearchState :=
  let targetSid := q_within_sid params in
  let sid := generateSID node frameId pathSegments in
  let includeNode := inScope targetSid sid isWithinScope in
  let nextScope := inScope targetSid sid isWithinScope in
  let! st :=
    (if includeNode
     then let! t := scoreNode params node in Ok (record params node pathSegments t st)
     else Ok st) in
  match node with
  | mkAXNode _ _ _ _ _ _ _ children =>
      (fix loop (cs : list AXNode) (i : nat) (st : SearchState) : Result SearchState :=
         match cs with
         | [] => Ok st
         | child :: rest =>
             let! st := searchNode params child (pathSegments ++ [segment child i])
                          nextScope st in
             loop rest (S i) st
         end) children 0%nat st
  end.

Fixpoint searchChildren (params : QueryParams) (cs : list AXNode)
    (pathSegments : list string) (nextScope : bool) (i : nat)
    (st : SearchState) : Result SearchState :=
  match cs with
  | [] => Ok st
  | child :: rest =>
      let! st := searchNode params child (pathSegments ++ [segment child i])
                   nextScope st in
      searchChildren params rest pathSegments nextScope (S i) st
  end.

(** [Array.prototype.sort] with a comparator: a stable sort.  The
    comparator gives the sign of the number the callback returns. *)
Fixpoint insertSorted {A : Type} (cmp : A -> A -> comparison) (a : A) (l : list A)
    : list A :=
  match l with
  | [] => [a]
  | b :: r =>
      match cmp a b with
      | Gt => b :: insertSorted cmp a r
      | _ => a :: l
      end
  end.

Definition sort {A : Type} (cmp : A -> A -> comparison) (l : list A) : list A :=
  foldr (insertSorted cmp) [] l.

Record QueryResult := {
  sids : list string;
  elements : list SemanticQueryMatch;
  explanations : option (list (option string))
}.

Section SemQuery.

(** [a.localeCompare(b)] depends on the collation of the host; its sign
    is left as a variable. *)
Variable localeCompare : string -> string -> comparison.

Definition rank (by_ : RankBy) (matches : list SemanticQueryMatch)
    : list SemanticQueryMatch :=
  match by_ with
  | semantic_score => sort (fun a b => Z.compare (score b) (score a)) matches
  | proximity => sort (fun a b => localeCompare (m_sid a) (m_sid b)) matches
  | visibility => sort (fun a b => Qcompare (confidence b) (confidence a)) matches
  end.

(** The object printed as [Result:] from the arrays left by the
    traversal. *)
Definition shape (params : QueryParams) (st : SearchState) : QueryResult :=
  let matches := rank (rank_by params) st.1 in
  let explanations := st.2 in
  let limitedMatches := slice matches (Some 0) (Some (q_max params)) in
  let sids := m_sid <$> limitedMatches in
  let all :=
    {| sids := sids;
       elements := limitedMatches;
       explanations :=
         if explain params
         then Some (Some <$> slice explanations (Some 0)
                               (Some (Z.of_nat (length limitedMatches))))
         else None |} in
  match negb (multiple params), limitedMatches with
  | true, bestMatch :: _ =>
      {| sids := [m_sid bestMatch];
         elements := [bestMatch];
         explanations := if explain params then Some [explanations !! 0%nat] else None |}
  | _, _ => all
  end.

Definition semQuery (accessibilityTree : option AXNode) (params : QueryParams)
    : Result QueryResult :=
  rethrow "Failed to query semantic elements: "
    (let! tree := match accessibilityTree with
                  | Some t => Ok t
                  | None => Err "Failed to capture accessibility tree for querying"
                  end in
     let! st := searchNode params tree [] false ([], []) in
     Ok (shape params st)).

End SemQuery.

(** ** Positions in a tree, and instrumented traversals

    A node of a tree is named by its position: the child indices on the
    way from the root.  The instrumented traversals run the same code
    as [processNode] and [searchNode] and remember in addition, for each
    call, the position and the path it was given ([Visit]) and, for each
    element pushed, the position of the node it was built from. *)

Fixpoint subtree (node : AXNode) (position : list nat) : option AXNode :=
  match position with
  | [] => Some node
  | i :: rest =>
      match children node !! i with
      | Some child => subtree child rest
      | None => None
      end
  end.

(** The path segments accumulated on the way to a position. *)
Fixpoint pathTo (node : AXNode) (position : list nat) : list string :=
  match position with
  | [] => []
  | i :: rest =>
      match children node !! i with
      | Some child => segment child i :: pathTo child rest
      | None => []
      end
  end.

(** The identifier derived for the node at a position. *)
Definition sidAt (root : AXNode) (position : list nat) : option string :=
  (fun node => generateSID node frameId (pathTo root position)) <$> subtree root position.

Record Visit := { v_position : list nat; v_path : list string }.

Definition Traced (A : Type) : Type := list Visit * list (list nat * A).

Fixpoint processNodeG (params : SnapshotParams) (node : AXNode) (position : list nat)
    (pathSegments : list string) (isWithinScope : bool)
    (g : Traced SemanticSnapshotNode) {struct node} : Traced SemanticSnapshotNode :=
  let targetSid := within_sid params in
  let sid := generateSID node frameId pathSegments in
  let includeNode := inScope targetSid sid isWithinScope in
  let nextScope := inScope targetSid sid isWithinScope in
  let visited := g.1 ++ [{| v_position := position; v_path := pathSegments |}] in
  let nodes :=
    if includeNode && hasContent node
    then g.2 ++ [(position, nodeData params node pathSegments)] else g.2 in
  match node with
  | mkAXNode _ _ _ _ _ _ _ children =>
      match children with
      | [] => (visited, nodes)
      | _ =>
          if max_nodes params * 5 <=? Z.of_nat (length nodes) then (visited, nodes)
          else
            (fix loop (cs : list AXNode) (i : nat) (g : Traced SemanticSnapshotNode) :=
               match cs with
               | [] => g
               | child :: rest =>
                   loop rest (S i)
                     (processNodeG params child (position ++ [i])
                        (pathSegments ++ [segment child i]) nextScope g)
               end) children 0%nat (visited, nodes)
      end
  end.

Fixpoint processChildrenG (params : SnapshotParams) (cs : list AXNode)
    (position : list nat) (pathSegments : list string) (nextScope : bool) (i : nat)
    (g : Traced SemanticSnapshotNode) : Traced SemanticSnapshotNode :=
  match cs with
  | [] => g
  | child :: rest =>
      processChildrenG params rest position pathSegments nextScope (S i)
        (processNodeG params child (position ++ [i])
           (pathSegments ++ [segment child i]) nextScope g)
  end.

(** For the query the visits are kept when the traversal stops on an
    exception; the arrays are lost with it. *)
Definition TracedSearch : Type :=
  list Visit * Result (list (list nat * SemanticQueryMatch) * list string).

Definition recordG (params : QueryParams) (node : AXNode) (position : list nat)
    (pathSegments : list string) (t : Tally)
    (st : list (list nat * SemanticQueryMatch) * list string)
    : list (list nat * SemanticQueryMatch) * list string :=
  if (0 <? t.1) && isMeaningful node then
    (st.1 ++ [(position, makeMatch node pathSegments t.1)],
     if explain params then st.2 ++ [JS.join "," t.2] else st.2)
  else st.

Fixpoint searchNodeG (params : QueryParams) (node : AXNode) (position : list nat)
    (pathSegments : list string) (isWithinScope : bool)
    (visited : list Visit) (st : list (list nat * SemanticQueryMatch) * list string)
    {struct node} : TracedSearch :=
  let targetSid := q_within_sid params in
  let sid := generateSID node frameId pathSegments in
  let includeNode := inScope targetSid sid isWithinScope in
  let nextScope := inScope targetSid sid isWithinScope in
  let visited := visited ++ [{| v_position := position; v_path := pathSegments |}] in
  match (if includeNode
         then let! t := scoreNode params node in
              Ok (recordG params node position pathSegments t st)
         else Ok st) with
  | Err m => (visited, Err m)
  | Ok st =>
      match node with
      | mkAXNode _ _ _ _ _ _ _ children =>
          (fix loop (cs : list AXNode) (i : nat) (visited : list Visit)
               (st : list (list nat * SemanticQueryMatch) * list string) : TracedSearch :=
             match cs with
             | [] => (visited, Ok st)
             | child :: rest =>
                 match searchNodeG params child (position ++ [i])
                         (pathSegments ++ [segment child i]) nextScope visited st with
                 | (visited, Ok st) => loop rest (S i) visited st
                 | (visited, Err m) => (visited, Err m)
                 end
             end) children 0%nat visited st
      end
  end.

Fixpoint searchChildrenG (params : QueryParams) (cs : list AXNode) (position : list nat)
    (pathSegments : list string) (nextScope : bool) (i : nat)
    (visited : list Visit) (st : list (list nat * SemanticQueryMatch) * list string)
    : TracedSearch :=
  match cs with
  | [] => (visited, Ok st)
  | child :: rest =>
      match searchNodeG params child (position ++ [i])
              (pathSegments ++ [segment child i]) nextScope visited st with
      | (visited, Ok st) =>
          searchChildrenG params rest position pathSegments nextScope (S i) visited st
      | (visited, Err m) => (visited, Err m)
      end
  end.

(** ** Parameter updates and the client's pagination loop *)

Definition withScope (s : Scope) (p : SnapshotParams) : SnapshotParams :=
  {| scope := s; within_sid := within_sid p; fields := fields p;
     max_nodes := max_nodes p; cursor := cursor p |}.

Definition withCursor (c : option string) (p : SnapshotParams) : SnapshotParams :=
  {| scope := scope p; within_sid := within_sid p; fields := fields p;
     max_nodes := max_nodes p; cursor := c |}.

Definition withinSid (s : option string) (p : SnapshotParams) : SnapshotParams :=
  {| scope := scope p; within_sid := s; fields := fields p;
     max_nodes := max_nodes p; cursor := cursor p |}.

Definition queryWithin (s : option string) (p : QueryParams) : QueryParams :=
  {| q_role := q_role p; q_label := q_label p; q_text := q_text p;
     q_attributes := q_attributes p; q_within_sid := s; rank_by := rank_by p;
     multiple := multiple p; q_max := q_max p; explain := explain p |}.

(** A client that starts without a cursor and calls again with each
    [next_cursor] it receives, until it receives [null]; the [k]-th call
    draws the snapshot token [tokens k].  The value is the pages put
    end to end; [None] when the calls allowed by [fuel] do not reach
    the last page or a call fails. *)
Fixpoint followCursors (fuel : nat) (tree : AXNode) (tokens : nat -> string)
    (params : SnapshotParams) (k : nat) (cursor : option string)
    : option (list SemanticSnapshotNode) :=
  match fuel with
  | O => None
  | S fuel' =>
      match semSnapshot (Some tree) (tokens k) (withCursor cursor params) with
      | Err _ => None
      | Ok r =>
          match next_cursor r with
          | None => Some (nodes r)
          | Some c =>
              (fun rest => nodes r ++ rest)
                <$> followCursors fuel' tree tokens params (S k) (Some c)
          end
      end
  end.

(** ** Reference inputs

    The defaults of the two schemas, and the trees the scenarios and
    the counterexamples below are run on. *)

Definition allFields : list string :=
  ["sid"; "role"; "label"; "textSnippet"; "bounds"; "frameId"].

Definition snapshotDefaults : SnapshotParams :=
  {| scope := document; within_sid := None; fields := allFields;
     max_nodes := 5000; cursor := None |}.

Definition queryDefaults : QueryParams :=
  {| q_role := None; q_label := None; q_text := None; q_attributes := None;
     q_within_sid := None; rank_by := semantic_score; multiple := false;
     q_max := 10; explain := false |}.

(** A node with a role and a name and nothing else. *)
Definition element (r n : string) (cs : list AXNode) : AXNode :=
  mkAXNode (VString r) (VString n) VUndefined VUndefined ∅ None None cs.

(** The tree of scenarios A and B. *)
Definition submitButton : AXNode := element "button" "Submit" [].

(** A button above a button. *)
Definition twoButtons : AXNode :=
  element "button" "Cancel" [element "button" "Submit" []].

(** A list of five items and a group that holds a button. *)
Definition listAndGroup : AXNode :=
  element "list" "Menu"
    [ element "item" "One" []; element "item" "Two" []; element "item" "Three" [];
      element "item" "Four" []; element "item" "Five" [];
      element "group" "More" [element "button" "Deep" []] ].

(** A button whose name has 51 characters. *)
Definition longName : string :=
  "123456789012345678901234567890123456789012345678901".

Definition longButton : AXNode := element "button" longName [].

(** A button for which the tree provider supplies a bounding box. *)
Definition placedButton : AXNode :=
  mkAXNode (VString "button") (VString "Submit") VUndefined VUndefined ∅ None
    (Some {| x := 10; y := 20; width := 30; height := 40 |}) [].

Definition onePerPage (w : option string) (c : option string) : SnapshotParams :=
  {| scope := document; within_sid := w; fields := allFields;
     max_nodes := 1; cursor := c |}.

Definition roleAndLabel (r l : option string) (ex mult : bool) : QueryParams :=
  {| q_role := r; q_label := l; q_text := None; q_attributes := None;
     q_within_sid := None; rank_by := semantic_score; multiple := mult;
     q_max := 10; explain := ex |}.

(** ** What a traversal may record

    [visitOf node position path v]: the visit [v] is the call for a
    node at or below [node], when [node] itself was called at
    [position] with [path].  [rootedAt S node path rel]: on the way from
    [node] to its descendant at [rel] there is a node whose derived
    identifier is [S]. *)

Definition visitOf (node : AXNode) (position : list nat) (path : list string)
    (v : Visit) : Prop :=
  exists rel, is_Some (subtree node rel)
    /\ v_position v = position ++ rel
    /\ v_path v = path ++ pathTo node rel.

Definition rootedAt (S : string) (node : AXNode) (path : list string)
    (rel : list nat) : Prop :=
  exists rel0 n0, rel0 `prefix_of` rel
    /\ subtree node rel0 = Some n0
    /\ generateSID n0 frameId (path ++ pathTo node rel0) = S.

(** An element pushed below [node]: it was built by [build] from the
    node at [rel], which lies in the scope when a scope is given. *)
Definition emittedFrom {A : Type} (build : AXNode -> list string -> A -> Prop)
    (targetSid : option string) (isWithinScope : bool)
    (node : AXNode) (position : list nat) (path : list string)
    (e : list nat * A) : Prop :=
  exists rel n, e.1 = position ++ rel
    /\ subtree node rel = Some n
    /\ build n (path ++ pathTo node rel) e.2
    /\ (forall S, targetSid = Some S -> JS.truthy S = true ->
          isWithinScope = true \/ rootedAt S node path rel).

(** [x] comes from one of the children [cs], which start at index [i]. *)
Definition fromChild {X : Type} (cs : list AXNode) (i : nat)
    (Q : AXNode -> nat -> X -> Prop) (x : X) : Prop :=
  exists j c, cs !! j = Some c /\ Q c (i + j)%nat x.

(** How the snapshot builds a node, and what a call of the instrumented
    [processNode] adds to the trace. *)
Definition builtNode (params : SnapshotParams) (n : AXNode) (path : list string)
    (d : SemanticSnapshotNode) : Prop :=
  d = nodeData params n path.

Definition processNodeG_ok (params : SnapshotParams) (node : AXNode) : Prop :=
  forall position path sc g,
  exists newV newN,
    processNodeG params node position path sc g = (g.1 ++ newV, g.2 ++ newN)
    /\ Forall (visitOf node position path) newV
    /\ NoDup (v_position <$> newV)
    /\ Forall (emittedFrom (builtNode params) (within_sid params) sc
                 node position path) newN.

(** How the query builds a match: from a node with a positive score. *)
Definition builtMatch (params : QueryParams) (n : AXNode) (path : list string)
    (m : SemanticQueryMatch) : Prop :=
  exists t, scoreNode params n = Ok t /\ 0 < t.1 /\ m = makeMatch n path t.1.

(** The matches a traversal added, when it did not stop on an
    exception. *)
Definition added (st : list (list nat * SemanticQueryMatch) * list string)
    (r : Result (list (list nat * SemanticQueryMatch) * list string))
    (Q : list nat * SemanticQueryMatch -> Prop) : Prop :=
  match r with
  | Ok st' => exists newM, st'.1 = st.1 ++ newM /\ Forall Q newM
  | Err _ => True
  end.

Definition searchNodeG_ok (params : QueryParams) (node : AXNode) : Prop :=
  forall position path sc visited st,
  exists newV,
    (searchNodeG params node position path sc visited st).1 = visited ++ newV
    /\ Forall (visitOf node position path) newV
    /\ NoDup (v_position <$> newV)
    /\ added st (searchNodeG params node position path sc visited st).2
         (emittedFrom (builtMatch params) (q_within_sid params) sc
            node position path).

(** Forgetting the positions gives back the state of [searchNode]. *)
Definition eraseState (st : list (list nat * SemanticQueryMatch) * list string)
    : SearchState := (st.1.*2, st.2).

Definition eraseResult (r : Result (list (list nat * SemanticQueryMatch) * list string))
    : Result SearchState :=
  match r with
  | Ok st => Ok (eraseState st)
  | Err m => Err m
  end.

(** ** Statements about scopes, cursors, snippets and bounds *)

(** Below [node], the traversal scoped to [S] materializes a
    subsequence of what the traversal without scope materializes, as
    long as the latter stays under the early stop. *)
Definition scopedWithin (p : SnapshotParams) (S : option string) (node : AXNode) : Prop :=
  forall path sc sc' a b,
    a `sublist_of` b ->
    Z.of_nat (length (processNode (withinSid None p) node path sc' b))
      < max_nodes p * 5 ->
    processNode (withinSid S p) node path sc a
      `sublist_of` processNode (withinSid None p) node path sc' b.

Definition within (a b : SearchState) : Prop :=
  a.1 `sublist_of` b.1 /\ a.2 `sublist_of` b.2.

Definition searchWithin (qp : QueryParams) (S : option string) (node : AXNode) : Prop :=
  forall path sc sc' a b b',
    within a b ->
    searchNode (queryWithin None qp) node path sc' b = Ok b' ->
    exists a', searchNode (queryWithin S qp) node path sc a = Ok a' /\ within a' b'.

(** The cursor of a call that starts at offset [k]: none for the first
    call, the numeral of [k] afterwards. *)
Definition cursorAt (k : Z) (c : option string) : Prop :=
  (c = None /\ k = 0) \/ c = Some (JS.numToString k).

(** The text a snippet is cut from: [name || description || value]. *)
Definition snippetSource (n : AXNode) : string :=
  JS.orElse (JS.orElse (getAXString (name n)) (getAXString (description n)))
    (getAXString (value n)).

(** The box [getElementBounds] returns. *)
Definition placeholderBounds : SemanticNodeBounds :=
  {| x := 0; y := 0; width := 100; height := 20 |}.

(** [c] occurs in [s]. *)
Fixpoint hasChar (c : ascii) (s : string) : bool :=
  match s with
  | EmptyString => false
  | String a r => Ascii.eqb a c || hasChar c r
  end.

(** ** Notions for the properties of the helpers *)

(** The label as [generateSID] hashes it:
    [name.toLowerCase().trim().replace(/\s+/g, ' ')]. *)
Definition normalizedLabel (name : string) : string :=
  JS.collapseSpaces (JS.trim (JS.toLowerCase name)).

(** The pattern the overlay tools ask of a [sid] target,
    [/^sid_[A-Za-z0-9_-]{16,}$/]. *)
Definition isSidChar (c : ascii) : bool :=
  ((65 <=? JS.code c) && (JS.code c <=? 90))
  || ((97 <=? JS.code c) && (JS.code c <=? 122))
  || ((48 <=? JS.code c) && (JS.code c <=? 57))
  || (JS.code c =? 95) || (JS.code c =? 45).

Fixpoint allChars (f : ascii -> bool) (s : string) : bool :=
  match s with
  | EmptyString => true
  | String c r => f c && allChars f r
  end.

Definition sidPattern (s : string) : bool :=
  match s with
  | String "s" (String "i" (String "d" (String "_" token))) =>
      (16 <=? String.length token)%nat && allChars isSidChar token
  | _ => false
  end.

(** A node with its name replaced. *)
Definition withName (s : string) (node : AXNode) : AXNode :=
  mkAXNode (role node) (VString s) (description node) (value node) (raw node)
    (properties node) (geometry node) (children node).

(** A string that does not start, or does not end, with white space. *)
Definition noLead (s : string) : bool :=
  match s with
  | String c _ => negb (JS.isSpace c)
  | EmptyString => true
  end.

Fixpoint noTrail (s : string) : bool :=
  match s with
  | EmptyString => true
  | String c EmptyString => negb (JS.isSpace c)
  | String _ r => noTrail r
  end.

(** White space occurs only as single spaces; [afterSpace] tells that
    the character before was one. *)
Fixpoint tidy (afterSpace : bool) (s : string) : bool :=
  match s with
  | EmptyString => true
  | String c r =>
      if JS.isSpace c
      then Ascii.eqb c " " && negb afterSpace && tidy true r
      else tidy false r
  end.

(** An optional string parameter with the empty string read as absent,
    and the parameters of the two tools with every such parameter so
    read. *)
Definition blank (o : option string) : option string :=
  if given o then o else None.

Definition snapshotBlanks (p : SnapshotParams) : SnapshotParams :=
  {| scope := scope p; within_sid := blank (within_sid p); fields := fields p;
     max_nodes := max_nodes p; cursor := blank (cursor p) |}.

Definition queryBlanks (p : QueryParams) : QueryParams :=
  {| q_role := blank (q_role p); q_label := blank (q_label p);
     q_text := blank (q_text p); q_attributes := q_attributes p;
     q_within_sid := blank (q_within_sid p); rank_by := rank_by p;
     multiple := multiple p; q_max := q_max p; explain := explain p |}.

(** What each predicate of a query adds to the score of a node and to
    its reasons, read off the four blocks of [searchNode]. *)
Definition rolePart (params : QueryParams) (node : AXNode) : Tally :=
  match q_role params with
  | Some r =>
      if JS.truthy r
         && JS.includes (JS.toLowerCase (getAXString (role node))) (JS.toLowerCase r)
      then (50, ["role=" +:+ getAXString (role node)]) else (0, [])
  | None => (0, [])
  end.

Definition labelPart (params : QueryParams) (node : AXNode) : Tally :=
  match q_label params with
  | Some l =>
      if JS.truthy l then
        if JS.includes (JS.toLowerCase (getAXString (name node))) (JS.toLowerCase l)
        then (40, ["label≈" +:+ getAXString (name node)])
        else if JS.includes (JS.toLowerCase (getAXString (description node)))
                  (JS.toLowerCase l)
        then (30, ["description≈" +:+ getAXString (description node)])
        else (0, [])
      else (0, [])
  | None => (0, [])
  end.

Definition textPart (params : QueryParams) (node : AXNode) : Tally :=
  match q_text params with
  | Some x =>
      if JS.truthy x
         && JS.includes
              (JS.toLowerCase (getAXString (name node) +:+ " "
                                 +:+ getAXString (description node) +:+ " "
                                 +:+ getAXString (value node)))
              (JS.toLowerCase x)
      then (35, ["text≈" +:+ x]) else (0, [])
  | None => (0, [])
  end.

Definition attributePart (params : QueryParams) (node : AXNode) : Result Tally :=
  matchAttributes (extractAttributes node) (default [] (q_attributes params)) (0, []).

(** [p'] asks what [p] asks and possibly more: a predicate of [p] is
    either not given or unchanged in [p']. *)
Definition addsPredicates (p p' : QueryParams) : Prop :=
  (given (q_role p) = false \/ q_role p' = q_role p)
  /\ (given (q_label p) = false \/ q_label p' = q_label p)
  /\ (given (q_text p) = false \/ q_text p' = q_text p)
  /\ (q_attributes p = None \/ q_attributes p' = q_attributes p).

(** The order the ranking by score and the ranking by confidence leave
    the matches in. *)
Definition byScore (a b : SemanticQueryMatch) : Prop := score b <= score a.
Definition byConfidence (a b : SemanticQueryMatch) : Prop :=
  (confidence b <= confidence a)%Q.

(** The names under which [attributes[key]] finds a member of
    [Object.prototype] when the object has no such key of its own. *)
Definition inheritedName (key : string) : bool :=
  String.eqb key "constructor" || String.eqb key "__proto__".

(** No attribute asked for has such a name once lower-cased. *)
Definition plainAttributes (params : QueryParams) : Prop :=
  forall attr expected,
    (attr, expected) ∈ default [] (q_attributes params) ->
    inheritedName (JS.toLowerCase attr) = false.

(** A query that asks for attributes only. *)
Definition attributesOnly (entries : list (string * string)) : QueryParams :=
  {| q_role := None; q_label := None; q_text := None; q_attributes := Some entries;
     q_within_sid := None; rank_by := semantic_score; multiple := false;
     q_max := 10; explain := false |}.

(** The two arrays of a query go together: with explain there is one
    explanation per match, without it there is none. *)
Definition paired (qp : QueryParams) (st : SearchState) : Prop :=
  if explain qp then length st.2 = length st.1 else st.2 = [].

(** The node at [rel] below [node] is one the traversal includes, when
    the call for [node] is made with [isWithinScope]: no within_sid is
    given, or the call is already inside the scope, or a node on the way
    to [rel] has the identifier asked for. *)
Definition reaches (targetSid : option string) (isWithinScope : bool)
    (node : AXNode) (path : list string) (rel : list nat) : Prop :=
  given targetSid = false \/ isWithinScope = true
  \/ exists S, targetSid = Some S /\ rootedAt S node path rel.

(** The same for a whole traversal, which starts outside the scope. *)
Definition inScopeAt (targetSid : option string) (tree : AXNode)
    (pos : list nat) : Prop :=
  given targetSid = false
  \/ exists pos0, pos0 `prefix_of` pos /\ sidAt tree pos0 = targetSid.

(** What makes the query push a match for a node. *)
Definition collectable (params : QueryParams) (n : AXNode) (t : Tally) : Prop :=
  scoreNode params n = Ok t /\ 0 < t.1 /\ isMeaningful n = true.

(** [d] is pushed by the call for [node] or by a call below it: it is
    built from a node with a role, a name or a snippet that the
    traversal includes. *)
Definition materializes (p : SnapshotParams) (sc : bool) (node : AXNode)
    (path : list string) (d : SemanticSnapshotNode) : Prop :=
  exists rel n, subtree node rel = Some n /\ hasContent n = true
    /\ reaches (within_sid p) sc node path rel
    /\ d = nodeData p n (path ++ pathTo node rel).

(** The same for the matches of a query. *)
Definition collects (qp : QueryParams) (sc : bool) (node : AXNode)
    (path : list string) (m : SemanticQueryMatch) : Prop :=
  exists rel n t, subtree node rel = Some n /\ collectable qp n t
    /\ reaches (q_within_sid qp) sc node path rel
    /\ m = makeMatch n (path ++ pathTo node rel) t.1.

(** [d] is the object built for a node of [tree] that has content and
    lies in the scope of [p]. *)
Definition listed (p : SnapshotParams) (tree : AXNode) (d : SemanticSnapshotNode)
    : Prop :=
  exists pos n, subtree tree pos = Some n /\ hasContent n = true
    /\ inScopeAt (within_sid p) tree pos
    /\ d = nodeData p n (pathTo tree pos).

(** A snapshot with no cursor. *)
Definition firstPage (max : Z) (flds : list string) : SnapshotParams :=
  {| scope := document; within_sid := None; fields := flds;
     max_nodes := max; cursor := None |}.

(** A match and the explanation pushed with it, for a node at or below
    [node]. *)
Definition explains (qp : QueryParams) (node : AXNode) (path : list string)
    (me : SemanticQueryMatch * string) : Prop :=
  exists rel n t, subtree node rel = Some n /\ scoreNode qp n = Ok t
    /\ me.1 = makeMatch n (path ++ pathTo node rel) t.1
    /\ me.2 = JS.join "," t.2.

(** Two queries that differ in letter case only: in the role, the
    label, the text, and the names and values of the attributes. *)
Definition foldEntry (e : string * string) : string * string :=
  (JS.toLowerCase e.1, JS.toLowerCase e.2).

Definition sameUpToCase (p p' : QueryParams) : Prop :=
  JS.toLowerCase <$> q_role p = JS.toLowerCase <$> q_role p'
  /\ JS.toLowerCase <$> q_label p = JS.toLowerCase <$> q_label p'
  /\ JS.toLowerCase <$> q_text p = JS.toLowerCase <$> q_text p'
  /\ fmap (M:=list) foldEntry <$> q_attributes p
     = fmap (M:=list) foldEntry <$> q_attributes p'
  /\ q_within_sid p = q_within_sid p'
  /\ rank_by p = rank_by p' /\ multiple p = multiple p' /\ q_max p = q_max p'.

(** A key under which [extractAttributes] may store a value. *)
Definition attributeKey (k : string) : Prop :=
  JS.toLowerCase k = k /\ k <> "" /\ k <> "__proto__".

(** [startIndex] of the snapshot handler; [None] is [NaN]. *)
Definition startIndex (params : SnapshotParams) : option Z :=
  match cursor params with
  | Some c => if JS.truthy c then parseInt c else Some 0
  | None => Some 0
  end.

(** The entries the query handler can receive for [attributes]: the
    record the schema builds has one entry per key and no key spelled
    "__proto__". *)
Definition recordEntries (entries : list (string * string)) : Prop :=
  NoDup entries.*1 /\ Forall (fun e => e.1 <> "__proto__") entries.

(** Text in which every character takes one byte. *)
Definition isAscii (c : ascii) : bool := JS.code c <? 128.

(** Names that are not ASCII: thirty times e with acute accent (two
    bytes and one code unit each), and 49 letters followed by an emoji
    (four bytes, two code units) and one more letter. *)
Definition accents : string := "éééééééééééééééééééééééééééééé".

Definition lettersAndEmoji : string :=
  "abcdefghijklmnopqrstuvwxyzabcdefghijklmnopqrstuvw😀x".

(** * Properties *)

(** ** The embedding on known values *)

Example sha256_constants :
  head Sha256.K = Some 0x428a2f98 /\ last Sha256.K = Some 0xc67178f2
  /\ length Sha256.K = 64%nat
  /\ head Sha256.H0 = Some 0x6a09e667 /\ last Sha256.H0 = Some 0x5be0cd19.
Proof. repeat split. Qed.

Example sha256_abc :
  Sha256.hex (Sha256.digest (Sha256.bytesOf "abc"))
  = "ba7816bf8f01cfea414140de5dae2223b00361a396177a9cb410ff61f20015ad".
Proof. vm_compute. reflexivity. Qed.

Example sha256_two_blocks :
  Sha256.hex (Sha256.digest (Sha256.bytesOf
    "abcdbcdecdefdefgefghfghighijhijkijkljklmklmnlmnomnopnopq"))
  = "248d6a61d20638b8e5c026930c3e6039a33ce45964ff2167f6ecedd419db06c1".
Proof. vm_compute. reflexivity. Qed.

Example base64url_abc :
  Sha256.sha256_base64url "abc" = "ungWv48Bz-pBQUDeXa4iI7ADYaOWF3qctBD_YfIAFa0".
Proof. vm_compute. reflexivity. Qed.

Example normalized_label :
  JS.collapseSpaces (JS.trim (JS.toLowerCase "  Save   As
 File ")) = "save as file".
Proof. reflexivity. Qed.

Example join_root : Path.join ["/"] = "/".
Proof. reflexivity. Qed.

Example join_segments : Path.join ["/"; "list[0]"; "item[2]"] = "/list[0]/item[2]".
Proof. reflexivity. Qed.

Example join_dot_dot : Path.join ["/"; "z[0]"; "../a[1]"] = "/a[1]".
Proof. reflexivity. Qed.

Example sid_of_submitButton :
  generateSID submitButton "main" [] = "sid_B9KNW2qn5oRbqFuZ9IQLv5wR".
Proof. vm_compute. reflexivity. Qed.

Example parseInt_values :
  parseInt "12" = Some 12 /\ parseInt " 12abc" = Some 12 /\ parseInt "-5" = Some (-5)
  /\ parseInt "abc" = None /\ parseInt "" = None /\ parseInt "+7" = Some 7.
Proof. repeat split. Qed.

(** Scenario C of the specification: three nodes read one per page. *)
Example three_pages :
  let tree := element "list" "L" [element "item" "A" []; element "item" "B" []] in
  let labels c := (fun r => (sn_label <$> nodes r, next_cursor r))
                    <$> (match semSnapshot (Some tree) "t" (onePerPage None c) with
                         | Ok r => Some r
                         | Err _ => None
                         end) in
  labels None = Some ([Some "L"], Some "1")
  /\ labels (Some "1") = Some ([Some "A"], Some "2")
  /\ labels (Some "2") = Some ([Some "B"], None).
Proof. cbn zeta. repeat split; vm_compute; reflexivity. Qed.

(** Scenario D of the specification: a role that no node has. *)
Example no_match_is_not_an_error (localeCompare : string -> string -> comparison) :
  semQuery localeCompare (Some twoButtons)
    (roleAndLabel (Some "nonexistent-role-xyz") None false false)
  = Ok {| sids := []; elements := []; explanations := None |}.
Proof. vm_compute. reflexivity. Qed.

(** An attribute name that resolves to a member of [Object.prototype]
    makes the scoring block raise. *)
Example inherited_attribute_raises (localeCompare : string -> string -> comparison) :
  semQuery localeCompare (Some submitButton)
    {| q_role := None; q_label := None; q_text := None;
       q_attributes := Some [("Constructor", "x")]; q_within_sid := None;
       rank_by := semantic_score; multiple := false; q_max := 10; explain := false |}
  = Err "Failed to query semantic elements: actualValue.toLowerCase is not a function".
Proof. vm_compute. reflexivity. Qed.

(** An attribute of the node, matched whatever the case of its value. *)
Example attribute_match (localeCompare : string -> string -> comparison) :
  let node :=
    mkAXNode (VString "textbox") (VString "Email") VUndefined VUndefined
      {[ "required" := VBoolean true ]} None None [] in
  exists r m,
    semQuery localeCompare (Some node)
      {| q_role := None; q_label := None; q_text := None;
         q_attributes := Some [("Required", "TRUE")]; q_within_sid := None;
         rank_by := semantic_score; multiple := false; q_max := 10; explain := true |}
    = Ok r
    /\ elements r = [m] /\ score m = 20
    /\ explanations r = Some [Some "Required=true"].
Proof. cbn zeta. eexists _, _. split; [vm_compute; reflexivity|]. repeat split. Qed.

(** ** Induction on trees and unfolding of the traversals *)

Section AXNodeInduction.

Variable P : AXNode -> Prop.
Hypothesis step : forall r n d v rw ps g cs,
  Forall P cs -> P (mkAXNode r n d v rw ps g cs).

Fixpoint AXNode_tree_ind (t : AXNode) : P t :=
  match t with
  | mkAXNode r n d v rw ps g cs =>
      step r n d v rw ps g cs
        ((fix all (l : list AXNode) : Forall P l :=
            match l with
            | [] => Forall_nil_2 P
            | c :: l' => Forall_cons_2 P c l' (AXNode_tree_ind c) (all l')
            end) cs)
  end.

End AXNodeInduction.

Lemma processNode_loop params pathSegments nextScope cs i nodes :
  (fix loop (cs : list AXNode) (i : nat) (nodes : list SemanticSnapshotNode) :=
     match cs with
     | [] => nodes
     | child :: rest =>
         loop rest (S i)
           (processNode params child (pathSegments ++ [segment child i]) nextScope nodes)
     end) cs i nodes
  = processChildren params cs pathSegments nextScope i nodes.
Proof. revert i nodes. induction cs as [|c cs IH]; intros; [reflexivity | apply IH]. Qed.

Lemma processNode_eq params node pathSegments isWithinScope nodes :
  processNode params node pathSegments isWithinScope nodes =
  let sid := generateSID node frameId pathSegments in
  let nextScope := inScope (within_sid params) sid isWithinScope in
  let nodes' :=
    if nextScope && hasContent node
    then nodes ++ [nodeData params node pathSegments] else nodes in
  match children node with
  | [] => nodes'
  | _ =>
      if max_nodes params * 5 <=? Z.of_nat (length nodes') then nodes'
      else processChildren params (children node) pathSegments nextScope 0 nodes'
  end.
Proof.
  destruct node as [r n d v rw ps g cs]. destruct cs as [|c cs]; [reflexivity|].
  cbn zeta. cbn [children processNode].
  rewrite processNode_loop. reflexivity.
Qed.

Lemma processNodeG_loop params position pathSegments nextScope cs i g :
  (fix loop (cs : list AXNode) (i : nat) (g : Traced SemanticSnapshotNode) :=
     match cs with
     | [] => g
     | child :: rest =>
         loop rest (S i)
           (processNodeG params child (position ++ [i])
              (pathSegments ++ [segment child i]) nextScope g)
     end) cs i g
  = processChildrenG params cs position pathSegments nextScope i g.
Proof. revert i g. induction cs as [|c cs IH]; intros; [reflexivity | apply IH]. Qed.

Lemma processNodeG_eq params node position pathSegments isWithinScope g :
  processNodeG params node position pathSegments isWithinScope g =
  let sid := generateSID node frameId pathSegments in
  let nextScope := inScope (within_sid params) sid isWithinScope in
  let visited := g.1 ++ [{| v_position := position; v_path := pathSegments |}] in
  let nodes' :=
    if nextScope && hasContent node
    then g.2 ++ [(position, nodeData params node pathSegments)] else g.2 in
  match children node with
  | [] => (visited, nodes')
  | _ =>
      if max_nodes params * 5 <=? Z.of_nat (length nodes') then (visited, nodes')
      else processChildrenG params (children node) position pathSegments nextScope 0
             (visited, nodes')
  end.
Proof.
  destruct node as [r n d v rw ps g' cs]. destruct cs as [|c cs]; [reflexivity|].
  cbn zeta. cbn [children processNodeG].
  rewrite processNodeG_loop. reflexivity.
Qed.

Lemma searchNode_loop params pathSegments nextScope cs i st :
  (fix loop (cs : list AXNode) (i : nat) (st : SearchState) : Result SearchState :=
     match cs with
     | [] => Ok st
     | child :: rest =>
         let! st := searchNode params child (pathSegments ++ [segment child i])
                      nextScope st in
         loop rest (S i) st
     end) cs i st
  = searchChildren params cs pathSegments nextScope i st.
Proof.
  revert i st. induction cs as [|c cs IH]; intros; [reflexivity|].
  cbn [searchChildren].
  destruct (searchNode params c (pathSegments ++ [segment c i]) nextScope st);
    [apply IH | reflexivity].
Qed.

Lemma searchNode_eq params node pathSegments isWithinScope st :
  searchNode params node pathSegments isWithinScope st =
  let sid := generateSID node frameId pathSegments in
  let nextScope := inScope (q_within_sid params) sid isWithinScope in
  let! st' :=
    (if nextScope
     then let! t := scoreNode params node in Ok (record params node pathSegments t st)
     else Ok st) in
  searchChildren params (children node) pathSegments nextScope 0 st'.
Proof.
  destruct node as [r n d v rw ps g cs].
  cbn zeta. cbn [children searchNode].
  match goal with |- bind ?r _ = _ => destruct r as [st'|m] end; [|reflexivity].
  cbn [bind]. apply searchNode_loop.
Qed.

Lemma searchNodeG_loop params position pathSegments nextScope cs i visited st :
  (fix loop (cs : list AXNode) (i : nat) (visited : list Visit)
       (st : list (list nat * SemanticQueryMatch) * list string) : TracedSearch :=
     match cs with
     | [] => (visited, Ok st)
     | child :: rest =>
         match searchNodeG params child (position ++ [i])
                 (pathSegments ++ [segment child i]) nextScope visited st with
         | (visited, Ok st) => loop rest (S i) visited st
         | (visited, Err m) => (visited, Err m)
         end
     end) cs i visited st
  = searchChildrenG params cs position pathSegments nextScope i visited st.
Proof.
  revert i visited st. induction cs as [|c cs IH]; intros; [reflexivity|].
  cbn [searchChildrenG].
  destruct (searchNodeG params c (position ++ [i]) (pathSegments ++ [segment c i])
              nextScope visited st) as [vis [st'|m]]; [apply IH | reflexivity].
Qed.

Lemma searchNodeG_eq params node position pathSegments isWithinScope visited st :
  searchNodeG params node position pathSegments isWithinScope visited st =
  let sid := generateSID node frameId pathSegments in
  let nextScope := inScope (q_within_sid params) sid isWithinScope in
  let visited' := visited ++ [{| v_position := position; v_path := pathSegments |}] in
  match (if nextScope
         then let! t := scoreNode params node in
              Ok (recordG params node position pathSegments t st)
         else Ok st) with
  | Err m => (visited', Err m)
  | Ok st' =>
      searchChildrenG params (children node) position pathSegments nextScope 0
        visited' st'
  end.
Proof.
  destruct node as [r n d v rw ps g cs].
  cbn zeta. cbn [children searchNodeG].
  match goal with |- match ?r with _ => _ end = _ => destruct r as [st'|m] end;
    [|reflexivity].
  apply searchNodeG_loop.
Qed.

Arguments processNode : simpl never.
Arguments processNodeG : simpl never.
Arguments searchNode : simpl never.
Arguments searchNodeG : simpl never.
Arguments generateSID : simpl never.

(** ** Positions and paths *)

Lemma subtree_cons node i rel child :
  children node !! i = Some child ->
  subtree node (i :: rel) = subtree child rel.
Proof. intros H. cbn. rewrite H. reflexivity. Qed.

Lemma pathTo_cons node i rel child :
  children node !! i = Some child ->
  pathTo node (i :: rel) = segment child i :: pathTo child rel.
Proof. intros H. cbn. rewrite H. reflexivity. Qed.

Lemma visitOf_self node position path :
  visitOf node position path {| v_position := position; v_path := path |}.
Proof.
  exists []. cbn. rewrite !app_nil_r. split; [by eexists | done].
Qed.

Lemma visitOf_child node position path i child v :
  children node !! i = Some child ->
  visitOf child (position ++ [i]) (path ++ [segment child i]) v ->
  visitOf node position path v.
Proof.
  intros Hc (rel & Hsub & Hpos & Hpath). exists (i :: rel).
  rewrite (subtree_cons _ _ _ _ Hc), (pathTo_cons _ _ _ _ Hc).
  rewrite Hpos, Hpath, <- !app_assoc. done.
Qed.

Lemma rootedAt_self S node path rel :
  generateSID node frameId path = S -> rootedAt S node path rel.
Proof.
  intros H. exists [], node. cbn. rewrite app_nil_r.
  split; [apply prefix_nil | done].
Qed.

Lemma rootedAt_child S node path i child rel :
  children node !! i = Some child ->
  rootedAt S child (path ++ [segment child i]) rel ->
  rootedAt S node path (i :: rel).
Proof.
  intros Hc (rel0 & n0 & Hpre & Hsub & Hsid). exists (i :: rel0), n0.
  rewrite (subtree_cons _ _ _ _ Hc), (pathTo_cons _ _ _ _ Hc).
  split; [by apply prefix_cons|]. split; [done|].
  rewrite <- Hsid, <- app_assoc. done.
Qed.

Lemma inScope_true targetSid sid isWithinScope S :
  targetSid = Some S -> JS.truthy S = true ->
  inScope targetSid sid isWithinScope = true ->
  isWithinScope = true \/ sid = S.
Proof.
  intros -> HS. unfold inScope. cbn. rewrite HS.
  intros [H|H]%orb_true_iff; [by left | right].
  by apply String.eqb_eq.
Qed.

(** ** What the instrumented snapshot traversal records *)

Ltac child_here :=
  let H := fresh in
  intros ? H; eexists 0%nat, _; rewrite Nat.add_0_r; split; [reflexivity | exact H].

Ltac child_later :=
  let j := fresh "j" in
  intros ? (j & ? & ? & ?); eexists (S j), _; rewrite Nat.add_succ_r;
  split; eassumption.

Section SnapshotTrace.

Variable params : SnapshotParams.

Lemma processChildrenG_ok cs : Forall (processNodeG_ok params) cs ->
  forall position path sc i g,
  exists newV newN,
    processChildrenG params cs position path sc i g = (g.1 ++ newV, g.2 ++ newN)
    /\ Forall (fromChild cs i (fun c k =>
                 visitOf c (position ++ [k]) (path ++ [segment c k]))) newV
    /\ NoDup (v_position <$> newV)
    /\ Forall (fromChild cs i (fun c k =>
                 emittedFrom (builtNode params) (within_sid params) sc c
                   (position ++ [k]) (path ++ [segment c k]))) newN.
Proof.
  induction 1 as [|c cs Hc _ IH]; intros position path sc i g.
  - exists [], []. cbn. rewrite !app_nil_r. destruct g.
    repeat split; constructor.
  - cbn [processChildrenG].
    destruct (Hc (position ++ [i]) (path ++ [segment c i]) sc g)
      as (v1 & n1 & -> & Hv1 & Hd1 & Hn1).
    destruct (IH position path sc (S i) (g.1 ++ v1, g.2 ++ n1))
      as (v2 & n2 & -> & Hv2 & Hd2 & Hn2).
    exists (v1 ++ v2), (n1 ++ n2). cbn [fst snd]. rewrite <- !app_assoc.
    split; [done|]. split; [|split].
    + apply Forall_app. split.
      * eapply Forall_impl; [exact Hv1|]. child_here.
      * eapply Forall_impl; [exact Hv2|]. child_later.
    + rewrite fmap_app. apply NoDup_app. split; [done|]. split; [|done].
      intros p [a [-> Ha]]%list_elem_of_fmap [b [Hb Hbin]]%list_elem_of_fmap.
      rewrite Forall_forall in Hv1, Hv2.
      destruct (Hv1 _ Ha) as (r1 & _ & E1 & _).
      destruct (Hv2 _ Hbin) as (j & c' & _ & r2 & _ & E2 & _).
      rewrite E1, E2, <- !app_assoc in Hb.
      apply app_inv_head in Hb. cbn in Hb. injection Hb as Hb _. lia.
    + apply Forall_app. split.
      * eapply Forall_impl; [exact Hn1|]. child_here.
      * eapply Forall_impl; [exact Hn2|]. child_later.
Qed.

Lemma emittedFrom_child {A} (build : AXNode -> list string -> A -> Prop)
    targetSid sc node position path i child e :
  children node !! i = Some child ->
  emittedFrom build targetSid (inScope targetSid (generateSID node frameId path) sc)
    child (position ++ [i]) (path ++ [segment child i]) e ->
  emittedFrom build targetSid sc node position path e.
Proof.
  intros Hc (rel & n & Hpos & Hsub & Hb & Hscope). exists (i :: rel), n.
  rewrite (subtree_cons _ _ _ _ Hc), (pathTo_cons _ _ _ _ Hc).
  rewrite Hpos, <- !app_assoc. rewrite <- app_assoc in Hb.
  split; [done|]. split; [done|]. split; [done|].
  intros S HS Ht. destruct (Hscope S HS Ht) as [Hin|Hroot].
  - destruct (inScope_true _ _ _ _ HS Ht Hin) as [?|Hsid]; [by left|right].
    by apply rootedAt_self.
  - right. by eapply rootedAt_child.
Qed.

Lemma processNodeG_spec node : processNodeG_ok params node.
Proof.
  induction node as [r n d v rw ps gm cs IH] using AXNode_tree_ind.
  intros position path sc g. rewrite processNodeG_eq. cbn zeta.
  set (node := mkAXNode r n d v rw ps gm cs) in *.
  set (next := inScope (within_sid params) (generateSID node frameId path) sc).
  set (self := {| v_position := position; v_path := path |}).
  assert (Hself : exists own,
    (if next && hasContent node
     then g.2 ++ [(position, nodeData params node path)] else g.2) = g.2 ++ own
    /\ Forall (emittedFrom (builtNode params) (within_sid params) sc node position path) own).
  { destruct (next && hasContent node) eqn:E.
    - eexists; split; [done|]. constructor; [|constructor].
      exists [], node. cbn. rewrite !app_nil_r. repeat split.
      intros S HS Ht. apply andb_true_iff in E as [E _].
      destruct (inScope_true _ _ _ _ HS Ht E) as [?|?]; [by left|right].
      by apply rootedAt_self.
    - exists []. rewrite app_nil_r. split; [done | constructor]. }
  destruct Hself as (own & -> & Hown).
  assert (Hleaf : exists newV newN,
    (g.1 ++ [self], g.2 ++ own) = (g.1 ++ newV, g.2 ++ newN)
    /\ Forall (visitOf node position path) newV
    /\ NoDup (v_position <$> newV)
    /\ Forall (emittedFrom (builtNode params) (within_sid params) sc node position path) newN).
  { exists [self], own. split; [done|]. split; [|split; [|done]].
    - constructor; [apply visitOf_self | constructor].
    - cbn. apply NoDup_singleton. }
  destruct (children node) as [|c0 cs0] eqn:Ecs; [exact Hleaf|].
  destruct (max_nodes params * 5 <=? Z.of_nat (length (g.2 ++ own))); [exact Hleaf|].
  clear Hleaf. rewrite <- Ecs.
  destruct (processChildrenG_ok (children node) IH position path next 0%nat
              (g.1 ++ [self], g.2 ++ own)) as (v2 & n2 & -> & Hv2 & Hd2 & Hn2).
  exists (self :: v2), (own ++ n2). cbn [fst snd]. rewrite <- !app_assoc.
  split; [done|]. split; [|split].
  - constructor; [apply visitOf_self|].
    eapply Forall_impl; [exact Hv2|]. intros w (j & c & Hj & Hw).
    by eapply visitOf_child.
  - cbn. apply NoDup_cons. split; [|done].
    intros [b [Hb Hbin]]%list_elem_of_fmap.
    rewrite Forall_forall in Hv2.
    destruct (Hv2 _ Hbin) as (j & c & _ & rel & _ & E & _).
    rewrite E, <- app_assoc in Hb. cbn in Hb.
    apply (f_equal length) in Hb. rewrite length_app in Hb. cbn in Hb. lia.
  - apply Forall_app. split; [done|].
    eapply Forall_impl; [exact Hn2|]. intros e (j & c & Hj & He).
    by eapply emittedFrom_child.
Qed.

Lemma processChildrenG_erase cs :
  Forall (fun node => forall position path sc g,
            (processNodeG params node position path sc g).2.*2
            = processNode params node path sc (g.2.*2)) cs ->
  forall position path sc i g,
    (processChildrenG params cs position path sc i g).2.*2
    = processChildren params cs path sc i (g.2.*2).
Proof.
  induction 1 as [|c cs Hc _ IH]; intros; [done|].
  cbn [processChildrenG processChildren]. rewrite IH, Hc. done.
Qed.

Lemma processNodeG_erase node position path sc g :
  (processNodeG params node position path sc g).2.*2
  = processNode params node path sc (g.2.*2).
Proof.
  revert position path sc g.
  induction node as [r n d v rw ps gm cs IH] using AXNode_tree_ind.
  intros. rewrite processNodeG_eq, processNode_eq. cbn zeta.
  set (node := mkAXNode r n d v rw ps gm cs) in *.
  set (next := inScope _ _ _).
  assert (E : (if next && hasContent node
               then g.2 ++ [(position, nodeData params node path)] else g.2).*2
              = (if next && hasContent node
                 then g.2.*2 ++ [nodeData params node path] else g.2.*2)).
  { destruct (next && hasContent node); [|done]. by rewrite fmap_app. }
  rewrite <- E. destruct (children node) as [|c0 cs0] eqn:Ecs; [done|].
  rewrite length_fmap.
  destruct (_ <=? _); [done|]. rewrite <- Ecs.
  by rewrite (processChildrenG_erase _ IH).
Qed.

End SnapshotTrace.

(** ** What the instrumented query traversal records *)

Section QueryTrace.

Variable params : QueryParams.

Lemma searchChildrenG_ok cs : Forall (searchNodeG_ok params) cs ->
  forall position path sc i visited st,
  exists newV,
    (searchChildrenG params cs position path sc i visited st).1 = visited ++ newV
    /\ Forall (fromChild cs i (fun c k =>
                 visitOf c (position ++ [k]) (path ++ [segment c k]))) newV
    /\ NoDup (v_position <$> newV)
    /\ added st (searchChildrenG params cs position path sc i visited st).2
         (fromChild cs i (fun c k =>
            emittedFrom (builtMatch params) (q_within_sid params) sc c
              (position ++ [k]) (path ++ [segment c k]))).
Proof.
  induction 1 as [|c cs Hc _ IH]; intros position path sc i visited st.
  - exists []. cbn. rewrite app_nil_r. repeat split; try constructor.
    exists []. rewrite app_nil_r. split; [done | constructor].
  - cbn [searchChildrenG].
    destruct (Hc (position ++ [i]) (path ++ [segment c i]) sc visited st)
      as (v1 & E1 & Hv1 & Hd1 & Hm1).
    destruct (searchNodeG params c (position ++ [i]) (path ++ [segment c i]) sc
                visited st) as [vis [st1|m]]; cbn [fst snd] in *; subst vis.
    + destruct (IH position path sc (S i) (visited ++ v1) st1)
        as (v2 & E2 & Hv2 & Hd2 & Hm2).
      exists (v1 ++ v2). rewrite E2, <- app_assoc. split; [done|]. split; [|split].
      * apply Forall_app. split.
        -- eapply Forall_impl; [exact Hv1|]. child_here.
        -- eapply Forall_impl; [exact Hv2|]. child_later.
      * rewrite fmap_app. apply NoDup_app. split; [done|]. split; [|done].
        intros p [a [-> Ha]]%list_elem_of_fmap [b [Hb Hbin]]%list_elem_of_fmap.
        rewrite Forall_forall in Hv1, Hv2.
        destruct (Hv1 _ Ha) as (r1 & _ & P1 & _).
        destruct (Hv2 _ Hbin) as (j & c' & _ & r2 & _ & P2 & _).
        rewrite P1, P2, <- !app_assoc in Hb.
        apply app_inv_head in Hb. cbn in Hb. injection Hb as Hb _. lia.
      * destruct Hm1 as (m1 & Em1 & Hm1).
        destruct (searchChildrenG params cs position path sc (S i) (visited ++ v1) st1).2
          as [st2|]; [|exact I].
        destruct Hm2 as (m2 & Em2 & Hm2).
        exists (m1 ++ m2). rewrite Em2, Em1, <- app_assoc. split; [done|].
        apply Forall_app. split.
        -- eapply Forall_impl; [exact Hm1|]. child_here.
        -- eapply Forall_impl; [exact Hm2|]. child_later.
    + exists v1. split; [done|]. split; [|split; [done | exact I]].
      eapply Forall_impl; [exact Hv1|]. child_here.
Qed.

Lemma searchNodeG_spec node : searchNodeG_ok params node.
Proof.
  induction node as [r n d v rw ps gm cs IH] using AXNode_tree_ind.
  intros position path sc visited st. rewrite searchNodeG_eq. cbn zeta.
  set (node := mkAXNode r n d v rw ps gm cs) in *.
  set (next := inScope (q_within_sid params) (generateSID node frameId path) sc).
  set (self := {| v_position := position; v_path := path |}).
  assert (Hself : added st
    (if next
     then let! t := scoreNode params node in
          Ok (recordG params node position path t st)
     else Ok st)
    (emittedFrom (builtMatch params) (q_within_sid params) sc node position path)).
  { destruct next eqn:E.
    - destruct (scoreNode params node) as [t|m] eqn:Et; [|exact I].
      cbn [bind added]. unfold recordG.
      destruct ((0 <? t.1) && isMeaningful node) eqn:Ec.
      + eexists; split; [done|]. constructor; [|constructor].
        exists [], node. cbn [fst snd subtree pathTo]. rewrite !app_nil_r.
        apply andb_true_iff in Ec as [Ec _]. apply Z.ltb_lt in Ec.
        split; [done|]. split; [done|]. split; [by exists t|].
        intros S HS Ht.
        destruct (inScope_true _ _ _ _ HS Ht E) as [?|?]; [by left|right].
        by apply rootedAt_self.
      + exists []. rewrite app_nil_r. split; [done | constructor].
    - exists []. rewrite app_nil_r. split; [done | constructor]. }
  destruct (if next then _ else _) as [st1|m].
  2:{ exists [self]. cbn. split; [done|]. split; [|split; [apply NoDup_singleton|done]].
      constructor; [apply visitOf_self | constructor]. }
  destruct Hself as (own & Eown & Hown).
  destruct (searchChildrenG_ok (children node) IH position path next 0%nat
              (visited ++ [self]) st1) as (v2 & E2 & Hv2 & Hd2 & Hm2).
  exists (self :: v2). rewrite E2, <- app_assoc. split; [done|]. split; [|split].
  - constructor; [apply visitOf_self|].
    eapply Forall_impl; [exact Hv2|]. intros w (j & c & Hj & Hw).
    by eapply visitOf_child.
  - cbn. apply NoDup_cons. split; [|done].
    intros [b [Hb Hbin]]%list_elem_of_fmap.
    rewrite Forall_forall in Hv2.
    destruct (Hv2 _ Hbin) as (j & c & _ & rel & _ & E & _).
    rewrite E, <- app_assoc in Hb. cbn in Hb.
    apply (f_equal length) in Hb. rewrite length_app in Hb. cbn in Hb. lia.
  - destruct (searchChildrenG params (children node) position path next 0
                (visited ++ [self]) st1).2 as [st2|]; [|exact I].
    destruct Hm2 as (m2 & Em2 & Hm2).
    exists (own ++ m2). rewrite Em2, Eown, <- app_assoc. split; [done|].
    apply Forall_app. split; [done|].
    eapply Forall_impl; [exact Hm2|]. intros e (j & c & Hj & He).
    by eapply emittedFrom_child.
Qed.

Lemma recordG_erase node position path t st :
  eraseState (recordG params node position path t st)
  = record params node path t (eraseState st).
Proof.
  unfold recordG, record, eraseState. cbn [fst snd].
  destruct (_ && _); [|done]. cbn [fst snd]. by rewrite fmap_app.
Qed.

Lemma searchChildrenG_erase cs :
  Forall (fun node => forall position path sc visited st,
            eraseResult (searchNodeG params node position path sc visited st).2
            = searchNode params node path sc (eraseState st)) cs ->
  forall position path sc i visited st,
    eraseResult (searchChildrenG params cs position path sc i visited st).2
    = searchChildren params cs path sc i (eraseState st).
Proof.
  induction 1 as [|c cs Hc _ IH]; intros; [done|].
  cbn [searchChildrenG searchChildren].
  rewrite <- (Hc (position ++ [i]) _ _ visited).
  destruct (searchNodeG params c (position ++ [i]) (path ++ [segment c i]) sc
              visited st) as [vis [st1|m]]; cbn [snd eraseResult bind]; [|done].
  apply IH.
Qed.

Lemma searchNodeG_erase node position path sc visited st :
  eraseResult (searchNodeG params node position path sc visited st).2
  = searchNode params node path sc (eraseState st).
Proof.
  revert position path sc visited st.
  induction node as [r n d v rw ps gm cs IH] using AXNode_tree_ind.
  intros. rewrite searchNodeG_eq, searchNode_eq. cbn zeta.
  set (node := mkAXNode r n d v rw ps gm cs) in *.
  destruct (inScope _ _ _).
  - destruct (scoreNode params node) as [t|m]; cbn [bind snd eraseResult]; [|done].
    rewrite <- (recordG_erase _ position). apply (searchChildrenG_erase _ IH).
  - cbn [bind]. apply (searchChildrenG_erase _ IH).
Qed.

End QueryTrace.

(** ** Decimal numerals *)

Lemma hasChar_middle c a b : hasChar c (a +:+ String c b) = true.
Proof.
  induction a as [|x a IH]; cbn [hasChar String.append].
  - by rewrite Ascii.eqb_refl.
  - rewrite IH. apply orb_true_r.
Qed.

(** The text after the last occurrence of a character is determined by
    the whole string. *)
Lemma after_last_inj c a a' d d' :
  hasChar c d = false -> hasChar c d' = false ->
  a +:+ String c d = a' +:+ String c d' -> d = d'.
Proof.
  revert a'. induction a as [|x a IH]; intros [|y a'] Hd Hd' E; cbn in E.
  - by injection E.
  - injection E as _ E. rewrite E, hasChar_middle in Hd. discriminate.
  - injection E as _ E. rewrite <- E, hasChar_middle in Hd'. discriminate.
  - injection E as _ E. by eapply IH.
Qed.

Lemma digitsPrefix_numeral d : forall a acc rest,
  default 0 a = Z.of_nat acc ->
  digitsPrefix a (NilEmpty.string_of_uint d +:+ rest) =
  match d with
  | Decimal.Nil => digitsPrefix a rest
  | _ => digitsPrefix (Some (Z.of_nat (Nat.of_uint_acc d acc))) rest
  end.
Proof.
  assert (Hcode : forall k : Z, 0 <= k -> forall a acc,
            default 0 a = Z.of_nat acc ->
            10 * default 0 a + k = Z.of_nat (Z.to_nat k + Nat.tail_mul 10 acc)).
  { intros k Hk a acc Ha. rewrite Ha, Nat.tail_mul_spec. lia. }
  induction d as [|d IH|d IH|d IH|d IH|d IH|d IH|d IH|d IH|d IH|d IH];
    intros a acc rest Ha; [reflexivity|..];
    cbn [NilEmpty.string_of_uint String.append digitsPrefix Nat.of_uint_acc];
    match goal with
    | |- context [isDigit ?c] => change (isDigit c) with true; cbv iota
    end;
    match goal with
    | |- digitsPrefix (Some (_ + ?k)) _ = _ =>
        let k' := eval vm_compute in k in change k with k';
        rewrite (Hcode k' ltac:(lia) a acc Ha)
    end;
    (rewrite (IH _ _ rest) by reflexivity);
    destruct d; reflexivity.
Qed.

Lemma hasChar_numeral d rest :
  hasChar "[" rest = false ->
  hasChar "[" (NilEmpty.string_of_uint d +:+ rest) = false.
Proof. intros H. induction d; cbn; assumption. Qed.

Lemma natToString_shape n :
  exists d, d <> Decimal.Nil
    /\ JS.natToString n = NilEmpty.string_of_uint d
    /\ Nat.of_uint d = n.
Proof.
  unfold JS.natToString. pose proof (DecimalNat.Unsigned.of_to n) as E.
  destruct (Nat.to_uint n) as [|d|d|d|d|d|d|d|d|d|d] eqn:Ed;
    [exists (Decimal.D0 Decimal.Nil); cbn in *; by repeat split | ..];
    eexists; (split; [|split; [reflexivity | exact E]]); discriminate.
Qed.

Lemma parseInt_numeral d rest :
  d <> Decimal.Nil ->
  parseInt (NilEmpty.string_of_uint d +:+ rest)
  = digitsPrefix None (NilEmpty.string_of_uint d +:+ rest).
Proof. destruct d; [done | reflexivity ..]. Qed.

(** [parseInt] reads back the numeral that [toString] wrote, also when
    something that is not a digit follows it. *)
Lemma parseInt_natToString n rest :
  digitsPrefix (Some (Z.of_nat n)) rest = Some (Z.of_nat n) ->
  parseInt (JS.natToString n +:+ rest) = Some (Z.of_nat n).
Proof.
  intros Hrest. destruct (natToString_shape n) as (d & Hd & -> & <-).
  rewrite parseInt_numeral by done.
  rewrite (digitsPrefix_numeral d None 0%nat rest) by done.
  destruct d; [done | exact Hrest ..].
Qed.

Lemma append_empty s : s +:+ "" = s.
Proof. induction s as [|c s IH]; cbn; [done | by rewrite IH]. Qed.

Lemma parseInt_numToString z :
  0 <= z -> parseInt (JS.numToString z) = Some z.
Proof.
  intros Hz. unfold JS.numToString.
  destruct (Z.ltb_spec z 0) as [?|_]; [lia|].
  rewrite <- (append_empty (JS.natToString _)).
  rewrite parseInt_natToString by done. f_equal. lia.
Qed.

Lemma truthy_numToString z : 0 <= z -> JS.truthy (JS.numToString z) = true.
Proof.
  intros Hz. unfold JS.numToString.
  destruct (Z.ltb_spec z 0) as [?|_]; [lia|].
  destruct (natToString_shape (Z.to_nat z)) as (d & Hd & -> & _).
  by destruct d.
Qed.

(** ** Segments determine the child index *)

Lemma segment_index_inj c i c' j : segment c i = segment c' j -> i = j.
Proof.
  unfold segment. cbn [String.append]. intros E.
  assert (Hno : forall n, hasChar "[" (JS.natToString n +:+ "]") = false).
  { intros n. destruct (natToString_shape n) as (d & _ & -> & _).
    by apply hasChar_numeral. }
  apply after_last_inj in E; [|apply Hno ..].
  apply (f_equal parseInt) in E.
  rewrite !parseInt_natToString in E by done.
  injection E. lia.
Qed.

Lemma pathTo_inj root p q :
  is_Some (subtree root p) -> is_Some (subtree root q) ->
  pathTo root p = pathTo root q -> p = q.
Proof.
  revert root q. induction p as [|i p IH]; intros root [|j q] Hp Hq E.
  - done.
  - cbn in Hq, E. destruct (children root !! j); [discriminate | by destruct Hq].
  - cbn in Hp, E. destruct (children root !! i); [discriminate | by destruct Hp].
  - cbn in Hp, Hq, E.
    destruct (children root !! i) as [c|] eqn:Ei; [|by destruct Hp].
    destruct (children root !! j) as [c'|] eqn:Ej; [|by destruct Hq].
    injection E as Es Er. apply segment_index_inj in Es. subst j.
    rewrite Ei in Ej. injection Ej as <-. f_equal. by eapply IH.
Qed.

(** ** Paths within one traversal *)

Lemma visits_paths_NoDup root vs :
  Forall (visitOf root [] []) vs ->
  NoDup (v_position <$> vs) ->
  NoDup (v_path <$> vs).
Proof.
  intros Hv Hd. rewrite Forall_forall in Hv.
  apply NoDup_fmap_2_strong; [|by eapply NoDup_fmap_1].
  intros [p1 s1] [p2 s2] H1 H2 E.
  destruct (Hv _ H1) as (r1 & Hs1 & Hp1 & Hq1).
  destruct (Hv _ H2) as (r2 & Hs2 & Hp2 & Hq2).
  cbn in *. subst. f_equal. by eapply pathTo_inj.
Qed.

(** C9.  Within one traversal of a tree, by [processNode] (the projector)
    or by [searchNode] (the query engine), no two calls receive the same
    path: the list of the paths given to the calls, in the order of the
    calls, has no repetition.  The calls are read off the instrumented
    traversals, which compute what the traversals compute. *)
Theorem path_uniqueness (sp : SnapshotParams) (qp : QueryParams) (tree : AXNode) :
  let snap := processNodeG sp tree [] [] false ([], []) in
  let query := searchNodeG qp tree [] [] false [] ([], []) in
  NoDup (v_path <$> snap.1)
  /\ NoDup (v_path <$> query.1)
  /\ snap.2.*2 = processNode sp tree [] false []
  /\ eraseResult query.2 = searchNode qp tree [] false ([], []).
Proof.
  cbn zeta. split; [|split; [|split]].
  - destruct (processNodeG_spec sp tree [] [] false ([], []))
      as (vs & ns & -> & Hv & Hd & _).
    by eapply visits_paths_NoDup.
  - destruct (searchNodeG_spec qp tree [] [] false [] ([], []))
      as (vs & -> & Hv & Hd & _).
    by eapply visits_paths_NoDup.
  - apply (processNodeG_erase sp tree [] [] false ([], [])).
  - apply (searchNodeG_erase qp tree [] [] false [] ([], [])).
Qed.

(** ** The arrays only grow *)

Lemma tag_erase {A} (b : list A) : ((fun d => ([] : list nat, d)) <$> b).*2 = b.
Proof. rewrite <- list_fmap_compose. apply list_fmap_id. Qed.

Lemma processNode_extends p node path sc b :
  exists new, processNode p node path sc b = b ++ new.
Proof.
  set (g := ([] : list Visit, (fun d => ([] : list nat, d)) <$> b)).
  pose proof (processNodeG_erase p node [] path sc g) as E.
  destruct (processNodeG_spec p node [] path sc g) as (vs & ns & Eg & _).
  rewrite Eg in E. cbn [fst snd g] in E. rewrite fmap_app, tag_erase in E.
  by exists (ns.*2).
Qed.

Lemma processChildren_extends p cs path sc i b :
  exists new, processChildren p cs path sc i b = b ++ new.
Proof.
  revert i b. induction cs as [|c cs IH]; intros i b.
  - exists []. by rewrite app_nil_r.
  - cbn [processChildren].
    destruct (processNode_extends p c (path ++ [segment c i]) sc b) as (n1 & ->).
    destruct (IH (S i) (b ++ n1)) as (n2 & ->).
    exists (n1 ++ n2). by rewrite app_assoc.
Qed.

(** ** Parameters the traversals do not read *)

Lemma processChildren_ext p q cs :
  Forall (fun node => forall path sc b,
            processNode p node path sc b = processNode q node path sc b) cs ->
  forall path sc i b,
    processChildren p cs path sc i b = processChildren q cs path sc i b.
Proof.
  induction 1 as [|c cs Hc _ IH]; intros; [done|].
  cbn [processChildren]. by rewrite Hc, IH.
Qed.

Lemma processNode_ext p q :
  within_sid p = within_sid q -> fields p = fields q -> max_nodes p = max_nodes q ->
  forall node path sc b, processNode p node path sc b = processNode q node path sc b.
Proof.
  intros Hw Hf Hm node.
  induction node as [r n d v rw ps gm cs IH] using AXNode_tree_ind.
  intros. rewrite !processNode_eq. cbn zeta.
  unfold nodeData. rewrite Hw, Hf, Hm.
  destruct (children _) eqn:Ecs; [done|]. rewrite <- Ecs.
  destruct (_ <=? _); [done|]. apply (processChildren_ext _ _ _ IH).
Qed.

(** ** A scope keeps a subsequence *)

Section ScopedSnapshot.

Variables (p : SnapshotParams) (S : option string).

Let scoped := withinSid S p.
Let unscoped := withinSid None p.

Lemma processChildren_scoped cs : Forall (scopedWithin p S) cs ->
  forall path sc sc' i a b,
    a `sublist_of` b ->
    Z.of_nat (length (processChildren unscoped cs path sc' i b)) < max_nodes p * 5 ->
    processChildren scoped cs path sc i a
      `sublist_of` processChildren unscoped cs path sc' i b.
Proof.
  induction 1 as [|c cs Hc _ IH]; intros path sc sc' i a b Hab Hlen; [done|].
  cbn [processChildren] in *. apply IH; [|done]. apply Hc; [done|].
  fold unscoped.
  destruct (processChildren_extends unscoped cs path sc' (Datatypes.S i)
              (processNode unscoped c (path ++ [segment c i]) sc' b)) as (new & E).
  rewrite E, length_app in Hlen. lia.
Qed.

Lemma processNode_scoped node : scopedWithin p S node.
Proof.
  induction node as [r n d v rw ps gm cs IH] using AXNode_tree_ind.
  intros path sc sc' a b Hab. fold scoped unscoped.
  rewrite !processNode_eq. cbn zeta.
  set (node := mkAXNode r n d v rw ps gm cs) in *.
  change (within_sid unscoped) with (@None string).
  change (inScope None (generateSID node frameId path) sc') with true.
  change (max_nodes scoped) with (max_nodes p).
  change (max_nodes unscoped) with (max_nodes p).
  change (nodeData scoped node path) with (nodeData p node path).
  change (nodeData unscoped node path) with (nodeData p node path).
  set (next := inScope _ _ _). cbn [andb].
  set (a' := if next && hasContent node then _ else a).
  set (b' := if hasContent node then _ else b).
  assert (Hab' : a' `sublist_of` b').
  { subst a' b'. destruct (hasContent node), next; cbn [andb]; try done.
    - by apply sublist_app.
    - by apply sublist_inserts_r. }
  destruct (children node) as [|c0 cs0] eqn:Ecs; [done|]. rewrite <- Ecs.
  pose proof (sublist_length _ _ Hab') as Hle.
  destruct (Z.leb_spec (max_nodes p * 5) (Z.of_nat (length b'))) as [Hb|Hb];
    [intros; lia|].
  destruct (Z.leb_spec (max_nodes p * 5) (Z.of_nat (length a'))) as [Ha|Ha]; [lia|].
  intros Hlen. by apply processChildren_scoped.
Qed.

End ScopedSnapshot.

Section ScopedQuery.

Variables (qp : QueryParams) (S : option string).

Let scoped := queryWithin S qp.
Let unscoped := queryWithin None qp.

Lemma record_within node path t a b :
  within a b ->
  within (record qp node path t a) (record qp node path t b)
  /\ within a (record qp node path t b).
Proof.
  intros [H1 H2]. unfold record, within.
  destruct (_ && _); [|done]. cbn [fst snd].
  destruct (explain qp); repeat split;
    try done; try (by apply sublist_app); by apply sublist_inserts_r.
Qed.

Lemma searchChildren_scoped cs : Forall (searchWithin qp S) cs ->
  forall path sc sc' i a b b',
    within a b ->
    searchChildren unscoped cs path sc' i b = Ok b' ->
    exists a', searchChildren scoped cs path sc i a = Ok a' /\ within a' b'.
Proof.
  induction 1 as [|c cs Hc _ IH]; intros path sc sc' i a b b' Hab E.
  - cbn in *. injection E as <-. by exists a.
  - cbn [searchChildren] in *.
    destruct (searchNode unscoped c (path ++ [segment c i]) sc' b) as [b1|m] eqn:E1;
      [|discriminate].
    destruct (Hc _ sc _ _ _ _ Hab E1) as (a1 & Ea1 & Hab1).
    fold scoped in Ea1. rewrite Ea1. cbn [bind] in *.
    by eapply IH.
Qed.

Lemma searchNode_scoped node : searchWithin qp S node.
Proof.
  induction node as [r n d v rw ps gm cs IH] using AXNode_tree_ind.
  intros path sc sc' a b b' Hab. fold scoped unscoped.
  rewrite !searchNode_eq. cbn zeta.
  set (node := mkAXNode r n d v rw ps gm cs) in *.
  change (q_within_sid unscoped) with (@None string).
  change (inScope None (generateSID node frameId path) sc') with true.
  change (scoreNode unscoped node) with (scoreNode qp node).
  change (scoreNode scoped node) with (scoreNode qp node).
  cbv iota.
  destruct (scoreNode qp node) as [t|m]; [|intros; discriminate]. cbn [bind].
  change (record unscoped node path t b) with (record qp node path t b).
  change (record scoped node path t a) with (record qp node path t a).
  destruct (record_within node path t a b Hab) as [Hin Hout].
  intros E. destruct (inScope _ _ _); cbn [bind];
    by eapply (searchChildren_scoped _ IH).
Qed.

End ScopedQuery.

(** ** Sorting and slicing keep elements *)

Lemma insertSorted_elem {A} (cmp : A -> A -> comparison) a l x :
  x ∈ insertSorted cmp a l <-> x = a \/ x ∈ l.
Proof.
  induction l as [|b l IH]; cbn.
  - rewrite elem_of_cons, elem_of_nil. tauto.
  - destruct (cmp a b); rewrite ?elem_of_cons, ?IH; rewrite ?elem_of_cons; tauto.
Qed.

Lemma sort_elem {A} (cmp : A -> A -> comparison) l x : x ∈ sort cmp l <-> x ∈ l.
Proof.
  unfold sort. induction l as [|a l IH]; cbn; [done|].
  by rewrite insertSorted_elem, elem_of_cons, IH.
Qed.

Lemma slice_sublist {A} (l : list A) start stop : slice l start stop `sublist_of` l.
Proof.
  unfold slice. etrans; [apply sublist_take | apply sublist_drop].
Qed.

Lemma slice_elem {A} (l : list A) start stop x : x ∈ slice l start stop -> x ∈ l.
Proof. intros H. eapply elem_of_sublist; [exact H | apply slice_sublist]. Qed.

(** ** Scope restriction *)

Lemma rootedAt_sidAt S tree pos :
  rootedAt S tree [] pos ->
  exists pos0, pos0 `prefix_of` pos /\ sidAt tree pos0 = Some S.
Proof.
  intros (rel0 & n0 & Hpre & Hsub & Hsid). exists rel0. split; [done|].
  unfold sidAt. rewrite Hsub. cbn in *. by rewrite Hsid.
Qed.

Lemma snapshot_materialized_in_scope p tree S d :
  JS.truthy S = true ->
  d ∈ processNode (withinSid (Some S) p) tree [] false [] ->
  exists pos n pos0,
    subtree tree pos = Some n /\ d = nodeData p n (pathTo tree pos)
    /\ pos0 `prefix_of` pos /\ sidAt tree pos0 = Some S.
Proof.
  intros HS Hd. set (ps := withinSid (Some S) p) in *.
  pose proof (processNodeG_erase ps tree [] [] false ([], [])) as E.
  destruct (processNodeG_spec ps tree [] [] false ([], [])) as (vs & ns & Eg & _ & _ & Hn).
  rewrite Eg in E. cbn [fst snd app fmap list_fmap] in E. rewrite <- E in Hd.
  apply list_elem_of_fmap in Hd as ([pos d'] & -> & Hin).
  rewrite Forall_forall in Hn.
  destruct (Hn _ Hin) as (rel & n & Hpos & Hsub & Hb & Hscope).
  cbn in Hpos, Hb. subst pos.
  destruct (Hscope S eq_refl HS) as [?|Hroot]; [done|].
  destruct (rootedAt_sidAt _ _ _ Hroot) as (pos0 & ? & ?).
  by exists rel, n, pos0.
Qed.

Lemma query_collected_in_scope qp tree S st m :
  JS.truthy S = true ->
  searchNode (queryWithin (Some S) qp) tree [] false ([], []) = Ok st ->
  m ∈ st.1 ->
  exists pos n pos0,
    subtree tree pos = Some n /\ builtMatch qp n (pathTo tree pos) m
    /\ pos0 `prefix_of` pos /\ sidAt tree pos0 = Some S.
Proof.
  intros HS Hst Hm. set (qs := queryWithin (Some S) qp) in *.
  pose proof (searchNodeG_erase qs tree [] [] false [] ([], [])) as E.
  destruct (searchNodeG_spec qs tree [] [] false [] ([], [])) as (vs & _ & _ & _ & Ha).
  change (eraseState ([], [])) with (([], []) : SearchState) in E.
  rewrite Hst in E.
  destruct (searchNodeG qs tree [] [] false [] ([], [])).2 as [g|]; [|discriminate].
  injection E as <-. destruct Ha as (ms & Ems & Hms).
  cbn [eraseState fst] in Hm. rewrite Ems in Hm. cbn [fst app] in Hm.
  apply list_elem_of_fmap in Hm as ([pos m'] & -> & Hin).
  rewrite Forall_forall in Hms.
  destruct (Hms _ Hin) as (rel & n & Hpos & Hsub & Hb & Hscope).
  cbn in Hpos, Hb. subst pos.
  destruct (Hscope S eq_refl HS) as [?|Hroot]; [done|].
  destruct (rootedAt_sidAt _ _ _ Hroot) as (pos0 & ? & ?).
  by exists rel, n, pos0.
Qed.

Lemma semSnapshot_nodes tree token p r d :
  semSnapshot (Some tree) token p = Ok r -> d ∈ nodes r ->
  d ∈ processNode p tree [] false [].
Proof.
  unfold semSnapshot, paginate. cbn [bind rethrow]. intros [= <-]. cbn [nodes].
  apply slice_elem.
Qed.

Lemma semQuery_elements lc tree qp r m :
  semQuery lc (Some tree) qp = Ok r -> m ∈ elements r ->
  exists st, searchNode qp tree [] false ([], []) = Ok st /\ m ∈ st.1.
Proof.
  unfold semQuery. cbn [bind rethrow].
  destruct (searchNode qp tree [] false ([], [])) as [st|]; [|discriminate].
  cbn [bind]. intros [= <-] Hm. exists st. split; [done|].
  assert (Hall : forall x, x ∈ slice (rank lc (rank_by qp) st.1) (Some 0)
                              (Some (q_max qp)) -> x ∈ st.1).
  { intros x Hx%slice_elem. unfold rank in Hx.
    destruct (rank_by qp); by apply sort_elem in Hx. }
  unfold shape in Hm.
  destruct (negb (multiple qp)), (slice _ _ _) as [|best rest] eqn:Es;
    cbn [elements] in Hm.
  - by apply elem_of_nil in Hm.
  - apply list_elem_of_singleton in Hm as ->. apply Hall. left.
  - by apply elem_of_nil in Hm.
  - by apply Hall.
Qed.

(** C1, as amended.  Scope restriction is bound to a subtree: for a
    within_sid [S] that is not empty, every node that sem_snapshot
    returns and every match that sem_query returns is built from a node
    of the tree that is a descendant of, or equal to, a node whose
    derived SID is [S].  It is monotone on what the traversals collect:
    the matches collected under [S], before ranking and truncation, are a
    subsequence of those collected without within_sid, and the nodes
    materialized under [S] are a subsequence of those materialized
    without it whenever the latter are fewer than 5 * max_nodes (the
    early stop of the traversal does not fire). *)
Theorem scope_restriction_amended (localeCompare : string -> string -> comparison)
    (p : SnapshotParams) (qp : QueryParams) (tree : AXNode) (token : string)
    (S : string) :
  JS.truthy S = true ->
  (forall r d,
     semSnapshot (Some tree) token (withinSid (Some S) p) = Ok r -> d ∈ nodes r ->
     exists pos n pos0,
       subtree tree pos = Some n /\ d = nodeData p n (pathTo tree pos)
       /\ pos0 `prefix_of` pos /\ sidAt tree pos0 = Some S)
  /\ (forall r m,
        semQuery localeCompare (Some tree) (queryWithin (Some S) qp) = Ok r ->
        m ∈ elements r ->
        exists pos n pos0,
          subtree tree pos = Some n /\ builtMatch qp n (pathTo tree pos) m
          /\ pos0 `prefix_of` pos /\ sidAt tree pos0 = Some S)
  /\ (Z.of_nat (length (processNode (withinSid None p) tree [] false []))
        < max_nodes p * 5 ->
      processNode (withinSid (Some S) p) tree [] false []
        `sublist_of` processNode (withinSid None p) tree [] false [])
  /\ (forall st0,
        searchNode (queryWithin None qp) tree [] false ([], []) = Ok st0 ->
        exists st,
          searchNode (queryWithin (Some S) qp) tree [] false ([], []) = Ok st
          /\ st.1 `sublist_of` st0.1 /\ st.2 `sublist_of` st0.2).
Proof.
  intros HS. split; [|split; [|split]].
  - intros r d Hr Hd. eapply snapshot_materialized_in_scope; [done|].
    by eapply semSnapshot_nodes.
  - intros r m Hr Hm.
    destruct (semQuery_elements _ _ _ _ _ Hr Hm) as (st & Hst & Hin).
    by eapply query_collected_in_scope.
  - intros Hlen. by apply processNode_scoped.
  - intros st0 H0.
    destruct (searchNode_scoped qp (Some S) tree [] false false ([], []) ([], []) st0)
      as (st & Hst & H1 & H2); [by split | done |].
    by exists st.
Qed.

(** The hypotheses of [scope_restriction_amended] hold on the list with
    a group, scoped to the group, with the default page size. *)
Lemma scope_restriction_witness :
  JS.truthy "sid_txdqpaaOeomwNuKv0h8ANrMw" = true
  /\ Z.of_nat (length (processNode (withinSid None snapshotDefaults)
                         listAndGroup [] false []))
       < max_nodes snapshotDefaults * 5
  /\ processNode (withinSid (Some "sid_txdqpaaOeomwNuKv0h8ANrMw") snapshotDefaults)
       listAndGroup [] false []
     `sublist_of` processNode (withinSid None snapshotDefaults) listAndGroup [] false [].
Proof.
  assert (HS : JS.truthy "sid_txdqpaaOeomwNuKv0h8ANrMw" = true) by reflexivity.
  assert (Hlen : Z.of_nat (length (processNode (withinSid None snapshotDefaults)
                                     listAndGroup [] false []))
                 < max_nodes snapshotDefaults * 5) by (vm_compute; reflexivity).
  split; [exact HS|]. split; [exact Hlen|].
  exact (proj1 (proj2 (proj2
    (scope_restriction_amended (fun _ _ => Eq) snapshotDefaults queryDefaults
       listAndGroup "t" "sid_txdqpaaOeomwNuKv0h8ANrMw" HS))) Hlen).
Defined.

(** An element is not in a list when a field of it is in no element. *)
Lemma not_elem_by {A B} `{EqDecision B} (f : A -> B) (a : A) (l : list A) :
  bool_decide (f a ∈ f <$> l) = false -> a ∉ l.
Proof.
  intros H Hin. apply bool_decide_eq_false in H. apply H.
  by apply list_elem_of_fmap_2.
Qed.

(** C1 as stated fails.  On the list with a group and pages of one node,
    with within_sid the identifier of the group: the page returned under
    the scope holds the group, which the page returned without scope
    does not hold; and the traversal under the scope materializes the
    button inside the group, which the traversal without scope never
    reaches (it stops descending at 5 * max_nodes nodes).  For the
    query: on the two buttons, scoped to the inner one, the single match
    returned is the inner button; without scope it is the outer one. *)
Lemma scope_subset_counterexample :
  sidAt listAndGroup [5%nat] = Some "sid_txdqpaaOeomwNuKv0h8ANrMw"
  /\ (exists rS r0 d,
        semSnapshot (Some listAndGroup) "t"
          (onePerPage (Some "sid_txdqpaaOeomwNuKv0h8ANrMw") None) = Ok rS
        /\ semSnapshot (Some listAndGroup) "t" (onePerPage None None) = Ok r0
        /\ d ∈ nodes rS /\ d ∉ nodes r0)
  /\ (exists d,
        d ∈ processNode (onePerPage (Some "sid_txdqpaaOeomwNuKv0h8ANrMw") None)
              listAndGroup [] false []
        /\ d ∉ processNode (onePerPage None None) listAndGroup [] false [])
  /\ sidAt twoButtons [0%nat] = Some "sid_zvvblJWm6zcEm2HA6aoC16v5"
  /\ (forall localeCompare, exists rS r0 m,
        semQuery localeCompare (Some twoButtons)
          (queryWithin (Some "sid_zvvblJWm6zcEm2HA6aoC16v5")
             (roleAndLabel (Some "button") None false false)) = Ok rS
        /\ semQuery localeCompare (Some twoButtons)
             (roleAndLabel (Some "button") None false false) = Ok r0
        /\ m ∈ elements rS /\ m ∉ elements r0).
Proof.
  split; [vm_compute; reflexivity|]. split; [|split; [|split]].
  - eexists _, _, _. split; [vm_compute; reflexivity|].
    split; [vm_compute; reflexivity|]. split; [left|].
    apply (not_elem_by sn_label). vm_compute. reflexivity.
  - exists (nodeData (onePerPage None None) (element "button" "Deep" [])
              ["group[5]"; "button[0]"]).
    split.
    + assert (E : processNode (onePerPage (Some "sid_txdqpaaOeomwNuKv0h8ANrMw") None)
                    listAndGroup [] false []
                  = [nodeData (onePerPage None None)
                       (element "group" "More" [element "button" "Deep" []])
                       ["group[5]"];
                     nodeData (onePerPage None None) (element "button" "Deep" [])
                       ["group[5]"; "button[0]"]]) by (vm_compute; reflexivity).
      rewrite E. right. left.
    + apply (not_elem_by sn_label). vm_compute. reflexivity.
  - vm_compute. reflexivity.
  - intros lc. eexists _, _, _. split; [vm_compute; reflexivity|].
    split; [vm_compute; reflexivity|]. split; [left|].
    apply (not_elem_by m_label). vm_compute. reflexivity.
Qed.

(** ** Pagination *)

Lemma paginate_at params (l : list SemanticSnapshotNode) k c :
  cursor params = c -> cursorAt k c ->
  0 <= k <= Z.of_nat (length l) -> 1 <= max_nodes params ->
  let e := Z.min (k + max_nodes params) (Z.of_nat (length l)) in
  paginate params l =
    (take (Z.to_nat (e - k)) (drop (Z.to_nat k) l),
     if e <? Z.of_nat (length l) then Some (JS.numToString e) else None).
Proof.
  intros Hc Hk Hrange Hm e. unfold paginate. rewrite Hc.
  assert (Hstart : match c with
                   | Some c => if JS.truthy c then parseInt c else Some 0
                   | None => Some 0
                   end = Some k).
  { destruct Hk as [[-> ->]| ->]; [done|].
    rewrite truthy_numToString, parseInt_numToString by lia. done. }
  rewrite Hstart. cbn [fmap option_fmap option_map]. fold e.
  unfold slice, relativeIndex. cbn [from_option]. unfold id.
  destruct (Z.ltb_spec k 0) as [?|_]; [lia|].
  destruct (Z.ltb_spec e 0) as [?|_]; [lia|].
  rewrite (Z.min_l k) by lia. rewrite (Z.min_l e) by lia. done.
Qed.

Lemma semSnapshot_page tree token params c k :
  cursorAt k c ->
  let l := processNode params tree [] false [] in
  0 <= k <= Z.of_nat (length l) -> 1 <= max_nodes params ->
  let e := Z.min (k + max_nodes params) (Z.of_nat (length l)) in
  semSnapshot (Some tree) token (withCursor c params) =
    Ok {| snapshot_id := "snap_" +:+ token;
          nodes := take (Z.to_nat (e - k)) (drop (Z.to_nat k) l);
          next_cursor := if e <? Z.of_nat (length l)
                         then Some (JS.numToString e) else None |}.
Proof.
  intros Hk l Hrange Hm e. unfold semSnapshot. cbn [bind rethrow].
  rewrite (processNode_ext (withCursor c params) params) by done. fold l.
  rewrite (paginate_at (withCursor c params) l k c) by done. done.
Qed.

Lemma followCursors_from tree tokens params fuel : forall j k c,
  cursorAt k c ->
  let l := processNode params tree [] false [] in
  0 <= k <= Z.of_nat (length l) -> 1 <= max_nodes params ->
  Z.of_nat (length l) - k < Z.of_nat fuel ->
  followCursors fuel tree tokens params j c = Some (drop (Z.to_nat k) l).
Proof.
  induction fuel as [|fuel IH]; intros j k c Hk l Hrange Hm Hfuel; [lia|].
  cbn [followCursors]. rewrite (semSnapshot_page _ _ _ _ k) by done.
  fold l. cbn [next_cursor nodes].
  set (e := Z.min (k + max_nodes params) (Z.of_nat (length l))).
  destruct (Z.ltb_spec e (Z.of_nat (length l))) as [He|He].
  - assert (He' : 0 <= e <= Z.of_nat (length l) /\ k < e) by (subst e; lia).
    rewrite (IH (Datatypes.S j) e (Some (JS.numToString e)));
      [| by right | fold l; lia | done | fold l; lia].
    cbn [fmap option_fmap option_map]. f_equal.
    replace (Z.to_nat e) with (Z.to_nat k + Z.to_nat (e - k))%nat by lia.
    rewrite <- drop_drop. apply take_drop.
  - f_equal. apply take_ge. rewrite length_drop. subst e. lia.
Qed.

(** C2.  A client that starts sem_snapshot without a cursor and follows
    every next_cursor until it is null receives, put end to end, exactly
    the materialized node list: same nodes, same order, nothing twice
    and nothing left out.  One more call than there are nodes is always
    enough. *)
Theorem pagination_completeness (tree : AXNode) (tokens : nat -> string)
    (params : SnapshotParams) (fuel : nat) :
  1 <= max_nodes params ->
  (length (processNode params tree [] false []) < fuel)%nat ->
  followCursors fuel tree tokens params 0 None
  = Some (processNode params tree [] false []).
Proof.
  intros Hm Hfuel.
  rewrite (followCursors_from tree tokens params fuel 0%nat 0 None);
    [done | by left | lia | done | lia].
Qed.

(** The hypotheses of [pagination_completeness] hold on the two buttons
    read one node per page, with three calls allowed. *)
Lemma pagination_completeness_witness :
  1 <= max_nodes (onePerPage None None)
  /\ (length (processNode (onePerPage None None) twoButtons [] false []) < 3)%nat
  /\ followCursors 3 twoButtons (fun _ => "t") (onePerPage None None) 0 None
     = Some (processNode (onePerPage None None) twoButtons [] false []).
Proof.
  assert (Hm : 1 <= max_nodes (onePerPage None None)) by (vm_compute; discriminate).
  assert (Hf : (length (processNode (onePerPage None None) twoButtons [] false []) < 3)%nat)
    by (vm_compute; lia).
  split; [exact Hm|]. split; [exact Hf|].
  exact (pagination_completeness twoButtons (fun _ => "t") (onePerPage None None) 3 Hm Hf).
Defined.

(** ** The scope parameter *)

(** C10.  sem_snapshot never reads its scope parameter: with the other
    parameters, the tree and the token fixed, the call with scope
    "viewport" and the call with scope "document" return the same
    result (or the same error). *)
Theorem scope_parameter_has_no_effect (accessibilityTree : option AXNode)
    (token : string) (params : SnapshotParams) :
  semSnapshot accessibilityTree token (withScope viewport params)
  = semSnapshot accessibilityTree token (withScope document params).
Proof.
  destruct accessibilityTree as [tree|]; [|reflexivity].
  unfold semSnapshot. cbn [bind].
  by rewrite (processNode_ext (withScope viewport params) (withScope document params)).
Qed.

(** ** Failure of the tree capture *)

(** C5.  When the capture of the accessibility tree gives null, both
    tools fail with the capture error; neither returns a result, hence
    never one with an empty list. *)
Theorem capture_failure_is_an_error (localeCompare : string -> string -> comparison)
    (token : string) (sp : SnapshotParams) (qp : QueryParams) :
  semSnapshot None token sp
    = Err "Failed to create semantic snapshot: Failed to capture accessibility tree"
  /\ semQuery localeCompare None qp
    = Err "Failed to query semantic elements: Failed to capture accessibility tree for querying"
  /\ (forall r, semSnapshot None token sp <> Ok r)
  /\ (forall r, semQuery localeCompare None qp <> Ok r).
Proof.
  assert (Hs : semSnapshot None token sp
    = Err "Failed to create semantic snapshot: Failed to capture accessibility tree")
    by reflexivity.
  assert (Hq : semQuery localeCompare None qp
    = Err "Failed to query semantic elements: Failed to capture accessibility tree for querying")
    by reflexivity.
  split; [exact Hs|]. split; [exact Hq|].
  split; intros r E; [rewrite Hs in E | rewrite Hq in E]; discriminate.
Qed.

(** ** The reference scenarios *)

(** C3.  On the tree made of one button named Submit, a query for the
    role button returns one match with score 50 and confidence 0.5, and
    a query for the role button and the label Submit returns one match
    with score 90 and confidence 0.9; this for every ranking, every
    limit and either value of multiple and explain. *)
Theorem reference_scenarios (localeCompare : string -> string -> comparison)
    (by_ : RankBy) (mult ex : bool) (limit : positive) :
  let query r l :=
    semQuery localeCompare (Some submitButton)
      {| q_role := r; q_label := l; q_text := None; q_attributes := None;
         q_within_sid := None; rank_by := by_; multiple := mult;
         q_max := Z.pos limit; explain := ex |} in
  (exists r m, query (Some "button") None = Ok r
     /\ elements r = [m] /\ score m = 50 /\ (confidence m == 0.5)%Q)
  /\ (exists r m, query (Some "button") (Some "Submit") = Ok r
     /\ elements r = [m] /\ score m = 90 /\ (confidence m == 0.9)%Q).
Proof.
  cbn zeta.
  split; destruct by_, mult, ex, limit; eexists _, _;
    (split; [vm_compute; reflexivity|]); repeat split.
Qed.

(** ** Cursors that are not numerals *)

(** A cursor from which [parseInt] reads no number gives the empty page
    and no next cursor, whatever the tree holds. *)
Lemma unreadable_cursor_page tree token params c :
  JS.truthy c = true -> parseInt c = None ->
  semSnapshot (Some tree) token (withCursor (Some c) params)
  = Ok {| snapshot_id := "snap_" +:+ token; nodes := []; next_cursor := None |}.
Proof.
  intros Ht Hp. unfold semSnapshot, paginate. cbn [bind rethrow cursor withCursor].
  rewrite Ht, Hp. cbn [fmap option_fmap option_map].
  unfold slice, relativeIndex. cbn [from_option]. unfold id. cbn [Z.ltb Z.compare].
  rewrite Z.min_l by lia. done.
Qed.

(** C4, at the failing input.  The cursor "abc" is not a numeral:
    [parseInt] gives NaN, no exception is raised, and the call on the
    one-button tree returns no node and no next cursor, where the call
    without cursor (offset 0) returns the button. *)
Theorem malformed_cursor_gives_empty_page :
  parseInt "abc" = None
  /\ (exists d,
        semSnapshot (Some submitButton) "t" (withCursor None snapshotDefaults)
        = Ok {| snapshot_id := "snap_t"; nodes := [d]; next_cursor := None |})
  /\ semSnapshot (Some submitButton) "t" (withCursor (Some "abc") snapshotDefaults)
     = Ok {| snapshot_id := "snap_t"; nodes := []; next_cursor := None |}.
Proof.
  split; [reflexivity|]. split.
  - eexists. vm_compute. reflexivity.
  - by rewrite unreadable_cursor_page.
Qed.

(** ** Explanations after ranking *)

(** C6, at the failing input.  On the two buttons, the query for the
    role button and the label Submit with explain set collects the outer
    button (score 50, reason role=button) and then the inner one (score
    90, reasons role=button,label≈Submit).  Sorting moves the inner
    button first and leaves the explanations where they were: the match
    returned is the inner button and the explanation returned with it
    is that of the outer one; with multiple set both are returned, each
    with the explanation of the other. *)
Theorem explanations_not_aligned_after_ranking
    (localeCompare : string -> string -> comparison) :
  let query mult :=
    semQuery localeCompare (Some twoButtons)
      (roleAndLabel (Some "button") (Some "Submit") true mult) in
  let outer := makeMatch twoButtons [] 50 in
  let inner := makeMatch submitButton ["button[0]"] 90 in
  searchNode (roleAndLabel (Some "button") (Some "Submit") true false)
    twoButtons [] false ([], [])
    = Ok ([outer; inner], ["role=button"; "role=button,label≈Submit"])
  /\ query false
     = Ok {| sids := [m_sid inner]; elements := [inner];
             explanations := Some [Some "role=button"] |}
  /\ query true
     = Ok {| sids := [m_sid inner; m_sid outer]; elements := [inner; outer];
             explanations := Some [Some "role=button";
                                   Some "role=button,label≈Submit"] |}.
Proof. cbn zeta. repeat split; vm_compute; reflexivity. Qed.

(** ** What a materialized node carries *)

Lemma snapshot_materialized_from p tree d :
  d ∈ processNode p tree [] false [] ->
  exists pos n, subtree tree pos = Some n /\ d = nodeData p n (pathTo tree pos).
Proof.
  intros Hd.
  pose proof (processNodeG_erase p tree [] [] false ([], [])) as E.
  destruct (processNodeG_spec p tree [] [] false ([], [])) as (vs & ns & Eg & _ & _ & Hn).
  rewrite Eg in E. cbn [fst snd app fmap list_fmap] in E. rewrite <- E in Hd.
  apply list_elem_of_fmap in Hd as ([pos d'] & -> & Hin).
  rewrite Forall_forall in Hn.
  destruct (Hn _ Hin) as (rel & n & Hpos & Hsub & Hb & _).
  cbn in Hpos, Hb. subst pos. by exists rel, n.
Qed.

Lemma extractTextSnippet_cases n s :
  extractTextSnippet n 50 = Some s ->
  (JS.len (snippetSource n) <= 50 /\ s = snippetSource n)
  \/ (50 < JS.len (snippetSource n)
      /\ s = JS.sliceUnits 50 (snippetSource n) +:+ "...").
Proof.
  unfold extractTextSnippet. fold (snippetSource n).
  destruct (negb (JS.truthy (snippetSource n))); [discriminate|].
  change (Z.of_nat 50) with 50.
  destruct (Z.ltb_spec 50 (JS.len (snippetSource n))); intros [= <-]; [right | left]; done.
Qed.

(** The three dots are three code units, wherever a count reaches them. *)
Lemma unitsFrom_dots skip : (JS.unitsFrom skip "..." <= 3)%nat.
Proof. destruct skip as [|[|[|[|k]]]]; apply Nat.leb_le; vm_compute; reflexivity. Qed.

(** A cut at [n] code units followed by [t] has at most [n] units more
    than [t]. *)
Lemma unitsFrom_slice t bound :
  (forall skip, (JS.unitsFrom skip t <= bound)%nat) ->
  forall s skip n,
    (JS.unitsFrom skip (JS.sliceFrom skip n s +:+ t) <= n + bound)%nat.
Proof.
  intros Ht. induction s as [|c r IH]; intros skip n.
  - cbn. specialize (Ht skip). lia.
  - destruct skip as [|k].
    + cbn [JS.sliceFrom]. destruct (Nat.leb_spec (JS.unitsOf c) n) as [Hle|Hgt].
      * cbn [String.append JS.unitsFrom].
        specialize (IH (JS.width c - 1)%nat (n - JS.unitsOf c)%nat). lia.
      * assert (Hnil : (JS.unitsFrom 0 (EmptyString +:+ t) <= n + bound)%nat)
          by (cbn; specialize (Ht 0%nat); lia).
        destruct n as [|[|n]]; [exact Hnil| |exact Hnil].
        destruct r as [|b1 [|b2 r']]; [exact Hnil | exact Hnil |].
        unfold JS.highSurrogate. cbn [String.append JS.unitsFrom].
        change (JS.unitsOf (JS.chr 237)) with 1%nat.
        change (JS.width (JS.chr 237) - 1)%nat with 2%nat.
        cbn [JS.unitsFrom]. specialize (Ht 0%nat). lia.
    + cbn [JS.sliceFrom String.append JS.unitsFrom]. apply IH.
Qed.

Lemma len_sliceUnits n s : JS.len (JS.sliceUnits n s +:+ "...") <= Z.of_nat n + 3.
Proof.
  unfold JS.len, JS.sliceUnits.
  pose proof (unitsFrom_slice "..." 3 unitsFrom_dots s 0%nat n). lia.
Qed.

(** On text of one-byte characters code units are bytes: the cut of an
    identifier from its digest is a cut in code units. *)
Lemma sliceUnits_ascii n : forall s,
  allChars isAscii s = true -> JS.sliceUnits n s = JS.sliceTo n s.
Proof.
  unfold JS.sliceUnits. induction n as [|n IH]; intros [|c r] H; try done.
  - cbn [JS.sliceFrom JS.sliceTo]. cbn [allChars] in H.
    apply andb_true_iff in H as [Hc _]. unfold isAscii in Hc.
    unfold JS.unitsOf. apply Z.ltb_lt in Hc.
    destruct (Z.ltb_spec (JS.code c) 240); [|lia]. done.
  - cbn [JS.sliceFrom JS.sliceTo]. cbn [allChars] in H.
    apply andb_true_iff in H as [Hc Hr]. unfold isAscii in Hc. apply Z.ltb_lt in Hc.
    unfold JS.unitsOf, JS.width.
    destruct (Z.ltb_spec (JS.code c) 240); [|lia].
    destruct (Z.ltb_spec (JS.code c) 192); [|lia].
    cbn [Nat.leb Nat.sub]. rewrite Nat.sub_0_r. by rewrite IH.
Qed.

Lemma len_ascii : forall s,
  allChars isAscii s = true -> JS.len s = Z.of_nat (String.length s).
Proof.
  unfold JS.len. intros s H. f_equal.
  induction s as [|c r IH]; [done|]. cbn [allChars] in H.
  apply andb_true_iff in H as [Hc Hr]. unfold isAscii in Hc. apply Z.ltb_lt in Hc.
  cbn [JS.unitsFrom String.length]. unfold JS.unitsOf, JS.width.
  destruct (Z.ltb_spec (JS.code c) 240); [|lia].
  destruct (Z.ltb_spec (JS.code c) 192); [|lia].
  cbn [Nat.sub]. by rewrite IH.
Qed.

(** Code units, not bytes, are counted and cut: thirty accented
    letters (sixty bytes) are thirty units; and a cut that falls
    between the two units of an emoji leaves the first of them. *)
Lemma code_units_examples :
  JS.len accents = 30
  /\ extractTextSnippet (element "button" accents []) 50 = Some accents
  /\ JS.len lettersAndEmoji = 52
  /\ extractTextSnippet (element "button" lettersAndEmoji []) 50
     = Some ("abcdefghijklmnopqrstuvwxyzabcdefghijklmnopqrstuvw"
             +:+ JS.highSurrogate "240" "159" "152" +:+ "...")
  /\ JS.highSurrogate "240" "159" "152"
     = String "237" (String "160" (String "189" EmptyString)).
Proof. repeat split; vm_compute; reflexivity. Qed.

(** C7, as amended.  For every node materialized by the projector, the
    textSnippet of the record, when present, is cut from the text of
    the very node the record is built from: it is that text itself when
    the text has at most 50 characters (UTF-16 code units, as
    JavaScript counts them), and otherwise its first 50 characters
    followed by three dots; it is therefore at most 53 characters
    long. *)
Theorem snippet_length_amended (params : SnapshotParams) (tree : AXNode)
    (d : SemanticSnapshotNode) (s : string) :
  d ∈ processNode params tree [] false [] ->
  sn_textSnippet d = Some s ->
  JS.len s <= 53
  /\ exists pos n,
       subtree tree pos = Some n
       /\ d = nodeData params n (pathTo tree pos)
       /\ ((JS.len (snippetSource n) <= 50 /\ s = snippetSource n)
           \/ (50 < JS.len (snippetSource n)
               /\ s = JS.sliceUnits 50 (snippetSource n) +:+ "...")).
Proof.
  intros Hd Hs.
  destruct (snapshot_materialized_from _ _ _ Hd) as (pos & n & Hsub & ->).
  assert (Hx : extractTextSnippet n 50 = Some s).
  { unfold nodeData in Hs. cbn [sn_textSnippet] in Hs.
    by destruct (includesField (fields params) "textSnippet"). }
  pose proof (extractTextSnippet_cases n s Hx) as Hc.
  split; [|by exists pos, n].
  destruct Hc as [[Hl ->]|[_ ->]]; [lia|].
  pose proof (len_sliceUnits 50 (snippetSource n)). lia.
Qed.

(** The hypotheses of [snippet_length_amended] hold on the button with
    a name of 51 characters. *)
Lemma snippet_length_witness :
  let d := nodeData snapshotDefaults longButton [] in
  let s := "12345678901234567890123456789012345678901234567890..." in
  d ∈ processNode snapshotDefaults longButton [] false []
  /\ sn_textSnippet d = Some s
  /\ JS.len s <= 53.
Proof.
  cbn zeta.
  assert (H1 : nodeData snapshotDefaults longButton []
               ∈ processNode snapshotDefaults longButton [] false [])
    by (rewrite processNode_eq; left).
  assert (H2 : sn_textSnippet (nodeData snapshotDefaults longButton [])
               = Some "12345678901234567890123456789012345678901234567890...")
    by reflexivity.
  split; [exact H1|]. split; [exact H2|].
  exact (proj1 (snippet_length_amended snapshotDefaults longButton _ _ H1 H2)).
Defined.

(** C7 as stated fails: the snippet of the button whose name has 51
    characters has 53. *)
Lemma snippet_length_counterexample :
  exists r d s,
    semSnapshot (Some longButton) "t" snapshotDefaults = Ok r
    /\ nodes r = [d]
    /\ sn_textSnippet d = Some s
    /\ JS.len s = 53
    /\ String.length s = 53%nat
    /\ ~ JS.len s <= 50.
Proof.
  eexists _, _, _. split; [vm_compute; reflexivity|].
  split; [reflexivity|]. split; [reflexivity|].
  split; [reflexivity|]. split; [reflexivity|].
  intros H. vm_compute in H. by apply H.
Qed.

(** ** Bounds *)

(** C8, as amended.  For every node materialized by the projector with
    a field list that includes bounds, the returned bounds are the
    constant box x = 0, y = 0, width = 100, height = 20, whatever the
    node and whatever geometry the tree provider attached to it;
    without bounds in the field list there are none. *)
Theorem bounds_are_a_placeholder (params : SnapshotParams) (tree : AXNode)
    (d : SemanticSnapshotNode) :
  d ∈ processNode params tree [] false [] ->
  sn_bounds d
  = if includesField (fields params) "bounds" then Some placeholderBounds else None.
Proof.
  intros Hd.
  by destruct (snapshot_materialized_from _ _ _ Hd) as (pos & n & Hsub & ->).
Qed.

(** The hypothesis of [bounds_are_a_placeholder] holds on the button
    with a bounding box. *)
Lemma bounds_are_a_placeholder_witness :
  let d := nodeData snapshotDefaults placedButton [] in
  d ∈ processNode snapshotDefaults placedButton [] false []
  /\ sn_bounds d
     = if includesField (fields snapshotDefaults) "bounds"
       then Some placeholderBounds else None.
Proof.
  cbn zeta.
  assert (H1 : nodeData snapshotDefaults placedButton []
               ∈ processNode snapshotDefaults placedButton [] false [])
    by (rewrite processNode_eq; left).
  split; [exact H1|].
  exact (bounds_are_a_placeholder snapshotDefaults placedButton _ H1).
Defined.

(** C8 as stated fails: for the button to which the tree provider
    attached the box (10, 20, 30, 40), the bounds returned are
    (0, 0, 100, 20). *)
Lemma bounds_passthrough_counterexample :
  exists r d,
    semSnapshot (Some placedButton) "t" snapshotDefaults = Ok r
    /\ nodes r = [d]
    /\ geometry placedButton = Some {| x := 10; y := 20; width := 30; height := 40 |}
    /\ sn_bounds d = Some {| x := 0; y := 0; width := 100; height := 20 |}
    /\ sn_bounds d <> geometry placedButton.
Proof.
  eexists _, _. split; [vm_compute; reflexivity|].
  repeat split. discriminate.
Qed.

(** * Further properties of the code *)

(** ** The shape of an identifier *)

Lemma round_length h kw : length h = 8%nat -> length (Sha256.round h kw) = 8%nat.
Proof.
  intros H. do 9 (destruct h as [|? h]; try discriminate). reflexivity.
Qed.

Lemma rounds_length kws : forall h,
  length h = 8%nat -> length (foldl Sha256.round h kws) = 8%nat.
Proof.
  induction kws as [|kw kws IH]; intros h H; [done|].
  cbn [foldl]. apply IH. by apply round_length.
Qed.

Lemma compress_length h block :
  length h = 8%nat -> length (Sha256.compress h block) = 8%nat.
Proof.
  intros H. unfold Sha256.compress.
  rewrite length_zip_with, rounds_length by done. lia.
Qed.

Lemma digest_length msg : length (Sha256.digest msg) = 32%nat.
Proof.
  unfold Sha256.digest.
  assert (H : forall bs h, length h = 8%nat ->
                length (foldl Sha256.compress h bs) = 8%nat).
  { induction bs as [|b bs IH]; intros h Hh; [done|].
    cbn [foldl]. apply IH. by apply compress_length. }
  specialize (H (Sha256.blocks (length (Sha256.pad msg)) (Sha256.pad msg))
                Sha256.H0 eq_refl).
  revert H. generalize (foldl Sha256.compress Sha256.H0
                          (Sha256.blocks (length (Sha256.pad msg)) (Sha256.pad msg))).
  intros l H. do 9 (destruct l as [|? l]; try discriminate). reflexivity.
Qed.

Lemma b64_isSidChar x : isSidChar (Sha256.b64 x) = true.
Proof.
  unfold Sha256.b64.
  assert (H : (Z.to_nat (x mod 64) < 64)%nat)
    by (pose proof (Z.mod_pos_bound x 64); lia).
  revert H. generalize (Z.to_nat (x mod 64)). intros n H.
  do 64 (destruct n as [|n]; [reflexivity|]). lia.
Qed.

Lemma base64url_isSidChar l : allChars isSidChar (Sha256.base64url l) = true.
Proof.
  assert (H : forall n k, (length k <= n)%nat ->
                allChars isSidChar (Sha256.base64url k) = true).
  { intros n. induction n as [|n IH]; intros k Hl;
      destruct k as [|a [|b [|c r]]];
      cbn [Sha256.base64url allChars]; rewrite ?b64_isSidChar; cbn [andb];
      try reflexivity; try (cbn in Hl; lia).
    apply IH. cbn in Hl. lia. }
  by apply (H (length l)).
Qed.

Lemma allChars_sliceTo f n s :
  allChars f s = true -> allChars f (JS.sliceTo n s) = true.
Proof.
  revert s. induction n as [|n IH]; intros [|c s]; cbn; try done.
  intros [-> H]%andb_true_iff. by rewrite IH.
Qed.

Lemma isSidChar_isAscii c : isSidChar c = true -> isAscii c = true.
Proof. destruct c as [[] [] [] [] [] [] [] []]; (reflexivity || discriminate). Qed.

Lemma allChars_impl (f g : ascii -> bool) s :
  (forall c, f c = true -> g c = true) -> allChars f s = true -> allChars g s = true.
Proof.
  intros Hfg. induction s as [|c s IH]; [done|]. cbn [allChars].
  intros [Hc Hs]%andb_true_iff. by rewrite (Hfg c Hc), IH.
Qed.

(** The digest is text of one-byte characters, so the cut that makes
    the identifier is the cut of [slice] in code units. *)
Lemma digest_cut_in_units l :
  JS.sliceUnits 24 (Sha256.base64url l) = JS.sliceTo 24 (Sha256.base64url l).
Proof.
  apply sliceUnits_ascii.
  eapply allChars_impl; [apply isSidChar_isAscii | apply base64url_isSidChar].
Qed.

Lemma token_length l :
  length l = 32%nat -> String.length (JS.sliceTo 24 (Sha256.base64url l)) = 24%nat.
Proof.
  intros H. do 33 (destruct l as [|? l]; try discriminate). reflexivity.
Qed.

(** X1.  Every identifier [generateSID] derives is "sid_" followed by
    24 characters of the base64url alphabet, whatever the node, the
    frame and the path; it therefore passes the pattern the overlay
    tools ask of a [sid] target. *)
Theorem sid_format (node : AXNode) (frame : string) (pathSegments : list string) :
  exists token,
    generateSID node frame pathSegments = "sid_" +:+ token
    /\ String.length token = 24%nat
    /\ allChars isSidChar token = true
    /\ sidPattern (generateSID node frame pathSegments) = true.
Proof.
  unfold generateSID. cbv zeta.
  set (hash := Sha256.sha256_base64url _).
  exists (JS.sliceTo 24 hash).
  assert (Hl : String.length (JS.sliceTo 24 hash) = 24%nat)
    by (apply token_length, digest_length).
  assert (Hc : allChars isSidChar (JS.sliceTo 24 hash) = true)
    by (apply allChars_sliceTo, base64url_isSidChar).
  split; [done|]. split; [done|]. split; [done|].
  cbn [String.append sidPattern]. rewrite Hl, Hc. reflexivity.
Qed.

(** ** Normalization of labels *)

Lemma lowerChar_idem c : JS.lowerChar (JS.lowerChar c) = JS.lowerChar c.
Proof. destruct c as [[] [] [] [] [] [] [] []]; reflexivity. Qed.

Lemma isSpace_lowerChar c : JS.isSpace (JS.lowerChar c) = JS.isSpace c.
Proof. destruct c as [[] [] [] [] [] [] [] []]; reflexivity. Qed.

Lemma lowerChar_space c : JS.isSpace c = true -> JS.lowerChar c = c.
Proof. destruct c as [[] [] [] [] [] [] [] []]; (reflexivity || discriminate). Qed.

Lemma toLowerCase_idem s : JS.toLowerCase (JS.toLowerCase s) = JS.toLowerCase s.
Proof. induction s as [|c s IH]; cbn; [done | by rewrite lowerChar_idem, IH]. Qed.

Lemma toLowerCase_trimStart s :
  JS.toLowerCase (JS.trimStart s) = JS.trimStart (JS.toLowerCase s).
Proof.
  induction s as [|c s IH]; cbn [JS.trimStart JS.toLowerCase]; [done|].
  rewrite isSpace_lowerChar. by destruct (JS.isSpace c).
Qed.

Lemma list_of_toLowerCase s :
  list_ascii_of_string (JS.toLowerCase s) = JS.lowerChar <$> list_ascii_of_string s.
Proof. induction s as [|c s IH]; cbn; [done | by rewrite IH]. Qed.

Lemma toLowerCase_of_list l :
  JS.toLowerCase (string_of_list_ascii l) = string_of_list_ascii (JS.lowerChar <$> l).
Proof. induction l as [|c l IH]; cbn; [done | by rewrite IH]. Qed.

Lemma fmap_rev {A B} (f : A -> B) l : f <$> rev l = rev (f <$> l).
Proof.
  induction l as [|a l IH]; [done|]. cbn [rev]. rewrite fmap_app, IH. done.
Qed.

Lemma toLowerCase_rev s : JS.toLowerCase (JS.rev s) = JS.rev (JS.toLowerCase s).
Proof.
  unfold JS.rev. by rewrite toLowerCase_of_list, list_of_toLowerCase, fmap_rev.
Qed.

Lemma toLowerCase_trim s : JS.toLowerCase (JS.trim s) = JS.trim (JS.toLowerCase s).
Proof.
  unfold JS.trim.
  by rewrite toLowerCase_rev, toLowerCase_trimStart, toLowerCase_rev,
    toLowerCase_trimStart.
Qed.

Lemma toLowerCase_collapseFrom b s :
  JS.toLowerCase (JS.collapseFrom b s) = JS.collapseFrom b (JS.toLowerCase s).
Proof.
  revert b. induction s as [|c s IH]; intros b;
    cbn [JS.collapseFrom JS.toLowerCase]; [done|].
  rewrite isSpace_lowerChar.
  destruct (JS.isSpace c), b; cbn [JS.toLowerCase]; by rewrite ?IH.
Qed.

Lemma string_of_list_app l k :
  string_of_list_ascii (l ++ k) = string_of_list_ascii l +:+ string_of_list_ascii k.
Proof. induction l as [|c l IH]; cbn; [done | by rewrite IH]. Qed.

Lemma list_of_string_app a b :
  list_ascii_of_string (a +:+ b) = list_ascii_of_string a ++ list_ascii_of_string b.
Proof. induction a as [|c a IH]; cbn; [done | by rewrite IH]. Qed.

Lemma rev_rev s : JS.rev (JS.rev s) = s.
Proof.
  unfold JS.rev. rewrite list_ascii_of_string_of_list_ascii, rev_involutive.
  apply string_of_list_ascii_of_string.
Qed.

Lemma rev_append a b : JS.rev (a +:+ b) = JS.rev b +:+ JS.rev a.
Proof. unfold JS.rev. by rewrite list_of_string_app, rev_app_distr, string_of_list_app. Qed.

Lemma rev_cons c s : JS.rev (String c s) = JS.rev s +:+ String c "".
Proof. apply (rev_append (String c "") s). Qed.

Lemma rev_empty s : JS.rev s = "" -> s = "".
Proof. intros H. by rewrite <- (rev_rev s), H. Qed.

Lemma noLead_append a b : a <> "" -> noLead (a +:+ b) = noLead a.
Proof. by destruct a. Qed.

Lemma noLead_rev s : noLead (JS.rev s) = noTrail s.
Proof.
  induction s as [|c s IH]; [done|]. rewrite rev_cons.
  destruct s as [|c' s]; [done|].
  rewrite noLead_append; [exact IH|].
  intros H%rev_empty. discriminate.
Qed.

Lemma trimStart_noLead s : noLead (JS.trimStart s) = true.
Proof.
  induction s as [|c s IH]; cbn [JS.trimStart]; [done|].
  destruct (JS.isSpace c) eqn:E; [done|]. cbn. by rewrite E.
Qed.

Lemma trimStart_fix s : noLead s = true -> JS.trimStart s = s.
Proof. destruct s as [|c s]; cbn; [done|]. by destruct (JS.isSpace c). Qed.

Lemma trimStart_suffix s : exists pre, s = pre +:+ JS.trimStart s.
Proof.
  induction s as [|c s [pre IH]]; [by exists ""|]. cbn [JS.trimStart].
  destruct (JS.isSpace c); [|by exists ""].
  exists (String c pre). cbn. by rewrite <- IH.
Qed.

Lemma trim_fix s : noLead s = true -> noTrail s = true -> JS.trim s = s.
Proof.
  intros H1 H2. unfold JS.trim. rewrite (trimStart_fix s) by done.
  rewrite trimStart_fix by (by rewrite noLead_rev). apply rev_rev.
Qed.

Lemma trim_clean s : noLead (JS.trim s) = true /\ noTrail (JS.trim s) = true.
Proof.
  unfold JS.trim. set (y := JS.trimStart s). set (z := JS.trimStart (JS.rev y)).
  split.
  - destruct (trimStart_suffix (JS.rev y)) as [pre E]. fold z in E.
    apply (f_equal JS.rev) in E. rewrite rev_rev, rev_append in E.
    destruct (JS.rev z) as [|c r] eqn:Ez; [done|].
    pose proof (trimStart_noLead s) as Hy. fold y in Hy. rewrite E in Hy.
    exact Hy.
  - rewrite <- noLead_rev, rev_rev. apply trimStart_noLead.
Qed.

Lemma collapseFrom_noLead b s :
  noLead s = true -> noLead (JS.collapseFrom b s) = true.
Proof.
  destruct s as [|c s]; [done|]. cbn. intros H.
  destruct (JS.isSpace c) eqn:E; [discriminate|]. cbn. by rewrite E.
Qed.

Lemma collapseFrom_noTrail s : forall b,
  noTrail s = true ->
  noTrail (JS.collapseFrom b s) = true /\ (s <> "" -> JS.collapseFrom b s <> "").
Proof.
  induction s as [|c s IH]; intros b H; [done|].
  destruct s as [|c' s'].
  - cbn in H. cbn. destruct (JS.isSpace c) eqn:E; [discriminate|].
    cbn. by rewrite E.
  - assert (Hne : String c' s' <> "") by discriminate.
    assert (Hr : noTrail (String c' s') = true) by exact H.
    revert IH Hne Hr. generalize (String c' s'). intros r0 IH Hne Hr.
    assert (Hcons : forall x b', noTrail (String x (JS.collapseFrom b' r0)) = true).
    { intros x b'. destruct (IH b' Hr) as [H1 H2]. specialize (H2 Hne).
      by destruct (JS.collapseFrom b' r0). }
    cbn [JS.collapseFrom].
    destruct (JS.isSpace c), b; try (split; [apply Hcons | discriminate]).
    destruct (IH true Hr) as [H1 H2]. split; [done | by intros _; apply H2].
Qed.

Lemma collapseFrom_tidy s : forall b, tidy b (JS.collapseFrom b s) = true.
Proof.
  induction s as [|c s IH]; intros b; [done|]. cbn [JS.collapseFrom].
  destruct (JS.isSpace c) eqn:E.
  - destruct b; [apply IH|]. cbn. by rewrite IH.
  - cbn [tidy]. rewrite E. apply IH.
Qed.

Lemma collapseFrom_fix s : forall b, tidy b s = true -> JS.collapseFrom b s = s.
Proof.
  induction s as [|c s IH]; intros b H; [done|]. cbn [tidy JS.collapseFrom] in *.
  destruct (JS.isSpace c).
  - apply andb_true_iff in H as [[Hc Hb]%andb_true_iff Ht].
    apply Ascii.eqb_eq in Hc. subst c. destruct b; [discriminate|].
    by rewrite IH.
  - by rewrite IH.
Qed.

Lemma normalize_twice label :
  normalizedLabel (normalizedLabel label) = normalizedLabel label.
Proof.
  unfold normalizedLabel, JS.collapseSpaces.
  set (t := JS.trim (JS.toLowerCase label)).
  rewrite toLowerCase_collapseFrom. subst t.
  rewrite toLowerCase_trim, toLowerCase_idem.
  set (t := JS.trim (JS.toLowerCase label)).
  destruct (trim_clean (JS.toLowerCase label)) as [H1 H2]. fold t in H1, H2.
  rewrite trim_fix.
  - apply collapseFrom_fix, collapseFrom_tidy.
  - by apply collapseFrom_noLead.
  - by apply collapseFrom_noTrail.
Qed.

(** X2.  Normalizing a label twice gives what normalizing it once
    gives. *)
Theorem normalizedLabel_idempotent (label : string) :
  normalizedLabel (normalizedLabel label) = normalizedLabel label.
Proof. apply normalize_twice. Qed.

(** X3.  The identifier of a node does not change when its name is
    replaced by its normalized form: names that differ in case or in
    white space only give the same identifier. *)
Theorem sid_ignores_label_formatting (node : AXNode) (frame : string)
    (pathSegments : list string) :
  generateSID (withName (normalizedLabel (getAXString (name node))) node)
    frame pathSegments
  = generateSID node frame pathSegments.
Proof.
  unfold generateSID. cbv zeta.
  cbn [withName role name description getAXString].
  fold (normalizedLabel (normalizedLabel (getAXString (name node)))).
  fold (normalizedLabel (getAXString (name node))).
  by rewrite normalize_twice.
Qed.

(** ** Pages and cursors *)

Lemma slice_length {A} (l : list A) start stop :
  Z.of_nat (length (slice l start stop))
  = Z.max 0 (relativeIndex (Z.of_nat (length l)) stop
             - relativeIndex (Z.of_nat (length l)) start).
Proof.
  unfold slice. rewrite length_take, length_drop.
  assert (H : forall i, 0 <= relativeIndex (Z.of_nat (length l)) i
                        <= Z.of_nat (length l)).
  { intros i. unfold relativeIndex. destruct (Z.ltb_spec (default 0 i) 0); lia. }
  pose proof (H start). pose proof (H stop). lia.
Qed.

(** X4.  A call never returns more than max_nodes nodes, whatever the
    cursor holds, and the nodes it returns are a part, in order, of the
    materialized list. *)
Theorem page_within_bounds (tree : AXNode) (token : string)
    (params : SnapshotParams) (r : SnapshotResult) :
  1 <= max_nodes params ->
  semSnapshot (Some tree) token params = Ok r ->
  Z.of_nat (length (nodes r)) <= max_nodes params
  /\ nodes r `sublist_of` processNode params tree [] false [].
Proof.
  intros Hm. unfold semSnapshot, paginate. cbn [bind rethrow]. intros [= <-].
  cbn [nodes]. split; [|apply slice_sublist].
  set (l := processNode params tree [] false []).
  rewrite slice_length.
  destruct (match cursor params with
            | Some c => if JS.truthy c then parseInt c else Some 0
            | None => Some 0
            end) as [k|]; cbn [fmap option_fmap option_map].
  - unfold relativeIndex. cbn [from_option]. unfold id.
    destruct (Z.ltb_spec k 0),
      (Z.ltb_spec (Z.min (k + max_nodes params) (Z.of_nat (length l))) 0); lia.
  - unfold relativeIndex. cbn [from_option]. unfold id. cbn. lia.
Qed.

(** The hypotheses of [page_within_bounds] hold on the list with a
    group read one node per page from the cursor "3". *)
Lemma page_within_bounds_witness :
  let params := onePerPage None (Some "3") in
  exists r,
    1 <= max_nodes params
    /\ semSnapshot (Some listAndGroup) "t" params = Ok r
    /\ Z.of_nat (length (nodes r)) <= max_nodes params
    /\ nodes r `sublist_of` processNode params listAndGroup [] false [].
Proof.
  cbn zeta. eexists.
  assert (Hm : 1 <= max_nodes (onePerPage None (Some "3"))) by (vm_compute; discriminate).
  split; [exact Hm|].
  assert (Hr : semSnapshot (Some listAndGroup) "t" (onePerPage None (Some "3"))
               = Ok {| snapshot_id := "snap_t";
                       nodes := [nodeData (onePerPage None None)
                                   (element "item" "Three" []) ["item[2]"]];
                       next_cursor := Some "4" |}) by (vm_compute; reflexivity).
  split; [exact Hr|].
  exact (page_within_bounds listAndGroup "t" (onePerPage None (Some "3")) _ Hm Hr).
Defined.



(** ** A scope that names no node *)

Lemma inScope_miss S sid :
  JS.truthy S = true -> sid <> S -> inScope (Some S) sid false = false.
Proof.
  intros HS Hne. unfold inScope. cbn. rewrite HS. cbn.
  by apply String.eqb_neq.
Qed.

Section OutOfScope.

Variables (qp : QueryParams) (S : string).
Hypothesis HS : JS.truthy S = true.

Let scoped := queryWithin (Some S) qp.

Lemma searchChildren_out_of_scope cs path :
  Forall (fun c => forall pth st,
            (forall rel n, subtree c rel = Some n ->
               generateSID n frameId (pth ++ pathTo c rel) <> S) ->
            searchNode scoped c pth false st = Ok st) cs ->
  forall i st,
    (forall j c rel n, cs !! j = Some c -> subtree c rel = Some n ->
       generateSID n frameId ((path ++ [segment c (i + j)]) ++ pathTo c rel) <> S) ->
    searchChildren scoped cs path false i st = Ok st.
Proof.
  induction 1 as [|c cs Hc _ IH]; intros i st Hno; [done|].
  cbn [searchChildren]. rewrite Hc.
  - cbn [bind]. apply IH. intros j c' rel n Hj Hsub.
    replace (i + 1 + j)%nat with (i + Datatypes.S j)%nat by lia.
    replace (Datatypes.S i + j)%nat with (i + Datatypes.S j)%nat by lia.
    by apply (Hno (Datatypes.S j) c' rel n).
  - intros rel n Hsub. specialize (Hno 0%nat c rel n eq_refl Hsub).
    by rewrite Nat.add_0_r in Hno.
Qed.

Lemma searchNode_out_of_scope node : forall path st,
  (forall rel n, subtree node rel = Some n ->
     generateSID n frameId (path ++ pathTo node rel) <> S) ->
  searchNode scoped node path false st = Ok st.
Proof.
  induction node as [r n d v rw ps gm cs IH] using AXNode_tree_ind.
  intros path st Hno. rewrite searchNode_eq. cbn zeta.
  set (node := mkAXNode r n d v rw ps gm cs) in *.
  change (q_within_sid scoped) with (Some S).
  rewrite inScope_miss; [|done|].
  2:{ specialize (Hno [] node eq_refl). cbn in Hno. by rewrite app_nil_r in Hno. }
  cbn [bind]. apply (searchChildren_out_of_scope _ _ IH).
  intros j c rel m Hj Hsub. cbn [Nat.add].
  specialize (Hno (j :: rel) m).
  rewrite (subtree_cons node j rel c Hj), (pathTo_cons node j rel c Hj) in Hno.
  rewrite <- app_assoc. by apply Hno.
Qed.

End OutOfScope.

Lemma slice_nil {A} start stop : slice (@nil A) start stop = [].
Proof. unfold slice. by rewrite drop_nil, take_nil. Qed.

(** X6.  A within_sid that is the identifier of no node of the tree is
    not an error: sem_snapshot materializes and returns no node, and
    sem_query collects nothing and returns no match (its scoring block
    never runs, so it cannot raise either). *)
Theorem unknown_scope_is_empty (localeCompare : string -> string -> comparison)
    (p : SnapshotParams) (qp : QueryParams) (tree : AXNode) (token : string)
    (S : string) :
  JS.truthy S = true ->
  (forall pos, sidAt tree pos <> Some S) ->
  processNode (withinSid (Some S) p) tree [] false [] = []
  /\ (exists r, semSnapshot (Some tree) token (withinSid (Some S) p) = Ok r
                /\ nodes r = [])
  /\ semQuery localeCompare (Some tree) (queryWithin (Some S) qp)
     = Ok {| sids := []; elements := [];
             explanations := if explain qp then Some [] else None |}.
Proof.
  intros HS Hno.
  assert (E : processNode (withinSid (Some S) p) tree [] false [] = []).
  { destruct (processNode (withinSid (Some S) p) tree [] false []) as [|d l] eqn:El;
      [done|].
    destruct (snapshot_materialized_in_scope p tree S d HS)
      as (pos & n & pos0 & _ & _ & _ & Hsid); [rewrite El; left|].
    by destruct (Hno pos0). }
  split; [exact E|]. split.
  - unfold semSnapshot, paginate. cbn [bind rethrow]. rewrite E.
    eexists. split; [reflexivity|]. cbn [nodes]. apply slice_nil.
  - unfold semQuery. cbn [bind rethrow].
    rewrite (searchNode_out_of_scope qp S HS).
    + cbn [bind]. unfold shape. cbn [fst snd].
      assert (Hr : rank localeCompare (rank_by (queryWithin (Some S) qp)) [] = [])
        by (by destruct (rank_by _)).
      rewrite Hr, !slice_nil. cbn [fmap list_fmap].
      change (explain (queryWithin (Some S) qp)) with (explain qp).
      by destruct (multiple _), (explain qp).
    + intros rel n Hsub Hsid. apply (Hno rel). unfold sidAt. rewrite Hsub.
      cbn in *. by rewrite Hsid.
Qed.

(** The hypotheses of [unknown_scope_is_empty] hold on the one-button
    tree for a within_sid that is not its identifier. *)
Lemma unknown_scope_is_empty_witness :
  JS.truthy "sid_none" = true
  /\ (forall pos, sidAt submitButton pos <> Some "sid_none")
  /\ processNode (withinSid (Some "sid_none") snapshotDefaults) submitButton [] false []
     = [].
Proof.
  assert (HS : JS.truthy "sid_none" = true) by reflexivity.
  assert (Hno : forall pos, sidAt submitButton pos <> Some "sid_none").
  { intros [|i pos]; [vm_compute; discriminate|].
    unfold sidAt. cbn. discriminate. }
  split; [exact HS|]. split; [exact Hno|].
  exact (proj1 (unknown_scope_is_empty (fun _ _ => Eq) snapshotDefaults queryDefaults
                  submitButton "t" "sid_none" HS Hno)).
Defined.

(** ** A scope that names the root *)

Lemma inScope_inside targetSid sid : inScope targetSid sid true = true.
Proof. unfold inScope. by destruct (given targetSid). Qed.

Lemma processChildren_inside p S cs :
  Forall (fun node => forall path sc' b,
            processNode (withinSid S p) node path true b
            = processNode (withinSid None p) node path sc' b) cs ->
  forall path sc' i b,
    processChildren (withinSid S p) cs path true i b
    = processChildren (withinSid None p) cs path sc' i b.
Proof.
  induction 1 as [|c cs Hc _ IH]; intros; [done|].
  cbn [processChildren]. by rewrite (Hc _ sc'), (IH _ sc').
Qed.

Lemma processNode_inside p S node : forall path sc' b,
  processNode (withinSid S p) node path true b
  = processNode (withinSid None p) node path sc' b.
Proof.
  induction node as [r n d v rw ps gm cs IH] using AXNode_tree_ind.
  intros. rewrite !processNode_eq. cbn zeta.
  rewrite inScope_inside.
  change (inScope (within_sid (withinSid None p)) ?sid sc') with true.
  change (nodeData (withinSid S p)) with (nodeData (withinSid None p)).
  change (max_nodes (withinSid S p)) with (max_nodes (withinSid None p)).
  destruct (children _) eqn:Ecs; [done|]. rewrite <- Ecs.
  destruct (_ <=? _); [done|]. apply (processChildren_inside _ _ _ IH).
Qed.

Lemma searchChildren_inside qp S cs :
  Forall (fun node => forall path sc' st,
            searchNode (queryWithin S qp) node path true st
            = searchNode (queryWithin None qp) node path sc' st) cs ->
  forall path sc' i st,
    searchChildren (queryWithin S qp) cs path true i st
    = searchChildren (queryWithin None qp) cs path sc' i st.
Proof.
  induction 1 as [|c cs Hc _ IH]; intros; [done|].
  cbn [searchChildren]. rewrite (Hc _ sc').
  destruct (searchNode _ c _ sc' st); cbn [bind]; [apply IH | done].
Qed.

Lemma searchNode_inside qp S node : forall path sc' st,
  searchNode (queryWithin S qp) node path true st
  = searchNode (queryWithin None qp) node path sc' st.
Proof.
  induction node as [r n d v rw ps gm cs IH] using AXNode_tree_ind.
  intros. rewrite !searchNode_eq. cbn zeta.
  rewrite inScope_inside.
  change (inScope (q_within_sid (queryWithin None qp)) ?sid sc') with true.
  cbv iota.
  match goal with
  | |- bind ?a _ = bind ?b _ => change a with b; destruct b as [st'|]
  end; cbn [bind]; [|done].
  apply (searchChildren_inside _ _ _ IH).
Qed.

(** X7.  Scoping to the identifier of the root changes nothing: both
    tools return what they return without within_sid. *)
Theorem scope_at_root_is_no_scope (localeCompare : string -> string -> comparison)
    (p : SnapshotParams) (qp : QueryParams) (tree : AXNode) (token : string)
    (S : string) :
  sidAt tree [] = Some S ->
  semSnapshot (Some tree) token (withinSid (Some S) p)
  = semSnapshot (Some tree) token (withinSid None p)
  /\ semQuery localeCompare (Some tree) (queryWithin (Some S) qp)
     = semQuery localeCompare (Some tree) (queryWithin None qp).
Proof.
  unfold sidAt. cbn. intros [= HS].
  assert (Hin : inScope (Some S) (generateSID tree frameId []) false = true).
  { unfold inScope. destruct (given (Some S)); [|done].
    rewrite HS, String.eqb_refl. done. }
  assert (Hp : processNode (withinSid (Some S) p) tree [] false []
               = processNode (withinSid None p) tree [] false []).
  { rewrite !processNode_eq. cbn zeta.
    change (within_sid (withinSid (Some S) p)) with (Some S). rewrite Hin.
    change (inScope (within_sid (withinSid None p)) ?sid false) with true.
    change (nodeData (withinSid (Some S) p)) with (nodeData (withinSid None p)).
    change (max_nodes (withinSid (Some S) p)) with (max_nodes (withinSid None p)).
    destruct (children tree) eqn:Ecs; [done|]. rewrite <- Ecs.
    destruct (_ <=? _); [done|].
    apply processChildren_inside, Forall_forall. intros c _.
    apply processNode_inside. }
  assert (Hq : forall st, searchNode (queryWithin (Some S) qp) tree [] false st
                          = searchNode (queryWithin None qp) tree [] false st).
  { intros st. rewrite !searchNode_eq. cbn zeta.
    change (q_within_sid (queryWithin (Some S) qp)) with (Some S). rewrite Hin.
    change (inScope (q_within_sid (queryWithin None qp)) ?sid false) with true.
    cbv iota.
    match goal with
    | |- bind ?a _ = bind ?b _ => change a with b; destruct b as [st'|]
    end; cbn [bind]; [|done].
    apply searchChildren_inside, Forall_forall. intros c _.
    apply searchNode_inside. }
  split.
  - unfold semSnapshot. cbn [bind]. by rewrite Hp.
  - unfold semQuery. cbn [bind]. by rewrite Hq.
Qed.

(** The hypothesis of [scope_at_root_is_no_scope] holds on the two
    buttons with the identifier of the outer one. *)
Lemma scope_at_root_witness :
  sidAt twoButtons [] = Some "sid_ZkC_ywKgm6hfcgDBhw5ttPHY"
  /\ semSnapshot (Some twoButtons) "t"
       (withinSid (Some "sid_ZkC_ywKgm6hfcgDBhw5ttPHY") snapshotDefaults)
     = semSnapshot (Some twoButtons) "t" (withinSid None snapshotDefaults).
Proof.
  assert (H : sidAt twoButtons [] = Some "sid_ZkC_ywKgm6hfcgDBhw5ttPHY")
    by (vm_compute; reflexivity).
  split; [exact H|].
  exact (proj1 (scope_at_root_is_no_scope (fun _ _ => Eq) snapshotDefaults
                  queryDefaults twoButtons "t" _ H)).
Defined.

(** ** Empty strings as parameters *)

Lemma inScope_blank o sid sc : inScope (blank o) sid sc = inScope o sid sc.
Proof.
  unfold blank. destruct (given o) eqn:E; [done|].
  unfold inScope. by rewrite E.
Qed.

Lemma processChildren_same p q cs :
  Forall (fun node => forall path sc b,
            processNode p node path sc b = processNode q node path sc b) cs ->
  forall path sc i b,
    processChildren p cs path sc i b = processChildren q cs path sc i b.
Proof.
  induction 1 as [|c cs Hc _ IH]; intros; [done|].
  cbn [processChildren]. by rewrite Hc, IH.
Qed.

Lemma processNode_same_scope p q :
  (forall sid sc, inScope (within_sid p) sid sc = inScope (within_sid q) sid sc) ->
  fields p = fields q -> max_nodes p = max_nodes q ->
  forall node path sc b, processNode p node path sc b = processNode q node path sc b.
Proof.
  intros Hw Hf Hm node.
  induction node as [r n d v rw ps gm cs IH] using AXNode_tree_ind.
  intros. rewrite !processNode_eq. cbn zeta.
  unfold nodeData. rewrite Hw, Hf, Hm.
  destruct (children _) eqn:Ecs; [done|]. rewrite <- Ecs.
  destruct (_ <=? _); [done|]. apply (processChildren_same _ _ _ IH).
Qed.

Lemma searchChildren_same p q cs :
  Forall (fun node => forall path sc st,
            searchNode p node path sc st = searchNode q node path sc st) cs ->
  forall path sc i st,
    searchChildren p cs path sc i st = searchChildren q cs path sc i st.
Proof.
  induction 1 as [|c cs Hc _ IH]; intros; [done|].
  cbn [searchChildren]. rewrite Hc.
  destruct (searchNode q c _ sc st); cbn [bind]; [apply IH | done].
Qed.

Lemma searchNode_same p q :
  (forall sid sc, inScope (q_within_sid p) sid sc = inScope (q_within_sid q) sid sc) ->
  (forall node, scoreNode p node = scoreNode q node) ->
  explain p = explain q ->
  forall node path sc st, searchNode p node path sc st = searchNode q node path sc st.
Proof.
  intros Hw Hs He node.
  induction node as [r n d v rw ps gm cs IH] using AXNode_tree_ind.
  intros. rewrite !searchNode_eq. cbn zeta.
  rewrite Hw, Hs. unfold record. rewrite He.
  match goal with
  | |- bind ?a _ = _ => destruct a as [st'|]
  end; cbn [bind]; [|done].
  apply (searchChildren_same _ _ _ IH).
Qed.

Lemma scoreNode_blanks qp node : scoreNode (queryBlanks qp) node = scoreNode qp node.
Proof.
  unfold scoreNode, queryBlanks, blank, given.
  cbn [q_role q_label q_text q_attributes].
  destruct (q_role qp) as [[|? ?]|], (q_label qp) as [[|? ?]|],
    (q_text qp) as [[|? ?]|]; reflexivity.
Qed.

(** X8.  An empty string given for within_sid or cursor (snapshot), or
    for role, label, text or within_sid (query), is the same as not
    giving the parameter. *)
Theorem empty_strings_are_absent (localeCompare : string -> string -> comparison)
    (accessibilityTree : option AXNode) (token : string)
    (p : SnapshotParams) (qp : QueryParams) :
  semSnapshot accessibilityTree token p
  = semSnapshot accessibilityTree token (snapshotBlanks p)
  /\ semQuery localeCompare accessibilityTree qp
     = semQuery localeCompare accessibilityTree (queryBlanks qp).
Proof.
  destruct accessibilityTree as [tree|]; [|by split]. split.
  - unfold semSnapshot. cbn [bind].
    rewrite (processNode_same_scope p (snapshotBlanks p));
      [| intros; symmetry; apply inScope_blank | done | done].
    unfold paginate. cbn [cursor max_nodes snapshotBlanks].
    assert (Hc : match blank (cursor p) with
                 | Some c => if JS.truthy c then parseInt c else Some 0
                 | None => Some 0
                 end
                 = match cursor p with
                   | Some c => if JS.truthy c then parseInt c else Some 0
                   | None => Some 0
                   end).
    { unfold blank, given. by destruct (cursor p) as [[|? ?]|]. }
    by rewrite Hc.
  - unfold semQuery. cbn [bind].
    rewrite (searchNode_same qp (queryBlanks qp));
      [| intros; symmetry; apply inScope_blank
       | intros; symmetry; apply scoreNode_blanks | done].
    done.
Qed.

(** ** Scores *)

Lemma matchAttributes_shift attributes entries : forall t,
  matchAttributes attributes entries t
  = match matchAttributes attributes entries (0, []) with
    | Ok d => Ok (t.1 + d.1, t.2 ++ d.2)
    | Err m => Err m
    end.
Proof.
  induction entries as [|[attr expected] rest IH]; intros [z rs].
  - cbn. by rewrite Z.add_0_r, app_nil_r.
  - cbn [matchAttributes].
    destruct (getAttribute attributes (JS.toLowerCase attr)) as [actual| |];
      [|done|apply IH].
    destruct (_ && _); [|apply IH].
    rewrite IH, (IH (hit (0, []) 20 _)). unfold hit. cbn [fst snd].
    destruct (matchAttributes attributes rest (0, [])) as [[dz drs]|]; [|done].
    cbn [fst snd app]. f_equal. f_equal; [lia | by rewrite <- app_assoc].
Qed.

Lemma matchAttributes_bounds attributes entries d :
  matchAttributes attributes entries (0, []) = Ok d ->
  d.1 = 20 * Z.of_nat (length d.2) /\ (length d.2 <= length entries)%nat.
Proof.
  revert d. induction entries as [|[attr expected] rest IH]; intros d.
  - cbn. intros [= <-]. cbn. lia.
  - cbn [matchAttributes].
    destruct (getAttribute attributes (JS.toLowerCase attr)) as [actual| |];
      [|done|intros H%IH; cbn [length]; lia].
    destruct (_ && _); [|intros H%IH; cbn [length]; lia].
    rewrite matchAttributes_shift.
    destruct (matchAttributes attributes rest (0, [])) as [[dz drs]|]; [|done].
    intros [= <-]. destruct (IH _ eq_refl) as [H1 H2]. cbn [fst snd hit] in *.
    cbn [app length]. lia.
Qed.

Lemma scoreNode_parts params node :
  scoreNode params node
  = match attributePart params node with
    | Ok d =>
        Ok ((rolePart params node).1 + (labelPart params node).1
            + (textPart params node).1 + d.1,
            (rolePart params node).2 ++ (labelPart params node).2
            ++ (textPart params node).2 ++ d.2)
    | Err m => Err m
    end.
Proof.
  unfold scoreNode, rolePart, labelPart, textPart, attributePart. cbv zeta.
  destruct (q_role params) as [r|]; [destruct (_ && _)|];
    (destruct (q_label params) as [l|];
     [destruct (JS.truthy l); [destruct (JS.includes _ _);
        [|destruct (JS.includes _ _)]|]|]);
    (destruct (q_text params) as [x|];
     [destruct (JS.truthy x); [destruct (JS.includes _ _)|]|]);
    (destruct (q_attributes params) as [entries|]; cbn [default from_option];
     [unfold id; rewrite matchAttributes_shift;
      destruct (matchAttributes _ entries (0, [])) as [[dz drs]|]; [|done]
     |]);
    unfold hit; cbn [fst snd app matchAttributes andb]; f_equal; f_equal;
    first [lia | reflexivity].
Qed.

Lemma part_bounds params node :
  (0 <= (rolePart params node).1 <= 50
   /\ (rolePart params node).1 = 50 * Z.of_nat (length (rolePart params node).2))
  /\ (0 <= (labelPart params node).1 <= 40
      /\ ((labelPart params node).1 = 0 <-> (labelPart params node).2 = []))
  /\ (0 <= (textPart params node).1 <= 35
      /\ (textPart params node).1 = 35 * Z.of_nat (length (textPart params node).2)).
Proof.
  unfold rolePart, labelPart, textPart.
  destruct (q_role params) as [r|]; [destruct (_ && _)|];
    (destruct (q_label params) as [l|];
     [destruct (JS.truthy l); [destruct (JS.includes _ _);
        [|destruct (JS.includes _ _)]|]|]);
    (destruct (q_text params) as [x|]; [destruct (_ && _)|]);
    cbn; repeat split; (lia || done).
Qed.

Lemma query_collected_from qp tree st m :
  searchNode qp tree [] false ([], []) = Ok st -> m ∈ st.1 ->
  exists pos n, subtree tree pos = Some n /\ builtMatch qp n (pathTo tree pos) m.
Proof.
  intros Hst Hm.
  pose proof (searchNodeG_erase qp tree [] [] false [] ([], [])) as E.
  destruct (searchNodeG_spec qp tree [] [] false [] ([], [])) as (vs & _ & _ & _ & Ha).
  change (eraseState ([], [])) with (([], []) : SearchState) in E.
  rewrite Hst in E.
  destruct (searchNodeG qp tree [] [] false [] ([], [])).2 as [g|]; [|discriminate].
  injection E as <-. destruct Ha as (ms & Ems & Hms).
  cbn [eraseState fst] in Hm. rewrite Ems in Hm. cbn [fst app] in Hm.
  apply list_elem_of_fmap in Hm as ([pos m'] & -> & Hin).
  rewrite Forall_forall in Hms.
  destruct (Hms _ Hin) as (rel & n & Hpos & Hsub & Hb & _).
  cbn in Hpos, Hb. subst pos. by exists rel, n.
Qed.

(** X9.  Every match sem_query returns has a positive score, a multiple
    of 5 that is at most 125 plus 20 per attribute asked for, and a
    confidence above 0 and at most 1, which is 1 exactly when the score
    reaches 100. *)
Theorem returned_match_bounds (localeCompare : string -> string -> comparison)
    (tree : AXNode) (qp : QueryParams) (r : QueryResult) (m : SemanticQueryMatch) :
  semQuery localeCompare (Some tree) qp = Ok r ->
  m ∈ elements r ->
  0 < score m <= 125 + 20 * Z.of_nat (length (default [] (q_attributes qp)))
  /\ (score m mod 5 = 0)
  /\ (0 < confidence m)%Q /\ (confidence m <= 1)%Q
  /\ ((confidence m == 1)%Q <-> 100 <= score m).
Proof.
  intros Hr Hm.
  destruct (semQuery_elements _ _ _ _ _ Hr Hm) as (st & Hst & Hin).
  destruct (query_collected_from _ _ _ _ Hst Hin)
    as (pos & n & _ & t & Ht & Hpos & ->).
  rewrite scoreNode_parts in Ht. unfold attributePart in Ht.
  destruct (matchAttributes _ _ (0, [])) as [d|] eqn:Ed; [|discriminate].
  injection Ht as <-. cbn [fst snd makeMatch score confidence] in *.
  destruct (matchAttributes_bounds _ _ _ Ed) as [Hd1 Hd2].
  destruct (part_bounds qp n) as ((Hr1 & Hr2) & (Hl1 & Hl2) & (Ht1 & Ht2)).
  set (z := _ + d.1) in *.
  assert (Hmod : z mod 5 = 0).
  { assert (Hl5 : (labelPart qp n).1 mod 5 = 0).
    { unfold labelPart. destruct (q_label qp) as [l|]; [|done].
      destruct (JS.truthy l); [|done].
      destruct (JS.includes _ _); [done|]. by destruct (JS.includes _ _). }
    subst z. rewrite Hr2, Ht2, Hd1.
    apply Z.mod_divide in Hl5; [|lia]. destruct Hl5 as [k Hk]. rewrite Hk.
    apply Z.mod_divide; [lia|].
    exists (10 * Z.of_nat (length (rolePart qp n).2) + k
            + 7 * Z.of_nat (length (textPart qp n).2)
            + 4 * Z.of_nat (length d.2)). lia. }
  split; [lia|]. split; [exact Hmod|].
  unfold Qlt, Qle, Qeq. cbn [Qnum Qden].
  split; [lia|]. split; [lia|]. lia.
Qed.

(** The hypotheses of [returned_match_bounds] hold for the query of
    scenario B. *)
Lemma returned_match_bounds_witness :
  exists r m,
    semQuery (fun _ _ => Eq) (Some submitButton)
      (roleAndLabel (Some "button") (Some "Submit") false false) = Ok r
    /\ m ∈ elements r
    /\ 0 < score m <= 125.
Proof.
  eexists _, _.
  assert (Hr : semQuery (fun _ _ => Eq) (Some submitButton)
                 (roleAndLabel (Some "button") (Some "Submit") false false)
               = Ok {| sids := [generateSID submitButton frameId []];
                       elements := [makeMatch submitButton [] 90];
                       explanations := None |}) by (vm_compute; reflexivity).
  assert (Hm : makeMatch submitButton [] 90
               ∈ elements {| sids := [generateSID submitButton frameId []];
                             elements := [makeMatch submitButton [] 90];
                             explanations := None |}) by left.
  split; [exact Hr|]. split; [exact Hm|].
  exact (proj1 (returned_match_bounds _ _ _ _ _ Hr Hm)).
Defined.

Lemma part_nonneg params node :
  0 <= (rolePart params node).1 /\ 0 <= (labelPart params node).1
  /\ 0 <= (textPart params node).1.
Proof. pose proof (part_bounds params node). lia. Qed.

Lemma rolePart_mono p p' node :
  given (q_role p) = false \/ q_role p' = q_role p ->
  (rolePart p node).1 <= (rolePart p' node).1
  /\ (rolePart p node).2 `sublist_of` (rolePart p' node).2.
Proof.
  intros [H|H].
  - assert (E : rolePart p node = (0, [])).
    { unfold rolePart. by destruct (q_role p) as [[|? ?]|]. }
    rewrite E. cbn. split; [apply part_nonneg | apply sublist_nil_l].
  - unfold rolePart. by rewrite H.
Qed.

Lemma labelPart_mono p p' node :
  given (q_label p) = false \/ q_label p' = q_label p ->
  (labelPart p node).1 <= (labelPart p' node).1
  /\ (labelPart p node).2 `sublist_of` (labelPart p' node).2.
Proof.
  intros [H|H].
  - assert (E : labelPart p node = (0, [])).
    { unfold labelPart. by destruct (q_label p) as [[|? ?]|]. }
    rewrite E. cbn. split; [apply part_nonneg | apply sublist_nil_l].
  - unfold labelPart. by rewrite H.
Qed.

Lemma textPart_mono p p' node :
  given (q_text p) = false \/ q_text p' = q_text p ->
  (textPart p node).1 <= (textPart p' node).1
  /\ (textPart p node).2 `sublist_of` (textPart p' node).2.
Proof.
  intros [H|H].
  - assert (E : textPart p node = (0, [])).
    { unfold textPart. by destruct (q_text p) as [[|? ?]|]. }
    rewrite E. cbn. split; [apply part_nonneg | apply sublist_nil_l].
  - unfold textPart. by rewrite H.
Qed.

(** X10.  Asking more never lowers a score: when a query gives the
    predicates of another one and possibly some that the other left
    out, every node scores at least as much under it, and keeps its
    reasons, in order, among the new ones. *)
Theorem score_monotone (p p' : QueryParams) (node : AXNode) (t t' : Tally) :
  addsPredicates p p' ->
  scoreNode p node = Ok t ->
  scoreNode p' node = Ok t' ->
  t.1 <= t'.1 /\ t.2 `sublist_of` t'.2.
Proof.
  intros (Hr & Hl & Hx & Ha). rewrite !scoreNode_parts.
  destruct (attributePart p node) as [d|] eqn:Ed; [|discriminate].
  destruct (attributePart p' node) as [d'|] eqn:Ed'; [|discriminate].
  intros [= <-] [= <-]. cbn [fst snd].
  destruct (rolePart_mono p p' node Hr) as [R1 R2].
  destruct (labelPart_mono p p' node Hl) as [L1 L2].
  destruct (textPart_mono p p' node Hx) as [X1 X2].
  assert (Hd : d.1 <= d'.1 /\ d.2 `sublist_of` d'.2).
  { unfold attributePart in *. destruct Ha as [Ha|Ha]; rewrite Ha in *.
    - cbn in Ed. injection Ed as <-. cbn.
      destruct (matchAttributes_bounds _ _ _ Ed') as [-> _].
      split; [lia | apply sublist_nil_l].
    - rewrite Ed in Ed'. by injection Ed' as <-. }
  destruct Hd as [D1 D2]. split; [lia|].
  by repeat apply sublist_app.
Qed.

(** The hypotheses of [score_monotone] hold on the Submit button for
    the query of scenario A and the query of scenario B. *)
Lemma score_monotone_witness :
  let p := roleAndLabel (Some "button") None false false in
  let p' := roleAndLabel (Some "button") (Some "Submit") false false in
  addsPredicates p p'
  /\ scoreNode p submitButton = Ok (50, ["role=button"])
  /\ scoreNode p' submitButton = Ok (90, ["role=button"; "label≈Submit"])
  /\ 50 <= 90.
Proof.
  cbn zeta.
  assert (Ha : addsPredicates (roleAndLabel (Some "button") None false false)
                 (roleAndLabel (Some "button") (Some "Submit") false false))
    by (repeat split; (by left) || (by right)).
  assert (H1 : scoreNode (roleAndLabel (Some "button") None false false) submitButton
               = Ok (50, ["role=button"])) by (vm_compute; reflexivity).
  assert (H2 : scoreNode (roleAndLabel (Some "button") (Some "Submit") false false)
                 submitButton
               = Ok (90, ["role=button"; "label≈Submit"])) by (vm_compute; reflexivity).
  split; [exact Ha|]. split; [exact H1|]. split; [exact H2|].
  exact (proj1 (score_monotone _ _ _ _ _ Ha H1 H2)).
Defined.

(** ** Ranking *)

Lemma insertSorted_Permutation {A} (cmp : A -> A -> comparison) a l :
  insertSorted cmp a l ≡ₚ a :: l.
Proof.
  induction l as [|b l IH]; cbn; [done|].
  destruct (cmp a b); try done. rewrite IH. apply Permutation_swap.
Qed.

Lemma sort_Permutation {A} (cmp : A -> A -> comparison) l : sort cmp l ≡ₚ l.
Proof.
  unfold sort. induction l as [|a l IH]; cbn; [done|].
  by rewrite insertSorted_Permutation, IH.
Qed.

Section SortedBy.

Context {A : Type} (cmp : A -> A -> comparison) (R : A -> A -> Prop).
Hypothesis R_trans : forall a b c, R a b -> R b c -> R a c.
Hypothesis cmp_Gt : forall a b, cmp a b = Gt -> R b a.
Hypothesis cmp_other : forall a b, cmp a b <> Gt -> R a b.

Lemma insertSorted_sorted a l :
  StronglySorted R l -> StronglySorted R (insertSorted cmp a l).
Proof.
  induction l as [|b l IH]; intros Hs; cbn.
  - by repeat constructor.
  - apply StronglySorted_cons in Hs as [Hb Hl].
    destruct (cmp a b) eqn:E.
    + apply StronglySorted_cons. split.
      * assert (Rab : R a b) by (apply cmp_other; congruence).
        constructor; [done|]. eapply Forall_impl; [exact Hb|]. intros x. by apply R_trans.
      * by apply StronglySorted_cons.
    + apply StronglySorted_cons. split.
      * assert (Rab : R a b) by (apply cmp_other; congruence).
        constructor; [done|]. eapply Forall_impl; [exact Hb|]. intros x. by apply R_trans.
      * by apply StronglySorted_cons.
    + apply StronglySorted_cons. split; [|by apply IH].
      apply Forall_forall. intros x [->|Hx]%insertSorted_elem.
      * by apply cmp_Gt.
      * rewrite Forall_forall in Hb. by apply Hb.
Qed.

Lemma sort_sorted l : StronglySorted R (sort cmp l).
Proof.
  unfold sort. induction l as [|a l IH]; cbn; [constructor|].
  by apply insertSorted_sorted.
Qed.

End SortedBy.

Lemma sublist_StronglySorted {A} (R : A -> A -> Prop) l k :
  l `sublist_of` k -> StronglySorted R k -> StronglySorted R l.
Proof.
  induction 1 as [|x l k Hlk IH|x l k Hlk IH]; intros Hs; [done|..];
    apply StronglySorted_cons in Hs as [Hx Hk].
  - apply StronglySorted_cons. split; [|by apply IH].
    apply Forall_forall. intros y Hy. rewrite Forall_forall in Hx.
    apply Hx. by eapply elem_of_sublist.
  - by apply IH.
Qed.

Lemma rank_by_score lc l :
  StronglySorted byScore (rank lc semantic_score l).
Proof.
  apply sort_sorted; unfold byScore.
  - intros a b c. lia.
  - intros a b H%Z.compare_gt_iff. lia.
  - intros a b H. destruct (Z.compare_spec (score b) (score a)); [lia | lia | done].
Qed.

Lemma rank_by_confidence lc l :
  StronglySorted byConfidence (rank lc visibility l).
Proof.
  apply sort_sorted; unfold byConfidence.
  - intros a b c H1 H2. by eapply Qle_trans.
  - intros a b H. apply Qlt_le_weak. by rewrite Qgt_alt.
  - intros a b H. apply Qnot_lt_le. intros Hlt. by rewrite Qgt_alt in Hlt.
Qed.

Lemma shape_elements lc qp st :
  elements (shape lc qp st) `sublist_of` rank lc (rank_by qp) st.1
  /\ (elements (shape lc qp st) <> [] ->
      head (elements (shape lc qp st)) = head (rank lc (rank_by qp) st.1)).
Proof.
  unfold shape. cbv zeta.
  set (ranked := rank lc (rank_by qp) st.1).
  pose proof (slice_sublist ranked (Some 0) (Some (q_max qp))) as Hsub.
  assert (Hhead : slice ranked (Some 0) (Some (q_max qp)) <> [] ->
                  head (slice ranked (Some 0) (Some (q_max qp))) = head ranked).
  { unfold slice.
    assert (E0 : relativeIndex (Z.of_nat (length ranked)) (Some 0) = 0)
      by (unfold relativeIndex; cbn; lia).
    rewrite E0. cbn [Z.to_nat drop].
    destruct (Z.to_nat _), ranked; cbn; done. }
  destruct (negb (multiple qp)), (slice ranked _ _) as [|best rest] eqn:Es;
    cbn [elements]; try done.
  split.
  - etrans; [|exact Hsub]. apply sublist_skip, sublist_nil_l.
  - intros _. by rewrite <- Hhead.
Qed.

(** X11.  With rank_by semantic_score the returned elements are in
    order of non-increasing score and the first of them has the highest
    score of all collected matches; with rank_by visibility they are in
    order of non-increasing confidence. *)
Theorem ranking_orders_results (lc : string -> string -> comparison)
    (tree : AXNode) (qp : QueryParams) (r : QueryResult) (st : SearchState) :
  semQuery lc (Some tree) qp = Ok r ->
  searchNode qp tree [] false ([], []) = Ok st ->
  (rank_by qp = semantic_score ->
     StronglySorted byScore (elements r)
     /\ forall best m, head (elements r) = Some best -> m ∈ st.1 ->
          score m <= score best)
  /\ (rank_by qp = visibility -> StronglySorted byConfidence (elements r)).
Proof.
  unfold semQuery. cbn [bind rethrow]. intros Hr Hst. rewrite Hst in Hr.
  cbn [bind] in Hr. injection Hr as <-.
  destruct (shape_elements lc qp st) as [Hsub Hhead].
  split; intros Hby; rewrite Hby in *.
  - pose proof (rank_by_score lc st.1) as Hs. split.
    + by eapply sublist_StronglySorted.
    + intros best m Hb Hm. rewrite Hhead in Hb by (intros E; by rewrite E in Hb).
      apply head_Some in Hb as [rest Hb].
      assert (Hin : m ∈ rank lc semantic_score st.1)
        by (unfold rank; by apply sort_elem).
      rewrite Hb in Hs, Hin. apply StronglySorted_cons in Hs as [Hall _].
      apply elem_of_cons in Hin as [->|Hin]; [unfold byScore; lia|].
      rewrite Forall_forall in Hall. by apply Hall.
  - eapply sublist_StronglySorted; [exact Hsub | apply rank_by_confidence].
Qed.

(** The hypotheses of [ranking_orders_results] hold on the two buttons
    queried for the role button and the label Submit, all matches
    asked for. *)
Lemma ranking_orders_results_witness :
  let qp := roleAndLabel (Some "button") (Some "Submit") false true in
  exists r st,
    semQuery (fun _ _ => Eq) (Some twoButtons) qp = Ok r
    /\ searchNode qp twoButtons [] false ([], []) = Ok st
    /\ StronglySorted byScore (elements r).
Proof.
  cbn zeta. eexists _, _.
  assert (Hr : semQuery (fun _ _ => Eq) (Some twoButtons)
                 (roleAndLabel (Some "button") (Some "Submit") false true)
               = Ok {| sids := [generateSID submitButton frameId ["button[0]"];
                                generateSID twoButtons frameId []];
                       elements := [makeMatch submitButton ["button[0]"] 90;
                                    makeMatch twoButtons [] 50];
                       explanations := None |}) by (vm_compute; reflexivity).
  assert (Hst : searchNode (roleAndLabel (Some "button") (Some "Submit") false true)
                  twoButtons [] false ([], [])
                = Ok ([makeMatch twoButtons [] 50;
                       makeMatch submitButton ["button[0]"] 90], []))
    by (vm_compute; reflexivity).
  split; [exact Hr|]. split; [exact Hst|].
  exact (proj1 (proj1 (ranking_orders_results _ _ _ _ _ Hr Hst) eq_refl)).
Defined.

(** ** The shape of a query result *)

Lemma record_paired qp node path t st :
  paired qp st -> paired qp (record qp node path t st).
Proof.
  unfold paired, record. destruct (_ && _); [|done]. cbn [fst snd].
  destruct (explain qp); [|done]. rewrite !length_app. cbn. lia.
Qed.

Lemma searchChildren_paired qp cs :
  Forall (fun node => forall path sc st st',
            paired qp st -> searchNode qp node path sc st = Ok st' -> paired qp st') cs ->
  forall path sc i st st',
    paired qp st -> searchChildren qp cs path sc i st = Ok st' -> paired qp st'.
Proof.
  induction 1 as [|c cs Hc _ IH]; intros path sc i st st' Hp.
  - cbn. by intros [= <-].
  - cbn [searchChildren].
    destruct (searchNode qp c _ sc st) as [st1|] eqn:E1; [|discriminate].
    cbn [bind]. apply IH. by eapply Hc.
Qed.

Lemma searchNode_paired qp node : forall path sc st st',
  paired qp st -> searchNode qp node path sc st = Ok st' -> paired qp st'.
Proof.
  induction node as [r n d v rw ps gm cs IH] using AXNode_tree_ind.
  intros path sc st st' Hp. rewrite searchNode_eq. cbn zeta.
  destruct (inScope _ _ _).
  - destruct (scoreNode qp _) as [t|]; [|discriminate]. cbn [bind].
    apply (searchChildren_paired _ _ IH). by apply record_paired.
  - cbn [bind]. by apply (searchChildren_paired _ _ IH).
Qed.

(** X12.  In every result of sem_query, sids lists the identifiers of
    the elements in order; there are at most max elements, and at most
    one unless multiple is set; there is an element as soon as the
    traversal collected a match; and explanations is absent without
    explain and otherwise has one entry per element. *)
Theorem query_result_shape (lc : string -> string -> comparison)
    (tree : AXNode) (qp : QueryParams) (r : QueryResult) (st : SearchState) :
  1 <= q_max qp ->
  semQuery lc (Some tree) qp = Ok r ->
  searchNode qp tree [] false ([], []) = Ok st ->
  sids r = m_sid <$> elements r
  /\ Z.of_nat (length (elements r)) <= q_max qp
  /\ (multiple qp = false -> (length (elements r) <= 1)%nat)
  /\ (elements r = [] <-> st.1 = [])
  /\ (explain qp = false -> explanations r = None)
  /\ (explain qp = true ->
      exists es, explanations r = Some es /\ length es = length (elements r)).
Proof.
  intros Hmax. unfold semQuery. cbn [bind rethrow]. intros Hr Hst.
  rewrite Hst in Hr. cbn [bind] in Hr. injection Hr as <-.
  pose proof (searchNode_paired qp tree [] false ([], []) st) as Hp.
  specialize (Hp ltac:(unfold paired; by destruct (explain qp)) Hst).
  unfold shape. cbv zeta.
  set (ranked := rank lc (rank_by qp) st.1).
  assert (Hlen : length ranked = length st.1).
  { subst ranked. unfold rank. destruct (rank_by qp); by rewrite sort_Permutation. }
  assert (Hslice : forall {A} (l : list A) n, 0 <= n ->
            slice l (Some 0) (Some n) = take (Z.to_nat n) l).
  { intros A l n Hn. unfold slice.
    assert (E0 : relativeIndex (Z.of_nat (length l)) (Some 0) = 0)
      by (unfold relativeIndex; cbn; lia).
    assert (En : relativeIndex (Z.of_nat (length l)) (Some n)
                 = Z.min n (Z.of_nat (length l))).
    { unfold relativeIndex. cbn [from_option]. unfold id.
      destruct (Z.ltb_spec n 0); [lia | done]. }
    rewrite E0, En, Z.sub_0_r. change (Z.to_nat 0) with 0%nat. rewrite drop_0.
    destruct (Z.min_spec n (Z.of_nat (length l))) as [[_ ->]|[Hle ->]]; [done|].
    rewrite !take_ge by lia. done. }
  rewrite !Hslice by lia.
  set (limited := take (Z.to_nat (q_max qp)) ranked).
  assert (Hlim : Z.of_nat (length limited) <= q_max qp
                 /\ (limited = [] <-> st.1 = [])
                 /\ (length limited <= length st.1)%nat).
  { subst limited. rewrite length_take. split; [lia|]. split; [|lia].
    rewrite <- !length_zero_iff_nil, length_take. lia. }
  destruct Hlim as (H1 & H2 & H3).
  assert (Hall : explain qp = true ->
            exists es,
              (if explain qp
               then Some (Some <$> take (Z.to_nat (Z.of_nat (length limited))) st.2)
               else None) = Some es
              /\ length es = length limited).
  { intros He. unfold paired in Hp. rewrite He in *. eexists. split; [done|].
    rewrite length_fmap, length_take. lia. }
  assert (Hnone : explain qp = false ->
            (if explain qp
             then Some (Some <$> take (Z.to_nat (Z.of_nat (length limited))) st.2)
             else None) = None).
  { by intros ->. }
  destruct (negb (multiple qp)) eqn:Em, limited as [|best rest] eqn:El;
    cbn [sids elements explanations]; (split; [done|]);
    (split; [cbn [length] in *; lia|]).
  - split; [cbn; lia|]. split; [exact H2|]. by split.
  - split; [cbn; lia|]. split; [split; [discriminate | by intros E%H2]|].
    split; [by intros ->|]. intros ->. by eexists.
  - split; [by destruct (multiple qp)|]. split; [exact H2|]. by split.
  - split; [by destruct (multiple qp)|]. split; [exact H2|]. by split.
Qed.

(** The hypotheses of [query_result_shape] hold on the two buttons
    queried for the role button with explanations. *)
Lemma query_result_shape_witness :
  let qp := roleAndLabel (Some "button") None true false in
  exists r st,
    1 <= q_max qp
    /\ semQuery (fun _ _ => Eq) (Some twoButtons) qp = Ok r
    /\ searchNode qp twoButtons [] false ([], []) = Ok st
    /\ sids r = m_sid <$> elements r.
Proof.
  cbn zeta. eexists _, _.
  assert (Hm : 1 <= q_max (roleAndLabel (Some "button") None true false))
    by (vm_compute; discriminate).
  assert (Hr : semQuery (fun _ _ => Eq) (Some twoButtons)
                 (roleAndLabel (Some "button") None true false)
               = Ok {| sids := [generateSID twoButtons frameId []];
                       elements := [makeMatch twoButtons [] 50];
                       explanations := Some [Some "role=button"] |})
    by (vm_compute; reflexivity).
  assert (Hst : searchNode (roleAndLabel (Some "button") None true false)
                  twoButtons [] false ([], [])
                = Ok ([makeMatch twoButtons [] 50;
                       makeMatch submitButton ["button[0]"] 50],
                      ["role=button"; "role=button"]))
    by (vm_compute; reflexivity).
  split; [exact Hm|]. split; [exact Hr|]. split; [exact Hst|].
  exact (proj1 (query_result_shape _ _ _ _ _ Hm Hr Hst)).
Defined.

(** ** Exceptions of the query *)

Lemma setAttribute_proto name value attributes :
  attributes !! "__proto__" = None ->
  setAttribute name value attributes !! "__proto__" = None.
Proof.
  intros H. unfold setAttribute.
  destruct (String.eqb_spec name "__proto__") as [->|Hne]; [done|].
  by rewrite lookup_insert_ne.
Qed.

Lemma extractAttributes_proto node : extractAttributes node !! "__proto__" = None.
Proof.
  unfold extractAttributes.
  assert (Hfold : forall {X} (f : gmap string string -> X -> gmap string string) l m,
            (forall m x, m !! "__proto__" = None -> f m x !! "__proto__" = None) ->
            m !! "__proto__" = None -> foldl f m l !! "__proto__" = None).
  { intros X f l. induction l as [|x l IH]; intros m Hf Hm; [done|].
    cbn. apply IH; [done|]. by apply Hf. }
  assert (H1 : foldl (fun attributes candidate =>
                 match raw node !! candidate with
                 | None | Some VUndefined | Some VNull => attributes
                 | Some v => setAttribute candidate (jsString v) attributes
                 end) ∅ candidates !! "__proto__" = None).
  { apply Hfold; [|done]. intros m x Hm.
    destruct (raw node !! x) as [[]|]; try done; by apply setAttribute_proto. }
  destruct (properties node) as [props|]; [|exact H1].
  apply Hfold; [|exact H1]. intros m x Hm.
  destruct (prop_name x); try done.
  destruct (negb _); [done|]. destruct (String.eqb _ ""); [done|].
  by apply setAttribute_proto.
Qed.

Lemma matchAttributes_inherited attributes entries :
  attributes !! "__proto__" = None ->
  (exists attr expected,
     (attr, expected) ∈ entries /\ JS.toLowerCase attr = "__proto__") ->
  forall t, matchAttributes attributes entries t
            = Err "actualValue.toLowerCase is not a function".
Proof.
  intros Hp. induction entries as [|[a e] rest IH]; intros (attr & expected & Hin & Hl) t.
  - by apply elem_of_nil in Hin.
  - cbn [matchAttributes]. apply elem_of_cons in Hin as [[= <- <-]|Hin].
    + unfold getAttribute. by rewrite Hl, Hp.
    + destruct (getAttribute attributes (JS.toLowerCase a)); [|done|];
        [destruct (_ && _)|]; apply IH; by exists attr, expected.
Qed.

(** X13.  A query that asks, with no within_sid, for an attribute
    whose name lower-cases to "__proto__" fails on every tree: the
    lookup on the attribute object finds the prototype, which has no
    toLowerCase.  The entries are those the handler can receive: the
    schema has dropped a key spelled "__proto__" itself, so the name
    has an upper-case letter, as in "__PROTO__". *)
Theorem proto_attribute_always_raises (lc : string -> string -> comparison)
    (tree : AXNode) (qp : QueryParams) (entries : list (string * string))
    (attr expected : string) :
  given (q_within_sid qp) = false ->
  q_attributes qp = Some entries ->
  recordEntries entries ->
  (attr, expected) ∈ entries ->
  JS.toLowerCase attr = "__proto__" ->
  attr <> "__proto__"
  /\ semQuery lc (Some tree) qp
     = Err "Failed to query semantic elements: actualValue.toLowerCase is not a function".
Proof.
  intros Hw Ha [_ Hkeys] Hin Hl. split.
  - rewrite Forall_forall in Hkeys. apply (Hkeys _ Hin).
  - unfold semQuery. cbn [bind rethrow].
    rewrite searchNode_eq. cbn zeta.
    unfold inScope at 1. rewrite Hw.
    assert (Hs : scoreNode qp tree = Err "actualValue.toLowerCase is not a function").
    { rewrite scoreNode_parts. unfold attributePart. rewrite Ha. cbn [default from_option].
      unfold id. rewrite matchAttributes_inherited; [done | apply extractAttributes_proto|].
      by exists attr, expected. }
    rewrite Hs. reflexivity.
Qed.

(** The hypotheses of [proto_attribute_always_raises] hold for a query
    that asks for the attribute "__PROTO__". *)
Lemma proto_attribute_witness :
  given (q_within_sid (attributesOnly [("__PROTO__", "x")])) = false
  /\ recordEntries [("__PROTO__", "x")]
  /\ ("__PROTO__", "x") ∈ [("__PROTO__", "x")]
  /\ JS.toLowerCase "__PROTO__" = "__proto__"
  /\ semQuery (fun _ _ => Eq) (Some submitButton) (attributesOnly [("__PROTO__", "x")])
     = Err "Failed to query semantic elements: actualValue.toLowerCase is not a function".
Proof.
  assert (H3 : ("__PROTO__", "x") ∈ [("__PROTO__", "x")]) by left.
  assert (Hrec : recordEntries [("__PROTO__", "x")]).
  { split.
    - cbn. apply NoDup_singleton.
    - constructor; [cbn; discriminate | constructor]. }
  split; [reflexivity|]. split; [exact Hrec|]. split; [exact H3|]. split; [reflexivity|].
  exact (proj2 (proto_attribute_always_raises (fun _ _ => Eq) submitButton
                  (attributesOnly [("__PROTO__", "x")]) [("__PROTO__", "x")]
                  "__PROTO__" "x" eq_refl eq_refl Hrec H3 eq_refl)).
Defined.

Lemma matchAttributes_plain attributes entries :
  (forall attr expected, (attr, expected) ∈ entries ->
     inheritedName (JS.toLowerCase attr) = false) ->
  exists d, matchAttributes attributes entries (0, []) = Ok d.
Proof.
  induction entries as [|[a e] rest IH]; intros Hplain; [by eexists|].
  destruct IH as [d Hd].
  { intros attr expected Hin. apply (Hplain attr expected). by right. }
  assert (Ha : inheritedName (JS.toLowerCase a) = false)
    by (apply (Hplain a e); left).
  unfold inheritedName in Ha.
  cbn [matchAttributes]. unfold getAttribute.
  destruct (attributes !! JS.toLowerCase a) as [v|]; [|rewrite Ha; by eexists].
  destruct (_ && _); [|by eexists].
  rewrite matchAttributes_shift, Hd. by eexists.
Qed.

Lemma searchChildren_total qp cs :
  Forall (fun node => forall path sc st,
            exists st', searchNode qp node path sc st = Ok st') cs ->
  forall path sc i st, exists st', searchChildren qp cs path sc i st = Ok st'.
Proof.
  induction 1 as [|c cs Hc _ IH]; intros path sc i st; [by eexists|].
  cbn [searchChildren]. destruct (Hc (path ++ [segment c i]) sc st) as [st1 ->].
  cbn [bind]. apply IH.
Qed.

Lemma searchNode_total qp node :
  plainAttributes qp ->
  forall path sc st, exists st', searchNode qp node path sc st = Ok st'.
Proof.
  intros Hplain.
  induction node as [r n d v rw ps gm cs IH] using AXNode_tree_ind.
  intros path sc st. rewrite searchNode_eq. cbn zeta.
  set (node := mkAXNode r n d v rw ps gm cs) in *.
  destruct (inScope _ _ _).
  - rewrite scoreNode_parts. unfold attributePart.
    destruct (matchAttributes_plain (extractAttributes node)
                (default [] (q_attributes qp)) Hplain) as [dd ->].
    cbn [bind]. apply (searchChildren_total _ _ IH).
  - cbn [bind]. apply (searchChildren_total _ _ IH).
Qed.

(** X14.  On a tree that was captured, sem_query returns a result
    whenever no attribute it asks for is named "constructor" or
    "__proto__" (in any case); in particular whenever it asks for no
    attribute. *)
Theorem query_succeeds_on_plain_attributes (lc : string -> string -> comparison)
    (tree : AXNode) (qp : QueryParams) :
  plainAttributes qp ->
  exists r, semQuery lc (Some tree) qp = Ok r.
Proof.
  intros Hplain. unfold semQuery. cbn [bind rethrow].
  destruct (searchNode_total qp tree Hplain [] false ([], [])) as [st ->].
  cbn [bind]. by eexists.
Qed.

(** The hypothesis of [query_succeeds_on_plain_attributes] holds for a
    query that asks for the attribute "Required". *)
Lemma query_succeeds_witness :
  plainAttributes (attributesOnly [("Required", "true")])
  /\ exists r, semQuery (fun _ _ => Eq) (Some submitButton)
                 (attributesOnly [("Required", "true")]) = Ok r.
Proof.
  assert (Hp : plainAttributes (attributesOnly [("Required", "true")])).
  { intros attr expected Hin. cbn in Hin.
    apply list_elem_of_singleton in Hin. injection Hin as -> ->. reflexivity. }
  split; [exact Hp|].
  exact (query_succeeds_on_plain_attributes (fun _ _ => Eq) submitButton _ Hp).
Defined.

(** ** What the traversals collect, exactly *)

Lemma reaches_here t sc node path :
  reaches t sc node path [] <-> inScope t (generateSID node frameId path) sc = true.
Proof.
  unfold reaches, inScope. split.
  - intros [H|[->|(S & -> & rel0 & n0 & Hpre & Hsub & Hsid)]].
    + by rewrite H.
    + by destruct (given t).
    + apply prefix_nil_inv in Hpre as ->. cbn in Hsub, Hsid.
      injection Hsub as <-. rewrite app_nil_r in Hsid. rewrite Hsid.
      cbn [from_option]. unfold id. rewrite String.eqb_refl, orb_true_r.
      by destruct (given _).
  - destruct (given t) eqn:Hg; [|by left].
    intros [->|He%String.eqb_eq]%orb_true_iff; [by right; left|].
    right; right. destruct t as [S|]; [|done]. cbn in He.
    exists S. split; [done|]. exists [], node. cbn. by rewrite app_nil_r.
Qed.

Lemma reaches_child t sc node path j rel c :
  children node !! j = Some c ->
  reaches t sc node path (j :: rel)
  <-> reaches t (inScope t (generateSID node frameId path) sc) c
        (path ++ [segment c j]) rel.
Proof.
  intros Hc. split.
  - intros [H|[->|(S & -> & rel0 & n0 & Hpre & Hsub & Hsid)]].
    + by left.
    + right; left. apply inScope_inside.
    + destruct rel0 as [|j0 rel0].
      * right; left. apply reaches_here. right; right. exists S. split; [done|].
        exists [], n0. by split.
      * apply prefix_cons_inv_1 in Hpre as Hj. subst j0.
        apply prefix_cons_inv_2 in Hpre.
        right; right. exists S. split; [done|]. exists rel0, n0.
        rewrite (subtree_cons node j rel0 c Hc) in Hsub.
        rewrite (pathTo_cons node j rel0 c Hc) in Hsid.
        split; [done|]. split; [done|]. by rewrite <- app_assoc.
  - intros [H|[H|(S & -> & rel0 & n0 & Hpre & Hsub & Hsid)]].
    + by left.
    + apply reaches_here in H as [H|[H|(S & -> & rel0 & n0 & Hpre & Hsub & Hsid)]].
      * by left.
      * by right; left.
      * right; right. exists S. split; [done|]. exists rel0, n0.
        apply prefix_nil_inv in Hpre as ->. split; [apply prefix_nil | by split].
    + right; right. exists S. split; [done|]. exists (j :: rel0), n0.
      split; [by apply prefix_cons|].
      rewrite (subtree_cons node j rel0 c Hc), (pathTo_cons node j rel0 c Hc).
      split; [done|]. by rewrite <- app_assoc in Hsid.
Qed.

Lemma reaches_root t tree pos : reaches t false tree [] pos <-> inScopeAt t tree pos.
Proof.
  unfold reaches, inScopeAt. split.
  - intros [H|[H|(S & -> & Hr)]]; [by left | done |].
    right. by apply rootedAt_sidAt.
  - intros [H|(pos0 & Hpre & Hsid)]; [by left|].
    destruct t as [S|]; [|by left]. right; right. exists S. split; [done|].
    unfold sidAt in Hsid. destruct (subtree tree pos0) as [n0|] eqn:Hsub; [|done].
    cbn in Hsid. injection Hsid as Hsid. by exists pos0, n0.
Qed.

(** *** The snapshot *)

Lemma processChildren_sound p cs :
  Forall (fun c => forall path sc b d,
            d ∈ processNode p c path sc b -> d ∈ b \/ materializes p sc c path d) cs ->
  forall path sc i b d,
    d ∈ processChildren p cs path sc i b ->
    d ∈ b \/ exists j c, cs !! j = Some c
                         /\ materializes p sc c (path ++ [segment c (i + j)]) d.
Proof.
  induction 1 as [|c cs Hc _ IH]; intros path sc i b d Hd; [by left|].
  cbn [processChildren] in Hd.
  destruct (IH _ _ _ _ _ Hd) as [Hb|(j & c' & Hj & Hm)].
  - destruct (Hc _ _ _ _ Hb) as [?|Hm]; [by left|].
    right. exists 0%nat, c. rewrite Nat.add_0_r. by split.
  - right. exists (S j), c'. rewrite Nat.add_succ_r. by split.
Qed.

Lemma processNode_sound p node : forall path sc b d,
  d ∈ processNode p node path sc b -> d ∈ b \/ materializes p sc node path d.
Proof.
  induction node as [r n d0 v rw ps gm cs IH] using AXNode_tree_ind.
  intros path sc b d. rewrite processNode_eq. cbn zeta.
  set (node := mkAXNode r n d0 v rw ps gm cs) in *.
  set (next := inScope (within_sid p) (generateSID node frameId path) sc).
  assert (Hown : forall x,
            x ∈ (if next && hasContent node
                 then b ++ [nodeData p node path] else b) ->
            x ∈ b \/ materializes p sc node path x).
  { intros x. destruct (next && hasContent node) eqn:E; [|by left].
    apply andb_true_iff in E as [E1 E2].
    intros [?|Hx%list_elem_of_singleton]%elem_of_app; [by left|].
    right. exists [], node. cbn. rewrite app_nil_r.
    split; [done|]. split; [done|]. split; [by apply reaches_here|done]. }
  destruct (children node) as [|c0 cs0] eqn:Ecs; [apply Hown|]. rewrite <- Ecs.
  destruct (_ <=? _); [apply Hown|].
  intros Hd. destruct (processChildren_sound p cs IH _ _ _ _ _ Hd)
    as [Hb|(j & c & Hj & rel & n' & Hsub & Hc & Hr & ->)]; [by apply Hown|].
  right. exists (j :: rel), n'.
  assert (Hch : children node !! j = Some c) by exact Hj.
  rewrite (subtree_cons node j rel c Hch), (pathTo_cons node j rel c Hch).
  split; [done|]. split; [done|].
  split; [by apply (reaches_child _ _ node path j rel c Hch)|].
  by rewrite <- app_assoc.
Qed.

Lemma processChildren_length p cs path sc i b :
  (length b <= length (processChildren p cs path sc i b))%nat.
Proof.
  destruct (processChildren_extends p cs path sc i b) as [new ->].
  rewrite length_app. lia.
Qed.

Lemma processChildren_complete p cs :
  Forall (fun c => forall path sc b d,
            Z.of_nat (length (processNode p c path sc b)) < max_nodes p * 5 ->
            materializes p sc c path d -> d ∈ processNode p c path sc b) cs ->
  forall path sc i b j c d,
    Z.of_nat (length (processChildren p cs path sc i b)) < max_nodes p * 5 ->
    cs !! j = Some c ->
    materializes p sc c (path ++ [segment c (i + j)]) d ->
    d ∈ processChildren p cs path sc i b.
Proof.
  induction 1 as [|c0 cs Hc _ IH]; intros path sc i b j c d Hlen Hj Hm; [done|].
  cbn [processChildren] in *.
  destruct j as [|j].
  - injection Hj as <-. rewrite Nat.add_0_r in Hm.
    pose proof (processChildren_length p cs path sc (S i)
                  (processNode p c0 (path ++ [segment c0 i]) sc b)) as Hge.
    destruct (processChildren_extends p cs path sc (S i)
                (processNode p c0 (path ++ [segment c0 i]) sc b)) as [new ->].
    apply elem_of_app. left. apply Hc; [lia | done].
  - apply (IH _ _ _ _ j c); [done | done |]. by rewrite Nat.add_succ_r in Hm.
Qed.

Lemma processNode_complete p node : forall path sc b d,
  Z.of_nat (length (processNode p node path sc b)) < max_nodes p * 5 ->
  materializes p sc node path d -> d ∈ processNode p node path sc b.
Proof.
  induction node as [r n d0 v rw ps gm cs IH] using AXNode_tree_ind.
  intros path sc b d. rewrite processNode_eq. cbn zeta.
  set (node := mkAXNode r n d0 v rw ps gm cs) in *.
  set (next := inScope (within_sid p) (generateSID node frameId path) sc).
  set (b' := if next && hasContent node then b ++ [nodeData p node path] else b).
  intros Hlen (rel & n' & Hsub & Hc & Hr & ->).
  destruct rel as [|j rel].
  - cbn in Hsub. injection Hsub as <-. cbn [pathTo]. rewrite app_nil_r.
    apply reaches_here in Hr. fold next in Hr.
    assert (Hin : nodeData p node path ∈ b').
    { subst b'. rewrite Hr, Hc. cbn. apply elem_of_app. right. by left. }
    destruct (children node) as [|c0 cs0] eqn:Ecs; [done|]. rewrite <- Ecs.
    destruct (_ <=? _); [done|].
    destruct (processChildren_extends p (children node) path next 0 b') as [new ->].
    apply elem_of_app. by left.
  - destruct (children node !! j) as [c|] eqn:Hch;
      [|cbn in Hsub; cbn in Hch; by rewrite Hch in Hsub].
    rewrite (subtree_cons node j rel c Hch) in Hsub.
    rewrite (pathTo_cons node j rel c Hch).
    apply (reaches_child _ _ node path j rel c Hch) in Hr. fold next in Hr.
    destruct (children node) as [|c0 cs0] eqn:Ecs; [done|]. rewrite <- Ecs in *.
    destruct (Z.leb_spec (max_nodes p * 5) (Z.of_nat (length b'))) as [Hv|Hv]; [lia|].
    apply (processChildren_complete p cs IH path next 0%nat b' j c); [done | done |].
    exists rel, n'. cbn [Nat.add]. split; [done|]. split; [done|]. split; [done|].
    by rewrite <- app_assoc.
Qed.

(** X15.  What sem_snapshot materializes, exactly.  Every node of the
    materialized list is built from a node of the tree that has a role,
    a name or a text snippet and lies in the scope (any node when no
    within_sid is given, else a node at or below one whose identifier is
    within_sid); and when the list stays under 5 * max_nodes entries,
    so that the traversal never stops early, every such node of the tree
    is in the list. *)
Theorem snapshot_lists_the_nodes_in_scope (p : SnapshotParams) (tree : AXNode)
    (d : SemanticSnapshotNode) :
  (d ∈ processNode p tree [] false [] -> listed p tree d)
  /\ (Z.of_nat (length (processNode p tree [] false [])) < max_nodes p * 5 ->
      listed p tree d -> d ∈ processNode p tree [] false []).
Proof.
  unfold listed. split.
  - intros Hd. destruct (processNode_sound p tree [] false [] d Hd)
      as [Hd'|(rel & n & Hsub & Hc & Hr & ->)]; [by apply elem_of_nil in Hd'|].
    exists rel, n. split; [done|]. split; [done|].
    split; [by apply reaches_root | done].
  - intros Hlen (pos & n & Hsub & Hc & Hr & ->).
    apply processNode_complete; [done|].
    exists pos, n. split; [done|]. split; [done|].
    split; [by apply reaches_root | done].
Qed.

(** *** The query *)

Lemma searchChildren_sound qp cs :
  Forall (fun c => forall path sc st st' m,
            searchNode qp c path sc st = Ok st' -> m ∈ st'.1 ->
            m ∈ st.1 \/ collects qp sc c path m) cs ->
  forall path sc i st st' m,
    searchChildren qp cs path sc i st = Ok st' -> m ∈ st'.1 ->
    m ∈ st.1 \/ exists j c, cs !! j = Some c
                            /\ collects qp sc c (path ++ [segment c (i + j)]) m.
Proof.
  induction 1 as [|c cs Hc _ IH]; intros path sc i st st' m Hs Hm.
  - injection Hs as <-. by left.
  - cbn [searchChildren] in Hs.
    destruct (searchNode qp c _ sc st) as [st1|] eqn:E1; [|discriminate].
    cbn [bind] in Hs.
    destruct (IH _ _ _ _ _ _ Hs Hm) as [Hb|(j & c' & Hj & Hcol)].
    + destruct (Hc _ _ _ _ _ E1 Hb) as [?|Hcol]; [by left|].
      right. exists 0%nat, c. rewrite Nat.add_0_r. by split.
    + right. exists (S j), c'. rewrite Nat.add_succ_r. by split.
Qed.

Lemma record_elem qp node path t st m :
  m ∈ (record qp node path t st).1
  <-> m ∈ st.1 \/ (0 < t.1 /\ isMeaningful node = true /\ m = makeMatch node path t.1).
Proof.
  unfold record. destruct (Z.ltb_spec 0 t.1) as [Hp|Hp]; cbn [andb].
  - destruct (isMeaningful node); cbn [fst].
    + rewrite elem_of_app, list_elem_of_singleton. split.
      * intros [?|E]; [by left | by right].
      * intros [?|(_ & _ & E)]; [by left | by right].
    + split; [by left|]. by intros [?|(_ & ? & _)].
  - split; [by left|]. intros [?|[? _]]; [done | lia].
Qed.

Lemma searchNode_sound qp node : forall path sc st st' m,
  searchNode qp node path sc st = Ok st' -> m ∈ st'.1 ->
  m ∈ st.1 \/ collects qp sc node path m.
Proof.
  induction node as [r n d0 v rw ps gm cs IH] using AXNode_tree_ind.
  intros path sc st st' m. rewrite searchNode_eq. cbn zeta.
  set (node := mkAXNode r n d0 v rw ps gm cs) in *.
  set (next := inScope (q_within_sid qp) (generateSID node frameId path) sc).
  change (children node) with cs.
  intros Hs Hm.
  assert (Hchild : forall st1, searchChildren qp cs path next 0 st1 = Ok st' ->
            m ∈ st1.1 \/ collects qp sc node path m).
  { intros st1 H1.
    destruct (searchChildren_sound qp cs IH _ _ _ _ _ _ H1 Hm)
      as [?|(j & c & Hj & rel & n' & t & Hsub & Hc & Hr & ->)]; [by left|].
    right. exists (j :: rel), n', t.
    assert (Hch : children node !! j = Some c) by exact Hj.
    rewrite (subtree_cons node j rel c Hch), (pathTo_cons node j rel c Hch).
    split; [done|]. split; [done|].
    split; [by apply (reaches_child _ _ node path j rel c Hch)|].
    by rewrite <- app_assoc. }
  destruct next eqn:En.
  - destruct (scoreNode qp node) as [t|] eqn:Et; [|discriminate]. cbn [bind] in Hs.
    destruct (Hchild _ Hs) as [Hin|?]; [|by right].
    apply record_elem in Hin as [?|(Hp & Hmean & ->)]; [by left|].
    right. exists [], node, t. cbn. rewrite app_nil_r.
    split; [done|]. split; [done|]. split; [by apply reaches_here | done].
  - cbn [bind] in Hs. by apply Hchild.
Qed.

Lemma searchChildren_keeps qp cs :
  Forall (fun c => forall path sc st st' m,
            searchNode qp c path sc st = Ok st' -> m ∈ st.1 -> m ∈ st'.1) cs ->
  forall path sc i st st' m,
    searchChildren qp cs path sc i st = Ok st' -> m ∈ st.1 -> m ∈ st'.1.
Proof.
  induction 1 as [|c cs Hc _ IH]; intros path sc i st st' m Hs Hm.
  - by injection Hs as <-.
  - cbn [searchChildren] in Hs.
    destruct (searchNode qp c _ sc st) as [st1|] eqn:E1; [|discriminate].
    cbn [bind] in Hs. eapply IH; [exact Hs|]. by eapply Hc.
Qed.

Lemma searchNode_keeps qp node : forall path sc st st' m,
  searchNode qp node path sc st = Ok st' -> m ∈ st.1 -> m ∈ st'.1.
Proof.
  induction node as [r n d0 v rw ps gm cs IH] using AXNode_tree_ind.
  intros path sc st st' m. rewrite searchNode_eq. cbn zeta.
  destruct (inScope _ _ _).
  - destruct (scoreNode qp _) as [t|]; [|discriminate]. cbn [bind].
    intros Hs Hm. eapply (searchChildren_keeps _ _ IH); [exact Hs|].
    apply record_elem. by left.
  - cbn [bind]. apply (searchChildren_keeps _ _ IH).
Qed.

Lemma searchChildren_complete qp cs :
  Forall (fun c => forall path sc st st' m,
            searchNode qp c path sc st = Ok st' ->
            collects qp sc c path m -> m ∈ st'.1) cs ->
  forall path sc i st st' j c m,
    searchChildren qp cs path sc i st = Ok st' ->
    cs !! j = Some c ->
    collects qp sc c (path ++ [segment c (i + j)]) m ->
    m ∈ st'.1.
Proof.
  induction 1 as [|c0 cs Hc _ IH]; intros path sc i st st' j c m Hs Hj Hm; [done|].
  cbn [searchChildren] in Hs.
  destruct (searchNode qp c0 _ sc st) as [st1|] eqn:E1; [|discriminate].
  cbn [bind] in Hs. destruct j as [|j].
  - injection Hj as <-. rewrite Nat.add_0_r in Hm.
    eapply (searchChildren_keeps qp cs); [|exact Hs|by eapply Hc].
    apply Forall_forall. intros x _. apply searchNode_keeps.
  - apply (IH _ _ _ _ _ j c m Hs Hj). by rewrite Nat.add_succ_r in Hm.
Qed.

Lemma searchNode_complete qp node : forall path sc st st' m,
  searchNode qp node path sc st = Ok st' ->
  collects qp sc node path m -> m ∈ st'.1.
Proof.
  induction node as [r n d0 v rw ps gm cs IH] using AXNode_tree_ind.
  intros path sc st st' m. rewrite searchNode_eq. cbn zeta.
  set (node := mkAXNode r n d0 v rw ps gm cs) in *.
  set (next := inScope (q_within_sid qp) (generateSID node frameId path) sc).
  change (children node) with cs.
  intros Hs (rel & n' & t & Hsub & (Ht & Hp & Hmean) & Hr & ->).
  assert (Hkeep : forall sc1 st1 x, searchChildren qp cs path sc1 0 st1 = Ok st' ->
            x ∈ st1.1 -> x ∈ st'.1).
  { intros sc1 st1 x. apply searchChildren_keeps.
    apply Forall_forall. intros ? _. apply searchNode_keeps. }
  destruct rel as [|j rel].
  - cbn in Hsub. injection Hsub as <-. cbn [pathTo]. rewrite app_nil_r.
    apply reaches_here in Hr. fold next in Hr. rewrite Hr, Ht in Hs.
    cbn [bind] in Hs. eapply Hkeep; [exact Hs|].
    apply record_elem. by right.
  - destruct (children node !! j) as [c|] eqn:Hch;
      [|cbn in Hsub; change (children node) with cs in Hch;
        cbn in Hch; by rewrite Hch in Hsub].
    rewrite (subtree_cons node j rel c Hch) in Hsub.
    rewrite (pathTo_cons node j rel c Hch).
    apply (reaches_child _ _ node path j rel c Hch) in Hr. fold next in Hr.
    change (children node) with cs in Hch.
    assert (Hgo : forall st1, searchChildren qp cs path next 0 st1 = Ok st' ->
              makeMatch n' (path ++ segment c j :: pathTo c rel) t.1 ∈ st'.1).
    { intros st1 H1.
      apply (searchChildren_complete qp cs IH path next 0%nat st1 st' j c); [done|done|].
      exists rel, n', t. cbn [Nat.add]. split; [done|]. split; [done|].
      split; [done|]. by rewrite <- app_assoc. }
    destruct next.
    + destruct (scoreNode qp node) as [t0|]; [|discriminate]. cbn [bind] in Hs.
      by eapply Hgo.
    + cbn [bind] in Hs. by eapply Hgo.
Qed.

(** X16.  What sem_query collects, exactly.  When the traversal ends
    without an exception, the matches it leaves for ranking are those
    of the nodes of the tree that lie in the scope, score more than 0
    and have a role, a name or a description: each match is built from
    such a node, and each such node has its match in the array. *)
Theorem query_collects_the_matches_in_scope (qp : QueryParams) (tree : AXNode)
    (st : SearchState) (m : SemanticQueryMatch) :
  searchNode qp tree [] false ([], []) = Ok st ->
  m ∈ st.1
  <-> exists pos n t,
        subtree tree pos = Some n
        /\ scoreNode qp n = Ok t /\ 0 < t.1 /\ isMeaningful n = true
        /\ inScopeAt (q_within_sid qp) tree pos
        /\ m = makeMatch n (pathTo tree pos) t.1.
Proof.
  intros Hst. split.
  - intros Hm. destruct (searchNode_sound qp tree [] false _ _ m Hst Hm)
      as [Hm'|(rel & n & t & Hsub & (Ht & Hp & Hmean) & Hr & ->)];
      [by apply elem_of_nil in Hm'|].
    exists rel, n, t. repeat (split; [done|]).
    split; [by apply reaches_root | done].
  - intros (pos & n & t & Hsub & Ht & Hp & Hmean & Hr & ->).
    apply (searchNode_complete qp tree [] false _ _ _ Hst).
    exists pos, n, t. split; [done|]. split; [by split|].
    split; [by apply reaches_root | done].
Qed.

(** The hypothesis of [query_collects_the_matches_in_scope] holds on
    the two buttons queried for the role button and the label Submit. *)
Lemma query_collects_witness :
  searchNode (roleAndLabel (Some "button") (Some "Submit") false true)
    twoButtons [] false ([], [])
  = Ok ([makeMatch twoButtons [] 50; makeMatch submitButton ["button[0]"] 90], [])
  /\ exists pos n t,
       subtree twoButtons pos = Some n
       /\ scoreNode (roleAndLabel (Some "button") (Some "Submit") false true) n = Ok t
       /\ 0 < t.1 /\ isMeaningful n = true
       /\ inScopeAt None twoButtons pos
       /\ makeMatch submitButton ["button[0]"] 90 = makeMatch n (pathTo twoButtons pos) t.1.
Proof.
  assert (Hst : searchNode (roleAndLabel (Some "button") (Some "Submit") false true)
                  twoButtons [] false ([], [])
                = Ok ([makeMatch twoButtons [] 50;
                       makeMatch submitButton ["button[0]"] 90], []))
    by (vm_compute; reflexivity).
  assert (Hm : makeMatch submitButton ["button[0]"] 90
               ∈ ([makeMatch twoButtons [] 50;
                   makeMatch submitButton ["button[0]"] 90], @nil string).1)
    by (right; left).
  split; [exact Hst|].
  exact (proj1 (query_collects_the_matches_in_scope _ _ _ _ Hst) Hm).
Defined.

(** ** One call that returns everything *)

(** X17.  When no cursor is given (or an empty one) and the
    materialized list has at most max_nodes entries, the call returns
    the whole list and no next_cursor. *)
Theorem one_page_returns_everything (tree : AXNode) (token : string)
    (p : SnapshotParams) (r : SnapshotResult) :
  given (cursor p) = false ->
  Z.of_nat (length (processNode p tree [] false [])) <= max_nodes p ->
  semSnapshot (Some tree) token p = Ok r ->
  nodes r = processNode p tree [] false [] /\ next_cursor r = None.
Proof.
  intros Hc Hlen. unfold semSnapshot, paginate. cbn [bind rethrow].
  set (l := processNode p tree [] false []) in *.
  assert (Hstart : match cursor p with
                   | Some c => if JS.truthy c then parseInt c else Some 0
                   | None => Some 0
                   end = Some 0).
  { destruct (cursor p) as [c|]; [|done]. cbn in Hc. by rewrite Hc. }
  rewrite Hstart. cbn [fmap option_fmap option_map].
  intros [= <-]. cbn [nodes next_cursor].
  assert (He : Z.min (0 + max_nodes p) (Z.of_nat (length l)) = Z.of_nat (length l))
    by lia.
  rewrite He, Z.ltb_irrefl. split; [|done].
  unfold slice, relativeIndex. cbn [from_option]. unfold id.
  destruct (Z.ltb_spec (Z.of_nat (length l)) 0); [lia|].
  change (0 <? 0) with false. cbv iota.
  rewrite Z.min_id, Z.min_l by lia.
  change (Z.to_nat 0) with 0%nat. rewrite drop_0, Z.sub_0_r, Nat2Z.id.
  apply firstn_all.
Qed.

(** The hypotheses of [one_page_returns_everything] hold on the list
    with a group and the default page size. *)
Lemma one_page_witness :
  given (cursor snapshotDefaults) = false
  /\ Z.of_nat (length (processNode snapshotDefaults listAndGroup [] false []))
     <= max_nodes snapshotDefaults
  /\ exists r, semSnapshot (Some listAndGroup) "t" snapshotDefaults = Ok r
               /\ nodes r = processNode snapshotDefaults listAndGroup [] false []
               /\ next_cursor r = None.
Proof.
  assert (Hc : given (cursor snapshotDefaults) = false) by reflexivity.
  assert (Hlen : Z.of_nat (length (processNode snapshotDefaults listAndGroup [] false []))
                 <= max_nodes snapshotDefaults) by (vm_compute; discriminate).
  assert (Hr : semSnapshot (Some listAndGroup) "t" snapshotDefaults
               = Ok {| snapshot_id := "snap_t";
                       nodes := processNode snapshotDefaults listAndGroup [] false [];
                       next_cursor := None |}) by (vm_compute; reflexivity).
  split; [exact Hc|]. split; [exact Hlen|].
  eexists. split; [exact Hr|].
  exact (one_page_returns_everything listAndGroup "t" snapshotDefaults _ Hc Hlen Hr).
Defined.

(** ** An identifier that was returned, used as a scope *)

(** X18.  The identifier of a match that sem_query returned without
    within_sid can be given back as within_sid: the scoped query ends
    without an exception and collects that same match again. *)
Theorem match_sid_scopes_to_its_match (lc : string -> string -> comparison)
    (tree : AXNode) (qp : QueryParams) (r : QueryResult) (m : SemanticQueryMatch) :
  semQuery lc (Some tree) (queryWithin None qp) = Ok r ->
  m ∈ elements r ->
  exists st,
    searchNode (queryWithin (Some (m_sid m)) qp) tree [] false ([], []) = Ok st
    /\ m ∈ st.1
    /\ semQuery lc (Some tree) (queryWithin (Some (m_sid m)) qp)
       = Ok (shape lc (queryWithin (Some (m_sid m)) qp) st).
Proof.
  intros Hr Hm.
  destruct (semQuery_elements _ _ _ _ _ Hr Hm) as (st0 & Hst0 & Hin).
  destruct (searchNode_sound _ _ _ _ _ _ _ Hst0 Hin)
    as [Hnil|(rel & n & t & Hsub & (Ht & Hp & Hmean) & _ & Em)];
    [by apply elem_of_nil in Hnil|].
  destruct (searchNode_scoped qp (Some (m_sid m)) tree [] false false
              ([], []) ([], []) st0) as (st & Hst & _); [by split | done |].
  exists st. split; [done|]. split.
  - apply (searchNode_complete _ _ _ _ _ _ _ Hst).
    exists rel, n, t. split; [done|]. split; [by split|]. split; [|done].
    right; right. exists (m_sid m). split; [done|].
    exists rel, n. split; [done|]. split; [done|]. by rewrite Em.
  - unfold semQuery. cbn [bind rethrow]. by rewrite Hst.
Qed.

(** The hypotheses of [match_sid_scopes_to_its_match] hold for the
    Submit button below the Cancel button. *)
Lemma match_sid_witness :
  exists r m,
    semQuery (fun _ _ => Eq) (Some twoButtons)
      (queryWithin None (roleAndLabel (Some "button") (Some "Submit") false false)) = Ok r
    /\ m ∈ elements r
    /\ exists st,
         searchNode (queryWithin (Some (m_sid m))
                       (roleAndLabel (Some "button") (Some "Submit") false false))
           twoButtons [] false ([], []) = Ok st
         /\ m ∈ st.1.
Proof.
  eexists _, _.
  assert (Hr : semQuery (fun _ _ => Eq) (Some twoButtons)
                 (queryWithin None
                    (roleAndLabel (Some "button") (Some "Submit") false false))
               = Ok {| sids := [generateSID submitButton frameId ["button[0]"]];
                       elements := [makeMatch submitButton ["button[0]"] 90];
                       explanations := None |}) by (vm_compute; reflexivity).
  assert (Hm : makeMatch submitButton ["button[0]"] 90
               ∈ elements {| sids := [generateSID submitButton frameId ["button[0]"]];
                             elements := [makeMatch submitButton ["button[0]"] 90];
                             explanations := None |}) by left.
  split; [exact Hr|]. split; [exact Hm|].
  destruct (match_sid_scopes_to_its_match _ _ _ _ _ Hr Hm) as (st & Hst & Hin & _).
  exists st. split; [exact Hst | exact Hin].
Defined.

(** X19.  The identifier of a node that sem_snapshot materialized
    without within_sid can be given back as within_sid: as long as the
    unscoped list stays under 5 * max_nodes entries, the scoped snapshot
    materializes that same node again. *)
Theorem node_sid_scopes_to_its_node (tree : AXNode) (p : SnapshotParams)
    (d : SemanticSnapshotNode) (S : string) :
  Z.of_nat (length (processNode (withinSid None p) tree [] false [])) < max_nodes p * 5 ->
  d ∈ processNode (withinSid None p) tree [] false [] ->
  sn_sid d = Some S ->
  d ∈ processNode (withinSid (Some S) p) tree [] false [].
Proof.
  intros Hlen Hd Hsid.
  destruct (processNode_sound _ _ _ _ _ _ Hd)
    as [Hnil|(rel & n & Hsub & Hc & _ & ->)]; [by apply elem_of_nil in Hnil|].
  pose proof (processNode_scoped p (Some S) tree [] false false [] []
                (reflexivity _) Hlen) as Hsl.
  apply sublist_length in Hsl.
  apply processNode_complete.
  - change (max_nodes (withinSid (Some S) p)) with (max_nodes p). lia.
  - exists rel, n. split; [done|]. split; [done|]. split; [|done].
    right; right. exists S. split; [done|].
    exists rel, n. split; [done|]. split; [done|].
    unfold nodeData in Hsid. cbn [sn_sid] in Hsid.
    destruct (includesField _ "sid"); [|done]. by injection Hsid.
Qed.

(** The hypotheses of [node_sid_scopes_to_its_node] hold for the group
    of the list with a group. *)
Lemma node_sid_witness :
  let d := nodeData snapshotDefaults (element "group" "More" [element "button" "Deep" []])
             ["group[5]"] in
  Z.of_nat (length (processNode (withinSid None snapshotDefaults) listAndGroup
                      [] false []))
    < max_nodes snapshotDefaults * 5
  /\ d ∈ processNode (withinSid None snapshotDefaults) listAndGroup [] false []
  /\ sn_sid d = Some (generateSID (element "group" "More" [element "button" "Deep" []])
                        frameId ["group[5]"])
  /\ d ∈ processNode
           (withinSid (Some (generateSID
                               (element "group" "More" [element "button" "Deep" []])
                               frameId ["group[5]"])) snapshotDefaults)
           listAndGroup [] false [].
Proof.
  cbn zeta.
  assert (Hlen : Z.of_nat (length (processNode (withinSid None snapshotDefaults)
                                     listAndGroup [] false []))
                 < max_nodes snapshotDefaults * 5) by (vm_compute; reflexivity).
  assert (Hd : nodeData snapshotDefaults
                 (element "group" "More" [element "button" "Deep" []]) ["group[5]"]
               ∈ processNode (withinSid None snapshotDefaults) listAndGroup [] false []).
  { apply list_elem_of_lookup. exists 6%nat. vm_compute. reflexivity. }
  assert (Hs : sn_sid (nodeData snapshotDefaults
                         (element "group" "More" [element "button" "Deep" []])
                         ["group[5]"])
               = Some (generateSID (element "group" "More" [element "button" "Deep" []])
                         frameId ["group[5]"])) by (vm_compute; reflexivity).
  split; [exact Hlen|]. split; [exact Hd|]. split; [exact Hs|].
  exact (node_sid_scopes_to_its_node listAndGroup snapshotDefaults _ _ Hlen Hd Hs).
Defined.

(** ** No blank node is returned *)

(** X20.  When role, label and textSnippet are among the fields asked
    for, every node sem_snapshot returns shows at least one of them: a
    role that is not empty, a label that is not empty, or a snippet. *)
Theorem returned_nodes_are_not_blank (tree : AXNode) (token : string)
    (p : SnapshotParams) (r : SnapshotResult) (d : SemanticSnapshotNode) :
  includesField (fields p) "role" = true ->
  includesField (fields p) "label" = true ->
  includesField (fields p) "textSnippet" = true ->
  semSnapshot (Some tree) token p = Ok r ->
  d ∈ nodes r ->
  (exists s, sn_role d = Some s /\ s <> "")
  \/ (exists s, sn_label d = Some s /\ s <> "")
  \/ is_Some (sn_textSnippet d).
Proof.
  intros Hrole Hlabel Hsnip Hr Hd.
  apply (semSnapshot_nodes _ _ _ _ _ Hr) in Hd.
  destruct (processNode_sound _ _ _ _ _ _ Hd)
    as [Hnil|(rel & n & _ & Hc & _ & ->)]; [by apply elem_of_nil in Hnil|].
  unfold nodeData. cbn [sn_role sn_label sn_textSnippet].
  rewrite Hrole, Hlabel, Hsnip.
  unfold hasContent in Hc.
  apply orb_true_iff in Hc as [[Hc|Hc]%orb_true_iff|Hc].
  - left. eexists. split; [done|]. intros E. by rewrite E in Hc.
  - right; left. eexists. split; [done|]. intros E. by rewrite E in Hc.
  - right; right. by apply bool_decide_eq_true in Hc.
Qed.

(** The hypotheses of [returned_nodes_are_not_blank] hold on the one
    button with the default fields. *)
Lemma returned_nodes_witness :
  includesField (fields snapshotDefaults) "role" = true
  /\ includesField (fields snapshotDefaults) "label" = true
  /\ includesField (fields snapshotDefaults) "textSnippet" = true
  /\ exists r d, semSnapshot (Some submitButton) "t" snapshotDefaults = Ok r
                 /\ d ∈ nodes r
                 /\ ((exists s, sn_role d = Some s /\ s <> "")
                     \/ (exists s, sn_label d = Some s /\ s <> "")
                     \/ is_Some (sn_textSnippet d)).
Proof.
  split; [reflexivity|]. split; [reflexivity|]. split; [reflexivity|].
  eexists _, _.
  assert (Hr : semSnapshot (Some submitButton) "t" snapshotDefaults
               = Ok {| snapshot_id := "snap_t";
                       nodes := [nodeData snapshotDefaults submitButton []];
                       next_cursor := None |}) by (vm_compute; reflexivity).
  assert (Hd : nodeData snapshotDefaults submitButton []
               ∈ nodes {| snapshot_id := "snap_t";
                          nodes := [nodeData snapshotDefaults submitButton []];
                          next_cursor := None |}) by left.
  split; [exact Hr|]. split; [exact Hd|].
  exact (returned_nodes_are_not_blank submitButton "t" snapshotDefaults _ _
           eq_refl eq_refl eq_refl Hr Hd).
Defined.

(** ** Ties in the ranking *)

Lemma insertSorted_filter {A} (cmp : A -> A -> comparison) (P : A -> bool) a l :
  (forall x y, P x = true -> P y = true -> cmp x y <> Gt) ->
  List.filter P (insertSorted cmp a l) = List.filter P (a :: l).
Proof.
  intros Htie. induction l as [|b l IH]; [done|].
  cbn [insertSorted]. destruct (cmp a b) eqn:E; try done.
  cbn [List.filter] in *. rewrite IH.
  destruct (P a) eqn:Ea, (P b) eqn:Eb; try done.
  by destruct (Htie a b Ea Eb).
Qed.

Lemma sort_filter {A} (cmp : A -> A -> comparison) (P : A -> bool) l :
  (forall x y, P x = true -> P y = true -> cmp x y <> Gt) ->
  List.filter P (sort cmp l) = List.filter P l.
Proof.
  intros Htie. unfold sort. induction l as [|a l IH]; [done|].
  cbn [foldr]. rewrite insertSorted_filter by done.
  cbn [List.filter]. by rewrite IH.
Qed.

(** X21.  The ranking keeps ties in traversal order: among the matches
    of one score (rank_by semantic_score), or of one confidence (rank_by
    visibility), the ranked array has them in the order in which the
    traversal collected them. *)
Theorem ties_keep_traversal_order (lc : string -> string -> comparison)
    (ms : list SemanticQueryMatch) (k : Z) (c : Q) :
  List.filter (fun m => score m =? k) (rank lc semantic_score ms)
  = List.filter (fun m => score m =? k) ms
  /\ List.filter (fun m => Qeq_bool (confidence m) c) (rank lc visibility ms)
     = List.filter (fun m => Qeq_bool (confidence m) c) ms.
Proof.
  split; apply sort_filter.
  - intros x y Hx%Z.eqb_eq Hy%Z.eqb_eq. rewrite Hx, Hy, Z.compare_refl. done.
  - intros x y Hx%Qeq_bool_iff Hy%Qeq_bool_iff.
    assert (E : (confidence y ?= confidence x)%Q = Eq)
      by (apply Qeq_alt; by rewrite Hx, Hy).
    by rewrite E.
Qed.

(** ** Explanations when the ranking keeps the order *)

Lemma sort_keeps_sorted {A} (cmp : A -> A -> comparison) (R : A -> A -> Prop) l :
  (forall a b, R a b -> cmp a b <> Gt) ->
  StronglySorted R l -> sort cmp l = l.
Proof.
  intros HR. unfold sort. induction 1 as [|a l Hs IH Hall]; [done|].
  cbn [foldr]. rewrite IH. destruct l as [|b l]; [done|].
  cbn [insertSorted]. apply Forall_cons in Hall as [Hab _].
  destruct (cmp a b) eqn:E; try done. by destruct (HR a b Hab).
Qed.

Lemma slice_from_start {A} (l : list A) stop :
  slice l (Some 0) stop
  = take (Z.to_nat (relativeIndex (Z.of_nat (length l)) stop)) l.
Proof.
  unfold slice.
  assert (E0 : relativeIndex (Z.of_nat (length l)) (Some 0) = 0)
    by (unfold relativeIndex; cbn; lia).
  rewrite E0, Z.sub_0_r. change (Z.to_nat 0) with 0%nat. by rewrite drop_0.
Qed.

Lemma searchChildren_explains qp cs :
  explain qp = true ->
  Forall (fun c => forall path sc st st',
            searchNode qp c path sc st = Ok st' ->
            exists new, st'.1 = st.1 ++ new.*1 /\ st'.2 = st.2 ++ new.*2
                        /\ Forall (explains qp c path) new) cs ->
  forall path sc i st st',
    searchChildren qp cs path sc i st = Ok st' ->
    exists new, st'.1 = st.1 ++ new.*1 /\ st'.2 = st.2 ++ new.*2
      /\ Forall (fun me => exists j c, cs !! j = Some c
                   /\ explains qp c (path ++ [segment c (i + j)]) me) new.
Proof.
  intros He. induction 1 as [|c cs Hc _ IH]; intros path sc i st st' Hs.
  - injection Hs as <-. exists []. cbn. by rewrite !app_nil_r.
  - cbn [searchChildren] in Hs.
    destruct (searchNode qp c _ sc st) as [st1|] eqn:E1; [|discriminate].
    cbn [bind] in Hs.
    destruct (Hc _ _ _ _ E1) as (n1 & H11 & H12 & Hf1).
    destruct (IH _ _ _ _ _ Hs) as (n2 & H21 & H22 & Hf2).
    exists (n1 ++ n2). rewrite !fmap_app, !app_assoc, <- H11, <- H12.
    split; [done|]. split; [done|]. apply Forall_app. split.
    + eapply Forall_impl; [exact Hf1|]. intros me Hme.
      exists 0%nat, c. rewrite Nat.add_0_r. by split.
    + eapply Forall_impl; [exact Hf2|]. intros me (j & c' & Hj & Hme).
      exists (S j), c'. rewrite Nat.add_succ_r. by split.
Qed.

Lemma searchNode_explains qp node :
  explain qp = true ->
  forall path sc st st',
    searchNode qp node path sc st = Ok st' ->
    exists new, st'.1 = st.1 ++ new.*1 /\ st'.2 = st.2 ++ new.*2
                /\ Forall (explains qp node path) new.
Proof.
  intros He.
  induction node as [r n d0 v rw ps gm cs IH] using AXNode_tree_ind.
  intros path sc st st'. rewrite searchNode_eq. cbn zeta.
  set (node := mkAXNode r n d0 v rw ps gm cs) in *.
  set (next := inScope (q_within_sid qp) (generateSID node frameId path) sc).
  change (children node) with cs.
  assert (Hbelow : forall st1 own,
            st1.1 = st.1 ++ own.*1 -> st1.2 = st.2 ++ own.*2 ->
            Forall (explains qp node path) own ->
            searchChildren qp cs path next 0 st1 = Ok st' ->
            exists new, st'.1 = st.1 ++ new.*1 /\ st'.2 = st.2 ++ new.*2
                        /\ Forall (explains qp node path) new).
  { intros st1 own H1 H2 Hown Hs.
    destruct (searchChildren_explains qp cs He IH _ _ _ _ _ Hs) as (n2 & H21 & H22 & Hf2).
    exists (own ++ n2). rewrite !fmap_app, !app_assoc, <- H1, <- H2.
    split; [done|]. split; [done|]. apply Forall_app. split; [done|].
    eapply Forall_impl; [exact Hf2|].
    intros me (j & c & Hj & rel & n' & t & Hsub & Ht & Em & Ee).
    exists (j :: rel), n', t.
    assert (Hch : children node !! j = Some c) by exact Hj.
    rewrite (subtree_cons node j rel c Hch), (pathTo_cons node j rel c Hch).
    split; [done|]. split; [done|]. split; [|done].
    by rewrite <- app_assoc in Em. }
  destruct next.
  - destruct (scoreNode qp node) as [t|] eqn:Et; [|discriminate]. cbn [bind].
    unfold record. rewrite He.
    destruct (_ && _).
    + apply (Hbelow _ [(makeMatch node path t.1, JS.join "," t.2)]); [done | done |].
      constructor; [|constructor]. exists [], node, t. cbn. by rewrite app_nil_r.
    + apply (Hbelow _ []); cbn; by rewrite ?app_nil_r.
  - cbn [bind]. apply (Hbelow _ []); cbn; by rewrite ?app_nil_r.
Qed.

(** X22.  When the traversal already collects the matches in order of
    non-increasing score, ranking by score moves nothing and the
    explanations returned with explain are those of the elements
    returned: explanations[i] is the list of reasons of the node that
    elements[i] was built from. *)
Theorem explanations_aligned_when_order_is_kept (lc : string -> string -> comparison)
    (tree : AXNode) (qp : QueryParams) (r : QueryResult) (st : SearchState) :
  explain qp = true ->
  rank_by qp = semantic_score ->
  searchNode qp tree [] false ([], []) = Ok st ->
  StronglySorted byScore st.1 ->
  semQuery lc (Some tree) qp = Ok r ->
  exists es,
    explanations r = Some es
    /\ forall i m, elements r !! i = Some m ->
         exists pos n t,
           subtree tree pos = Some n /\ scoreNode qp n = Ok t
           /\ m = makeMatch n (pathTo tree pos) t.1
           /\ es !! i = Some (Some (JS.join "," t.2)).
Proof.
  intros He Hby Hst Hsorted. unfold semQuery. cbn [bind rethrow].
  rewrite Hst. cbn [bind]. intros [= <-].
  destruct (searchNode_explains qp tree He [] false ([], []) st Hst)
    as (new & H1 & H2 & Hnew).
  cbn [fst snd app] in H1, H2.
  assert (Hpair : forall i m, st.1 !! i = Some m ->
            exists pos n t, subtree tree pos = Some n /\ scoreNode qp n = Ok t
              /\ m = makeMatch n (pathTo tree pos) t.1
              /\ st.2 !! i = Some (JS.join "," t.2)).
  { intros i m Hi. rewrite H1 in Hi. rewrite H2.
    rewrite list_lookup_fmap in Hi. rewrite list_lookup_fmap.
    destruct (new !! i) as [[m' e]|] eqn:Hn; [|done]. cbn in Hi. injection Hi as ->.
    rewrite Forall_forall in Hnew.
    destruct (Hnew (m, e)) as (rel & n & t & Hsub & Ht & Em & Ee);
      [by eapply list_elem_of_lookup_2|].
    cbn in Em, Ee. exists rel, n, t. cbn. by rewrite Ee. }
  assert (Hlen : length st.2 = length st.1) by (by rewrite H1, H2, !length_fmap).
  assert (Hrank : rank lc (rank_by qp) st.1 = st.1).
  { rewrite Hby. unfold rank. apply (sort_keeps_sorted _ byScore); [|done].
    unfold byScore. intros a b Hab Hgt%Z.compare_gt_iff. lia. }
  unfold shape. cbv zeta. rewrite Hrank, He, !slice_from_start.
  set (k := Z.to_nat (relativeIndex (Z.of_nat (length st.1)) (Some (q_max qp)))).
  set (limited := take k st.1).
  assert (Hl : forall i m, limited !! i = Some m ->
                 st.1 !! i = Some m /\ (i < length limited)%nat).
  { intros i m Hi. split; [|by eapply lookup_lt_Some].
    subst limited. apply lookup_take_Some in Hi. by destruct Hi. }
  destruct (negb (multiple qp)), limited as [|best rest] eqn:El;
    cbn [explanations elements]; eexists; (split; [reflexivity|]); intros i m Hi.
  - done.
  - destruct i as [|i]; [|done]. cbn in Hi. injection Hi as ->.
    destruct (Hl 0%nat m eq_refl) as [H0 _].
    destruct (Hpair _ _ H0) as (pos & n & t & ? & ? & ? & E).
    exists pos, n, t. cbn. by rewrite E.
  - done.
  - destruct (Hl i m Hi) as [H0 Hlt].
    destruct (Hpair _ _ H0) as (pos & n & t & ? & ? & ? & E).
    exists pos, n, t. repeat (split; [done|]).
    rewrite list_lookup_fmap, lookup_take_lt, E; [done|].
    assert (Hle : (length (best :: rest) <= length st.1)%nat).
    { rewrite <- El. subst limited. rewrite length_take. lia. }
    unfold relativeIndex. cbn [from_option]. unfold id.
    destruct (Z.ltb_spec (Z.of_nat (length (best :: rest))) 0); lia.
Qed.

(** The hypotheses of [explanations_aligned_when_order_is_kept] hold on
    the two buttons queried for the role button alone: both score 50. *)
Lemma explanations_aligned_witness :
  let qp := roleAndLabel (Some "button") None true true in
  explain qp = true /\ rank_by qp = semantic_score
  /\ searchNode qp twoButtons [] false ([], [])
     = Ok ([makeMatch twoButtons [] 50; makeMatch submitButton ["button[0]"] 50],
           ["role=button"; "role=button"])
  /\ StronglySorted byScore
       [makeMatch twoButtons [] 50; makeMatch submitButton ["button[0]"] 50]
  /\ exists r es, semQuery (fun _ _ => Eq) (Some twoButtons) qp = Ok r
                  /\ explanations r = Some es.
Proof.
  cbn zeta.
  assert (Hst : searchNode (roleAndLabel (Some "button") None true true)
                  twoButtons [] false ([], [])
                = Ok ([makeMatch twoButtons [] 50;
                       makeMatch submitButton ["button[0]"] 50],
                      ["role=button"; "role=button"])) by (vm_compute; reflexivity).
  assert (Hs : StronglySorted byScore
                 [makeMatch twoButtons [] 50; makeMatch submitButton ["button[0]"] 50]).
  { repeat constructor; unfold byScore; cbn; lia. }
  assert (Hr : semQuery (fun _ _ => Eq) (Some twoButtons)
                 (roleAndLabel (Some "button") None true true)
               = Ok (shape (fun _ _ => Eq) (roleAndLabel (Some "button") None true true)
                       ([makeMatch twoButtons [] 50;
                         makeMatch submitButton ["button[0]"] 50],
                        ["role=button"; "role=button"])))
    by (vm_compute; reflexivity).
  split; [reflexivity|]. split; [reflexivity|]. split; [exact Hst|]. split; [exact Hs|].
  destruct (explanations_aligned_when_order_is_kept (fun _ _ => Eq) twoButtons
              (roleAndLabel (Some "button") None true true) _ _
              eq_refl eq_refl Hst Hs Hr) as (es & Hes & _).
  eexists _, es. split; [exact Hr | exact Hes].
Defined.

(** ** Letter case in a query *)

Lemma truthy_toLowerCase s : JS.truthy (JS.toLowerCase s) = JS.truthy s.
Proof. by destruct s. Qed.

Lemma folded_option (a b : option string) :
  JS.toLowerCase <$> a = JS.toLowerCase <$> b ->
  match a, b with
  | Some x, Some y => JS.toLowerCase x = JS.toLowerCase y /\ JS.truthy x = JS.truthy y
  | None, None => True
  | _, _ => False
  end.
Proof.
  destruct a as [x|], b as [y|]; cbn; try done.
  intros [= E]. split; [done|].
  by rewrite <- (truthy_toLowerCase x), <- (truthy_toLowerCase y), E.
Qed.

Lemma matchAttributes_folded attributes entries : forall entries',
  foldEntry <$> entries = foldEntry <$> entries' ->
  match matchAttributes attributes entries (0, []),
        matchAttributes attributes entries' (0, []) with
  | Ok d, Ok d' => d.1 = d'.1
  | Err m, Err m' => m = m'
  | _, _ => False
  end.
Proof.
  induction entries as [|[a e] rest IH]; intros [|[a' e'] rest'] E; try done.
  injection E as Ea Ee Erest. cbn in Ea, Ee.
  specialize (IH rest' Erest).
  cbn [matchAttributes]. rewrite Ea, Ee.
  destruct (getAttribute attributes (JS.toLowerCase a')) as [v| |]; [|done|done].
  destruct (_ && _); [|done].
  rewrite (matchAttributes_shift attributes rest),
          (matchAttributes_shift attributes rest').
  destruct (matchAttributes attributes rest (0, [])),
           (matchAttributes attributes rest' (0, [])); try done.
  cbn. lia.
Qed.

Lemma scoreNode_folded p p' node :
  sameUpToCase p p' ->
  match scoreNode p node, scoreNode p' node with
  | Ok t, Ok t' => t.1 = t'.1
  | Err m, Err m' => m = m'
  | _, _ => False
  end.
Proof.
  intros (Hr%folded_option & Hl%folded_option & Hx%folded_option & Ha & _).
  rewrite !scoreNode_parts.
  assert (E1 : (rolePart p node).1 = (rolePart p' node).1).
  { unfold rolePart. destruct (q_role p), (q_role p'); try done.
    destruct Hr as [-> ->]. by destruct (_ && _). }
  assert (E2 : (labelPart p node).1 = (labelPart p' node).1).
  { unfold labelPart. destruct (q_label p), (q_label p'); try done.
    destruct Hl as [-> ->]. destruct (JS.truthy _); [|done].
    destruct (JS.includes _ _); [done|]. by destruct (JS.includes _ _). }
  assert (E3 : (textPart p node).1 = (textPart p' node).1).
  { unfold textPart. destruct (q_text p), (q_text p'); try done.
    destruct Hx as [-> ->]. by destruct (_ && _). }
  assert (E4 : match attributePart p node, attributePart p' node with
               | Ok d, Ok d' => d.1 = d'.1
               | Err m, Err m' => m = m'
               | _, _ => False
               end).
  { unfold attributePart. apply matchAttributes_folded.
    destruct (q_attributes p), (q_attributes p'); try done. cbn in Ha. by injection Ha. }
  destruct (attributePart p node), (attributePart p' node); try done.
  cbn [fst]. lia.
Qed.

Lemma searchChildren_folded p p' cs :
  Forall (fun c => forall path sc st1 st2 st1',
            st1.1 = st2.1 -> searchNode p c path sc st1 = Ok st1' ->
            exists st2', searchNode p' c path sc st2 = Ok st2' /\ st1'.1 = st2'.1) cs ->
  forall path sc i st1 st2 st1',
    st1.1 = st2.1 -> searchChildren p cs path sc i st1 = Ok st1' ->
    exists st2', searchChildren p' cs path sc i st2 = Ok st2' /\ st1'.1 = st2'.1.
Proof.
  induction 1 as [|c cs Hc _ IH]; intros path sc i st1 st2 st1' E Hs.
  - injection Hs as <-. by exists st2.
  - cbn [searchChildren] in *.
    destruct (searchNode p c _ sc st1) as [sta|] eqn:Ea; [|discriminate].
    cbn [bind] in Hs.
    destruct (Hc _ _ _ st2 _ E Ea) as (stb & -> & Eab). cbn [bind].
    by eapply IH.
Qed.

Lemma searchNode_folded p p' node :
  sameUpToCase p p' ->
  forall path sc st1 st2 st1',
    st1.1 = st2.1 -> searchNode p node path sc st1 = Ok st1' ->
    exists st2', searchNode p' node path sc st2 = Ok st2' /\ st1'.1 = st2'.1.
Proof.
  intros Hsame.
  induction node as [r n d0 v rw ps gm cs IH] using AXNode_tree_ind.
  intros path sc st1 st2 st1' E. rewrite !searchNode_eq. cbn zeta.
  set (node := mkAXNode r n d0 v rw ps gm cs) in *.
  assert (Hw : q_within_sid p = q_within_sid p') by apply Hsame.
  rewrite <- Hw.
  destruct (inScope _ _ _).
  - pose proof (scoreNode_folded p p' node Hsame) as Ht.
    destruct (scoreNode p node) as [t|], (scoreNode p' node) as [t'|];
      try done. cbn [bind].
    apply (searchChildren_folded p p' _ IH).
    unfold record. rewrite Ht. destruct (_ && _); cbn [fst]; by rewrite ?E.
  - cbn [bind]. by apply (searchChildren_folded p p' _ IH).
Qed.

(** X23.  sem_query does not look at letter case: two queries that
    differ only in the case of the role, the label, the text and the
    attribute names and values asked for return the same elements and
    the same sids, and one fails when the other does. *)
Theorem query_ignores_letter_case (lc : string -> string -> comparison)
    (tree : AXNode) (p p' : QueryParams) (r : QueryResult) :
  sameUpToCase p p' ->
  semQuery lc (Some tree) p = Ok r ->
  exists r', semQuery lc (Some tree) p' = Ok r'
             /\ elements r' = elements r /\ sids r' = sids r.
Proof.
  intros Hsame. unfold semQuery. cbn [bind rethrow].
  destruct (searchNode p tree [] false ([], [])) as [st|] eqn:Hst; [|discriminate].
  cbn [bind]. intros [= <-].
  destruct (searchNode_folded p p' tree Hsame [] false ([], []) ([], []) st eq_refl Hst)
    as (st' & -> & E).
  cbn [bind]. eexists. split; [reflexivity|].
  destruct Hsame as (_ & _ & _ & _ & _ & Hby & Hm & Hmax).
  unfold shape. cbv zeta. rewrite <- E, <- Hby, <- Hm, <- Hmax.
  by destruct (negb (multiple p)), (slice _ _ _).
Qed.

(** The hypotheses of [query_ignores_letter_case] hold for the queries
    for BUTTON / SUBMIT and for button / submit on the one button. *)
Lemma query_ignores_letter_case_witness :
  sameUpToCase (roleAndLabel (Some "BUTTON") (Some "SUBMIT") false false)
               (roleAndLabel (Some "button") (Some "submit") false false)
  /\ exists r r',
       semQuery (fun _ _ => Eq) (Some submitButton)
         (roleAndLabel (Some "BUTTON") (Some "SUBMIT") false false) = Ok r
       /\ semQuery (fun _ _ => Eq) (Some submitButton)
            (roleAndLabel (Some "button") (Some "submit") false false) = Ok r'
       /\ elements r' = elements r.
Proof.
  assert (Hs : sameUpToCase (roleAndLabel (Some "BUTTON") (Some "SUBMIT") false false)
                 (roleAndLabel (Some "button") (Some "submit") false false))
    by (repeat split; reflexivity).
  assert (Hr : semQuery (fun _ _ => Eq) (Some submitButton)
                 (roleAndLabel (Some "BUTTON") (Some "SUBMIT") false false)
               = Ok {| sids := [generateSID submitButton frameId []];
                       elements := [makeMatch submitButton [] 90];
                       explanations := None |}) by (vm_compute; reflexivity).
  split; [exact Hs|].
  destruct (query_ignores_letter_case (fun _ _ => Eq) submitButton _ _ _ Hs Hr)
    as (r' & Hr' & He & _).
  eexists _, r'. split; [exact Hr|]. split; [exact Hr' | exact He].
Defined.

(** ** The keys of the extracted attributes *)

Lemma foldl_invariant {X M} (P : M -> Prop) (f : M -> X -> M) l : forall m,
  (forall m x, x ∈ l -> P m -> P (f m x)) -> P m -> P (foldl f m l).
Proof.
  induction l as [|x l IH]; intros m Hf Hm; [done|].
  cbn. apply IH.
  - intros m' y Hy. apply Hf. by right.
  - apply Hf; [by left | done].
Qed.

Lemma setAttribute_keys name value (attributes : gmap string string) :
  JS.toLowerCase name = name -> name <> "" ->
  (forall k v, attributes !! k = Some v -> attributeKey k) ->
  forall k v, setAttribute name value attributes !! k = Some v -> attributeKey k.
Proof.
  intros Hl Hne Hm k v. unfold setAttribute.
  destruct (String.eqb_spec name "__proto__") as [->|Hp]; [apply Hm|].
  destruct (decide (k = name)) as [->|Hk].
  - intros _. by split.
  - rewrite lookup_insert_ne by done. apply Hm.
Qed.

Lemma candidates_lower : Forall (fun c => JS.toLowerCase c = c /\ c <> "") candidates.
Proof. unfold candidates. repeat constructor; discriminate. Qed.

(** X24.  Every key of the object [extractAttributes] returns is in
    lower case, is not empty and is not "__proto__"; a query therefore
    reaches every extracted attribute, since it looks names up in lower
    case. *)
Theorem extracted_attributes_are_reachable (node : AXNode) (k v : string) :
  extractAttributes node !! k = Some v ->
  attributeKey k
  /\ getAttribute (extractAttributes node) (JS.toLowerCase k) = Own v.
Proof.
  intros Hk.
  assert (Hall : forall k v, extractAttributes node !! k = Some v -> attributeKey k).
  { clear k v Hk. unfold extractAttributes.
    assert (H1 : forall k v,
              foldl (fun attributes candidate =>
                       match raw node !! candidate with
                       | None | Some VUndefined | Some VNull => attributes
                       | Some v => setAttribute candidate (jsString v) attributes
                       end) ∅ candidates !! k = Some v -> attributeKey k).
    { apply (foldl_invariant
               (fun m : gmap string string =>
                  forall k v, m !! k = Some v -> attributeKey k)); [|done].
      intros m x Hx Hm.
      pose proof candidates_lower as Hc. rewrite Forall_forall in Hc.
      destruct (Hc x Hx) as [Hl Hne].
      destruct (raw node !! x) as [[]|]; try done; by apply setAttribute_keys. }
    destruct (properties node) as [props|]; [|exact H1].
    apply (foldl_invariant
             (fun m : gmap string string =>
                forall k v, m !! k = Some v -> attributeKey k)); [|exact H1].
    intros m x _ Hm. destruct (prop_name x); try done.
    destruct (negb _) eqn:Et; [done|]. destruct (String.eqb _ ""); [done|].
    apply setAttribute_keys; [apply toLowerCase_idem | | done].
    intros E. rewrite E in Et. discriminate. }
  pose proof (Hall k v Hk) as Hkey. split; [done|].
  destruct Hkey as (-> & _ & _). unfold getAttribute. by rewrite Hk.
Qed.

(** The hypothesis of [extracted_attributes_are_reachable] holds for a
    node with the property Required. *)
Lemma extracted_attributes_witness :
  let node := mkAXNode (VString "textbox") (VString "Name") VUndefined VUndefined ∅
                (Some [{| prop_name := VString "Required";
                          prop_value := VBoolean true |}]) None [] in
  extractAttributes node !! "required" = Some "true"
  /\ getAttribute (extractAttributes node) (JS.toLowerCase "required") = Own "true".
Proof.
  cbn zeta.
  assert (Hk : extractAttributes
                 (mkAXNode (VString "textbox") (VString "Name") VUndefined VUndefined ∅
                    (Some [{| prop_name := VString "Required";
                              prop_value := VBoolean true |}]) None [])
               !! "required" = Some "true") by (vm_compute; reflexivity).
  split; [exact Hk|].
  exact (proj2 (extracted_attributes_are_reachable _ _ _ Hk)).
Defined.
